(** * My02_Re: timeline compiler and judgment engine

    A shallow embedding of the core parts of the rhythm game:

    - [BMSParser]: the second half of [BMSParser.parse] (measure lengths,
      grid scan, time integration, note materialisation), starting from the
      tables that the line tokenizer has filled in;
    - [RhythmGame]: the judgment engine of [game.js] ([start]'s lane
      remapping, [update]'s per-note sweep, [checkHit], [checkLNRelease],
      [triggerHit], [triggerMiss]);
    - [Lines]: the two line patterns that the tokenizer of
      [BMSParser.parse] tries on every line.

    Numbers.  JavaScript numbers are modelled by exact rationals ([Q]) for
    beats, seconds, tempo and health, and by integers ([Z]) for lanes,
    counters and score.  Rounding of IEEE doubles, [NaN] and infinities are
    outside the model: header and table values enter already parsed, and
    the time integration answers [None] when a tempo is not a finite
    non-zero number.  Rational results are compared with [==] ([Qeq]).

    Rendering, audio and DOM calls do not touch the modelled state and are
    left out. *)

From Stdlib Require Import QArith Qabs Qminmax ZArith List Bool String Ascii Sorted
  Permutation Lia Lqa.
Import ListNotations.

Local Open Scope Q_scope.

(** ** Shared helpers *)

(** [a < b] on rationals, as a boolean. *)
Definition Qltb (a b : Q) : bool := negb (Qle_bool b a).

(** [Array.prototype.sort] is stable.  With a comparator [cmp] whose sign
    is given by [lt a b] (true when [cmp(a,b) < 0]), a stable sort is an
    insertion sort that keeps an element in front of the later elements
    that are not strictly smaller. *)
Fixpoint insert_by {A : Type} (lt : A -> A -> bool) (x : A) (l : list A) : list A :=
  match l with
  | [] => [x]
  | y :: l' => if lt y x then y :: insert_by lt x l' else x :: y :: l'
  end.

Definition sort_by {A : Type} (lt : A -> A -> bool) (l : list A) : list A :=
  fold_right (insert_by lt) [] l.

(** Pair every element with its position: the position stands for the
    identity of the JavaScript object stored there. *)
Fixpoint indexed_from {A : Type} (i : nat) (l : list A) : list (nat * A) :=
  match l with
  | [] => []
  | x :: l' => (i, x) :: indexed_from (S i) l'
  end.

Definition indexed {A : Type} (l : list A) : list (nat * A) := indexed_from 0 l.

(** In-place update of the object at position [i]. *)
Fixpoint replace_at {A : Type} (i : nat) (x : A) (l : list A) : list A :=
  match l, i with
  | [], _ => []
  | _ :: l', O => x :: l'
  | y :: l', S i' => y :: replace_at i' x l'
  end.

Inductive NoteType : Type := tap | ln.

Definition NoteType_eqb (a b : NoteType) : bool :=
  match a, b with
  | tap, tap | ln, ln => true
  | _, _ => false
  end.

(** ** The timeline compiler ([BMSParser.parse], from the measure table on) *)

Module BMSParser.

(** *** Number parsing *)

Definition digitVal (base : Z) (c : ascii) : option Z :=
  let n := Z.of_nat (nat_of_ascii c) in
  let v :=
    if ((48 <=? n) && (n <=? 57))%Z%bool then Some (n - 48)%Z
    else if ((97 <=? n) && (n <=? 122))%Z%bool then Some (n - 87)%Z
    else if ((65 <=? n) && (n <=? 90))%Z%bool then Some (n - 55)%Z
    else None in
  match v with
  | Some d => if (d <? base)%Z then Some d else None
  | None => None
  end.

(** The longest prefix of [s] made of digits of [base]; [acc] is the
    value read so far, [None] while no digit has been read. *)
Fixpoint parsePrefix (base : Z) (s : string) (acc : option Z) : option Z :=
  match s with
  | EmptyString => acc
  | String c s' =>
    match digitVal base c with
    | Some d =>
      parsePrefix base s' (Some (match acc with Some a => a * base + d | None => d end)%Z)
    | None => acc
    end
  end.

(** [parseInt(ch)] on a channel code (two decimal digits); [None] is [NaN]. *)
Definition parseInt (s : string) : option Z := parsePrefix 10 s None.

(** [parseInt(valStr, 16)]: an optional [0x]/[0X] is dropped first. *)
Definition parseInt16 (s : string) : option Z :=
  match s with
  | String "0" (String "x" s') => parsePrefix 16 s' None
  | String "0" (String "X" s') => parsePrefix 16 s' None
  | _ => parsePrefix 16 s None
  end.

(** The rest of [s] after its longest prefix of decimal digits. *)
Fixpoint dropDigits (s : string) : string :=
  match s with
  | EmptyString => EmptyString
  | String c s' =>
    match digitVal 10 c with
    | Some _ => dropDigits s'
    | None => s
    end
  end.

(** [parseFloat(data)] on a data string of the measure grid, which holds
    letters and digits only: digits, then possibly an exponent.  [None]
    stands for a result that is not a finite number. *)
Definition parseFloat (s : string) : option Q :=
  match parsePrefix 10 s None with
  | None => None
  | Some d =>
    match dropDigits s with
    | String c s' =>
      if (Ascii.eqb c "e" || Ascii.eqb c "E")%bool then
        match parsePrefix 10 s' None with
        | Some e => Some (inject_Z (d * 10 ^ e))
        | None => Some (inject_Z d)
        end
      else Some (inject_Z d)
    | EmptyString => Some (inject_Z d)
    end
  end.

(** *** Data *)

(** The tables left by the tokenizer.  [measures] lists the entries of
    the [Map] (distinct indices); the channels of a measure are listed in
    the order in which [for (const ch in channels)] visits them.  Header
    and definition values are the numbers that [parseFloat]/[parseInt]
    made of them. *)
Record Chart : Type := mkChart {
  headerBPM : option Q;
  headerLNTYPE : option Z;
  measures : list (nat * list (string * string));
  bpmDefs : list (string * Q);
  stopDefs : list (string * Q)
}.

Inductive TimeEventType : Type := bpm | stop.

(** [{ beat, type, value }]; a [value] that is [NaN] is [None]. *)
Record TimeEvent : Type := mkTimeEvent {
  te_beat : Q;
  te_type : TimeEventType;
  te_value : option Q
}.

Inductive ChannelEventType : Type := ev_note | ev_ln | ev_bgm.

(** [{ beat, type, lane, valStr }]; a [bgm] event has no lane, written
    [-1] here. *)
Record ChannelEvent : Type := mkChannelEvent {
  beat : Q;
  ce_type : ChannelEventType;
  ce_lane : Z;
  valStr : string
}.

Record Note : Type := mkNote {
  time : Q;
  lane : Z;
  type : NoteType;
  duration : Q
}.

Record BGMEvent : Type := mkBGMEvent { bgm_time : Q; bgm_id : string }.
Record BpmPoint : Type := mkBpmPoint { bp_time : Q; bp_bpm : Q }.
Record StopEvent : Type := mkStopEvent { stop_time : Q; stop_duration : Q }.

Record Output : Type := mkOutput {
  notes : list Note;
  bgmEvents : list BGMEvent;
  bpms : list BpmPoint;
  stops : list StopEvent;
  initialBPM : Q;
  out_duration : Q
}.

(** *** Tables *)

Fixpoint lookup {A B : Type} (eqb : A -> A -> bool) (k : A) (l : list (A * B)) : option B :=
  match l with
  | [] => None
  | (k', v) :: l' => if eqb k k' then Some v else lookup eqb k l'
  end.

Definition includes (l : list string) (s : string) : bool :=
  existsb (String.eqb s) l.

(** [parseFloat(this.headers['BPM'] || 120)] *)
Definition chartInitialBPM (c : Chart) : Q :=
  match headerBPM c with Some b => b | None => 120 end.

(** [parseInt(this.headers['LNTYPE'] || '1', 10)] *)
Definition chartLnType (c : Chart) : Z :=
  match headerLNTYPE c with Some t => t | None => 1%Z end.

Definition sortedMeasureKeys (c : Chart) : list nat :=
  sort_by Nat.ltb (map fst (measures c)).

Definition maxMeasure (c : Chart) : nat := last (sortedMeasureKeys c) 0%nat.

(** The scale of measure [i]: the value of channel [02] when the measure
    has a non-empty one, [1.0] otherwise. *)
Definition measureScale (c : Chart) (i : nat) : option Q :=
  match lookup Nat.eqb i (measures c) with
  | Some channels =>
    match lookup String.eqb "02"%string channels with
    | Some EmptyString => Some 1
    | Some data => parseFloat data
    | None => Some 1
    end
  | None => Some 1
  end.

(** The loop that fills [measureStartBeats]: [n] measures from index [i]
    on, [currentTotalBeats] beats before them.  The last entry of the
    result is [measureStartBeats[maxMeasure + 1]]. *)
Fixpoint startBeatsFrom (c : Chart) (i n : nat) (currentTotalBeats : Q) : option (list Q) :=
  match n with
  | O => Some [currentTotalBeats]
  | S n' =>
    match measureScale c i with
    | None => None
    | Some scale =>
      match startBeatsFrom c (S i) n' (currentTotalBeats + 4.0 * scale) with
      | Some l => Some (currentTotalBeats :: l)
      | None => None
      end
    end
  end.

Definition measureStartBeats (c : Chart) : option (list Q) :=
  startBeatsFrom c 0 (S (maxMeasure c)) 0.

Definition getBeat (msb : list Q) (mIdx : nat) (step totalSteps : Q) : Q :=
  let mStart := nth mIdx msb 0 in
  let mLen := nth (S mIdx) msb 0 - mStart in
  mStart + (step / totalSteps) * mLen.

(** *** Grid scan *)

(** The lane of a visible-note channel ([-1]: not mapped). *)
Definition noteLane (ch : string) : Z :=
  match parseInt ch with
  | Some 11 => 0
  | Some 12 => 1
  | Some 13 => 2
  | Some 16 => 3
  | Some 17 => 4
  | Some 18 => 5
  | Some 19 => 6
  | _ => -1
  end%Z.

(** The lane of a long-note channel ([-1]: not mapped). *)
Definition lnLane (ch : string) : Z :=
  match parseInt ch with
  | Some 51 => 0
  | Some 52 => 1
  | Some 53 => 2
  | Some 56 => 3
  | Some 57 => 4
  | Some 58 => 5
  | Some 59 => 6
  | _ => -1
  end%Z.

Definition noteChannels : list string :=
  ["11"; "12"; "13"; "14"; "15"; "16"; "17"; "18"; "19"]%string.

Definition lnChannels : list string :=
  ["51"; "52"; "53"; "54"; "55"; "56"; "57"; "58"; "59"]%string.

(** [const isLNChannel = ['51', '52', '53', '54'].includes(ch)] *)
Definition isLNChannel (ch : string) : bool :=
  includes ["51"; "52"; "53"; "54"]%string ch.

(** The body of the step loop for one step: the time events and the
    channel events it pushes. *)
Definition scanStep (c : Chart) (ch val : string) (b : Q)
  : list TimeEvent * list ChannelEvent :=
  let lnType := chartLnType c in
  if String.eqb val "00" then
    if (isLNChannel ch && (lnType =? 2)%Z)%bool then
      let lane0 := match parseInt ch with Some n => (n - 51)%Z | None => (-1)%Z end in
      ([], [mkChannelEvent b ev_ln lane0 val])
    else ([], [])
  else if String.eqb ch "03" then
    ([mkTimeEvent b bpm (option_map inject_Z (parseInt16 val))], [])
  else if String.eqb ch "08" then
    match lookup String.eqb val (bpmDefs c) with
    | Some v => ([mkTimeEvent b bpm (Some v)], [])
    | None => ([], [])
    end
  else if String.eqb ch "09" then
    match lookup String.eqb val (stopDefs c) with
    | Some v => ([mkTimeEvent b stop (Some v)], [])
    | None => ([], [])
    end
  else if String.eqb ch "01" then
    ([], [mkChannelEvent b ev_bgm (-1)%Z val])
  else if includes noteChannels ch then
    let lane0 := noteLane ch in
    if (0 <=? lane0)%Z then ([], [mkChannelEvent b ev_note lane0 val]) else ([], [])
  else if includes lnChannels ch then
    let lane0 := lnLane ch in
    if (0 <=? lane0)%Z then ([], [mkChannelEvent b ev_ln lane0 val]) else ([], [])
  else ([], []).

(** Concatenation of the two event lists of several scans, in order. *)
Definition appendEvents (a b : list TimeEvent * list ChannelEvent)
  : list TimeEvent * list ChannelEvent :=
  (fst a ++ fst b, snd a ++ snd b).

Definition concatEvents (l : list (list TimeEvent * list ChannelEvent))
  : list TimeEvent * list ChannelEvent :=
  fold_right appendEvents ([], []) l.

(** One channel of one measure: [steps = data.length / 2], and the loop
    [for (i = 0; i < steps; i++)] runs for [i] below [(length + 1) / 2]. *)
Definition scanChannel (c : Chart) (msb : list Q) (mIdx : nat) (ch data : string)
  : list TimeEvent * list ChannelEvent :=
  let len := String.length data in
  let steps := inject_Z (Z.of_nat len) / 2 in
  concatEvents
    (map (fun i =>
            scanStep c ch (substring (i * 2) 2 data)
                     (getBeat msb mIdx (inject_Z (Z.of_nat i)) steps))
         (seq 0 (Nat.div2 (S len)))).

Definition scanMeasure (c : Chart) (msb : list Q) (mIdx : nat)
  : list TimeEvent * list ChannelEvent :=
  match lookup Nat.eqb mIdx (measures c) with
  | Some channels =>
    concatEvents (map (fun p => scanChannel c msb mIdx (fst p) (snd p)) channels)
  | None => ([], [])
  end.

Definition scanChart (c : Chart) (msb : list Q) : list TimeEvent * list ChannelEvent :=
  concatEvents (map (scanMeasure c msb) (sortedMeasureKeys c)).

(** *** Time integration *)

(** [criticalBeats.add(b)]: a [Set] keeps the first of equal numbers. *)
Definition setAdd (b : Q) (s : list Q) : list Q :=
  if existsb (Qeq_bool b) s then s else s ++ [b].

Definition criticalBeats (timeEvents : list TimeEvent) (channelEvents : list ChannelEvent)
  : list Q :=
  fold_left (fun s b => setAdd b s)
            (map te_beat timeEvents ++ map beat channelEvents) (setAdd 0 []).

Definition sortedBeats (timeEvents : list TimeEvent) (channelEvents : list ChannelEvent)
  : list Q :=
  sort_by Qltb (criticalBeats timeEvents channelEvents).

(** The variables of the integration loop; [pending] holds the time
    events from [teIdx] on. *)
Record Integration : Type := mkIntegration {
  lastBeat : Q;
  lastTime : Q;
  currentBPM : Q;
  pending : list TimeEvent;
  beatToTime : list (Q * Q);
  i_bpms : list BpmPoint;
  i_stops : list StopEvent
}.

(** The inner [while]: applies the pending time events that lie within
    [1e-6] beats of [b]; [tb] is [beatToTime.get(b)]. *)
Fixpoint processEvents (b tb : Q) (tes : list TimeEvent) (st : Integration)
  : option Integration :=
  match tes with
  | [] =>
    Some (mkIntegration (lastBeat st) (lastTime st) (currentBPM st) []
                        (beatToTime st) (i_bpms st) (i_stops st))
  | ev :: rest =>
    if Qltb (Qabs (te_beat ev - b)) 1e-6 then
      match te_type ev, te_value ev with
      | _, None => None
      | bpm, Some v =>
        processEvents b tb rest
          (mkIntegration (lastBeat st) (lastTime st) v rest (beatToTime st)
                         (i_bpms st ++ [mkBpmPoint (lastTime st) v]) (i_stops st))
      | stop, Some v =>
        if Qeq_bool (currentBPM st) 0 then None
        else
          let stopBeats := v / 48.0 in
          let stopTime := stopBeats * (60.0 / currentBPM st) in
          processEvents b tb rest
            (mkIntegration (lastBeat st) (lastTime st + stopTime) (currentBPM st) rest
                           (beatToTime st) (i_bpms st)
                           (i_stops st ++ [mkStopEvent tb stopTime]))
      end
    else
      Some (mkIntegration (lastBeat st) (lastTime st) (currentBPM st) tes
                          (beatToTime st) (i_bpms st) (i_stops st))
  end.

(** One iteration of [for (const beat of sortedBeats)]. *)
Definition integrateBeat (st : Integration) (b : Q) : option Integration :=
  if Qeq_bool (currentBPM st) 0 then None
  else
    let deltaBeats := b - lastBeat st in
    let secondsPerBeat := 60.0 / currentBPM st in
    let t := lastTime st + deltaBeats * secondsPerBeat in
    match processEvents b t (pending st)
            (mkIntegration (lastBeat st) t (currentBPM st) (pending st)
                           (beatToTime st ++ [(b, t)]) (i_bpms st) (i_stops st)) with
    | Some st' =>
      Some (mkIntegration b (lastTime st') (currentBPM st') (pending st')
                          (beatToTime st') (i_bpms st') (i_stops st'))
    | None => None
    end.

Fixpoint integrateBeats (st : Integration) (bs : list Q) : option Integration :=
  match bs with
  | [] => Some st
  | b :: bs' =>
    match integrateBeat st b with
    | Some st' => integrateBeats st' bs'
    | None => None
    end
  end.

(** Step 3 of [parse], on the sorted event lists. *)
Definition integrate (initialBPM0 : Q) (timeEvents : list TimeEvent)
           (channelEvents : list ChannelEvent) : option Integration :=
  integrateBeats
    (mkIntegration 0 0 initialBPM0 timeEvents [] [mkBpmPoint 0 initialBPM0] [])
    (sortedBeats timeEvents channelEvents).

(** [beatToTime.get(b)].  Every beat that is looked up has been set, so
    the default is never used. *)
Definition timeOf (m : list (Q * Q)) (b : Q) : Q :=
  match lookup Qeq_bool b m with
  | Some t => t
  | None => 0
  end.

(** *** Event materialisation *)

(** [lnPending]: the slot of every lane; [None] is [null].  The lanes
    written by the grid scan lie in [0..6], inside the ten slots that the
    array starts with. *)
Definition Pending : Type := Z -> option Note.

Definition emptyPending : Pending := fun _ => None.

Definition setPending (p : Pending) (l : Z) (v : option Note) : Pending :=
  fun l' => if (l' =? l)%Z then v else p l'.

(** [startNote.duration = time - startNote.time] *)
Definition close (startNote : Note) (t : Q) : Note :=
  mkNote (time startNote) (lane startNote) (type startNote) (t - time startNote).

(** The loop state of step 4: the notes and background cues pushed so
    far, and the pending long-note starts. *)
Record Materialisation : Type := mkMaterialisation {
  m_notes : list Note;
  m_bgm : list BGMEvent;
  m_pending : Pending
}.

(** One iteration of [for (const ev of channelEvents)]. *)
Definition materialiseEvent (lnType : Z) (tm : Q -> Q) (st : Materialisation)
           (ev : ChannelEvent) : Materialisation :=
  let t := tm (beat ev) in
  match ce_type ev with
  | ev_note =>
    mkMaterialisation (m_notes st ++ [mkNote t (ce_lane ev) tap 0]) (m_bgm st) (m_pending st)
  | ev_ln =>
    if (lnType =? 2)%Z then
      if String.eqb (valStr ev) "00" then
        match m_pending st (ce_lane ev) with
        | Some startNote =>
          mkMaterialisation (m_notes st ++ [close startNote t]) (m_bgm st)
                            (setPending (m_pending st) (ce_lane ev) None)
        | None => st
        end
      else
        let opened := Some (mkNote t (ce_lane ev) ln 0) in
        match m_pending st (ce_lane ev) with
        | Some startNote =>
          mkMaterialisation (m_notes st ++ [close startNote t]) (m_bgm st)
                            (setPending (m_pending st) (ce_lane ev) opened)
        | None =>
          mkMaterialisation (m_notes st) (m_bgm st)
                            (setPending (m_pending st) (ce_lane ev) opened)
        end
    else
      match m_pending st (ce_lane ev) with
      | Some startNote =>
        mkMaterialisation (m_notes st ++ [close startNote t]) (m_bgm st)
                          (setPending (m_pending st) (ce_lane ev) None)
      | None =>
        mkMaterialisation (m_notes st) (m_bgm st)
                          (setPending (m_pending st) (ce_lane ev)
                                      (Some (mkNote t (ce_lane ev) ln 0)))
      end
  | ev_bgm =>
    mkMaterialisation (m_notes st) (m_bgm st ++ [mkBGMEvent t (valStr ev)]) (m_pending st)
  end.

Definition materialise (lnType : Z) (tm : Q -> Q) (channelEvents : list ChannelEvent)
  : Materialisation :=
  fold_left (materialiseEvent lnType tm) channelEvents
            (mkMaterialisation [] [] emptyPending).

(** *** The compiler *)

Definition byBeatTE (a b : TimeEvent) : bool := Qltb (te_beat a) (te_beat b).
Definition byBeat (a b : ChannelEvent) : bool := Qltb (beat a) (beat b).
Definition byTime (a b : Note) : bool := Qltb (time a) (time b).
Definition byTimeBGM (a b : BGMEvent) : bool := Qltb (bgm_time a) (bgm_time b).

(** Steps 3 to 5 of [parse], from the event lists of the grid scan. *)
Definition compileEvents (initialBPM0 : Q) (lnType : Z)
           (timeEvents : list TimeEvent) (channelEvents : list ChannelEvent)
  : option Output :=
  let tes := sort_by byBeatTE timeEvents in
  let ces := sort_by byBeat channelEvents in
  match integrate initialBPM0 tes ces with
  | None => None
  | Some st =>
    let m := materialise lnType (timeOf (beatToTime st)) ces in
    Some (mkOutput (sort_by byTime (m_notes m)) (sort_by byTimeBGM (m_bgm m))
                   (i_bpms st) (i_stops st) initialBPM0 (lastTime st))
  end.

(** [parse()], from the measure table on; [out_duration] is
    [this.duration]. *)
Definition parse (c : Chart) : option Output :=
  match measureStartBeats c with
  | None => None
  | Some msb =>
    let '(timeEvents, channelEvents) := scanChart c msb in
    compileEvents (chartInitialBPM c) (chartLnType c) timeEvents channelEvents
  end.

End BMSParser.

(** ** The judgment engine ([game.js]) *)

Module RhythmGame.

Inductive Judge : Type := COOL | GOOD | BAD | MISS.

(** A runtime note: the compiled fields plus the mutable flags that
    [start] attaches. *)
Record Note : Type := mkNote {
  time : Q;
  lane : Z;
  type : NoteType;
  duration : Q;
  hit : bool;
  missed : bool;
  isHolding : bool;
  hitTime : option Q
}.

Record Stats : Type := mkStats {
  combo : Z;
  score : Z;
  cool : Z;
  good : Z;
  bad : Z;
  miss : Z;
  maxCombo : Z;
  comboBonus : Z;
  hp : Q
}.

Record Game : Type := mkGame {
  runtimeNotes : list Note;
  stats : Stats;
  isPlaying : bool;
  autoDemo : bool
}.

Definition set_hit (b : bool) (n : Note) : Note :=
  mkNote (time n) (lane n) (type n) (duration n) b (missed n) (isHolding n) (hitTime n).

Definition set_missed (b : bool) (n : Note) : Note :=
  mkNote (time n) (lane n) (type n) (duration n) (hit n) b (isHolding n) (hitTime n).

Definition set_isHolding (b : bool) (n : Note) : Note :=
  mkNote (time n) (lane n) (type n) (duration n) (hit n) (missed n) b (hitTime n).

Definition set_hitTime (t : Q) (n : Note) : Note :=
  mkNote (time n) (lane n) (type n) (duration n) (hit n) (missed n) (isHolding n) (Some t).

Definition set_score (v : Z) (s : Stats) : Stats :=
  mkStats (combo s) v (cool s) (good s) (bad s) (miss s) (maxCombo s) (comboBonus s) (hp s).

(** [this.stats = { combo: 0, score: 0, ..., hp: 100 }] *)
Definition initialStats : Stats := mkStats 0 0 0 0 0 0 0 0 100.

(** [Math.max(0, Math.min(100, hp))] *)
Definition clampHp (h : Q) : Q := Qmax 0 (Qmin 100 h).

(** The fixed score that [triggerHit] adds for a tier. *)
Definition tierBase (j : Judge) : Z :=
  match j with COOL => 100 | GOOD => 80 | BAD => 10 | MISS => 0 end.

(** [triggerHit(judge, lane)].  The lane only selects where the effect is
    drawn.  When the clamped health is not positive the function returns
    before the score floor. *)
Definition triggerHit (judge : Judge) (lane : Z) (s : Stats) : Stats :=
  let combo1 := match judge with BAD => 0%Z | _ => (combo s + 1)%Z end in
  let maxCombo1 :=
    match judge with
    | BAD => maxCombo s
    | _ => if (maxCombo s <? combo1)%Z then combo1 else maxCombo s
    end in
  let comboBonus1 :=
    match judge with
    | BAD => 0%Z
    | _ => if ((0 <? combo1)%Z && (Z.rem combo1 25 =? 0)%Z)%bool
           then (comboBonus s + 10)%Z else comboBonus s
    end in
  let bonus := match judge with COOL | GOOD => comboBonus1 | _ => 0%Z end in
  let score1 :=
    match judge with
    | COOL => (score s + (100 + bonus))%Z
    | GOOD => (score s + (80 + bonus))%Z
    | BAD => (score s + 10)%Z
    | MISS => score s
    end in
  let cool1 := match judge with COOL => (cool s + 1)%Z | _ => cool s end in
  let good1 := match judge with GOOD => (good s + 1)%Z | _ => good s end in
  let bad1 := match judge with BAD => (bad s + 1)%Z | _ => bad s end in
  let hp1 :=
    match judge with
    | COOL => hp s + 2
    | GOOD => hp s + 1.5
    | _ => hp s
    end in
  let hp2 := clampHp hp1 in
  let s1 := mkStats combo1 score1 cool1 good1 bad1 (miss s) maxCombo1 comboBonus1 hp2 in
  if Qle_bool hp2 0 then s1
  else if (score1 <? 0)%Z then set_score 0 s1 else s1.

(** The statistics half of [triggerMiss(note)]. *)
Definition triggerMissStats (s : Stats) : Stats :=
  let score1 := (score s - 20)%Z in
  let hp2 := clampHp (hp s - 4) in
  let s1 := mkStats 0 score1 (cool s) (good s) (bad s) (miss s + 1)%Z (maxCombo s) 0 hp2 in
  if Qle_bool hp2 0 then s1
  else if (score1 <? 0)%Z then set_score 0 s1 else s1.

(** [triggerMiss(note)]: marks the note and charges the penalty. *)
Definition triggerMiss (note : Note) (s : Stats) : Stats * Note :=
  (triggerMissStats s, set_missed true note).

(** The tier chosen by [checkHit] for an offset of [m] milliseconds. *)
Definition classify (m : Q) : Judge :=
  if (Qle_bool (-50) m && Qle_bool m 50)%bool then COOL
  else if ((Qle_bool 51 m && Qle_bool m 85) || (Qle_bool (-85) m && Qle_bool m (-51)))%bool then GOOD
  else if ((Qle_bool 86 m && Qle_bool m 108) || (Qle_bool (-108) m && Qle_bool m (-86)))%bool then BAD
  else if Qltb 108 m then MISS
  else MISS.

(** The filter of [checkHit]: same lane, not hit, not missed, closer than
    150 ms. *)
Definition isCandidate (lane0 : Z) (currentTime : Q) (n : Note) : bool :=
  ((lane n =? lane0)%Z && negb (hit n) && negb (missed n)
   && Qltb (Qabs (time n - currentTime)) 0.15)%bool.

Definition candidates (lane0 : Z) (currentTime : Q) (notes : list Note) : list (nat * Note) :=
  filter (fun p => isCandidate lane0 currentTime (snd p)) (indexed notes).

(** The comparator of [candidates.sort]: distance to the current time. *)
Definition closer (currentTime : Q) (a b : nat * Note) : bool :=
  Qltb (Qabs (time (snd a) - currentTime)) (Qabs (time (snd b) - currentTime)).

(** [checkHit(lane)] at clock reading [currentTime]. *)
Definition checkHit (lane0 : Z) (currentTime : Q) (g : Game) : Game :=
  match candidates lane0 currentTime (runtimeNotes g) with
  | [] => g
  | c :: cs =>
    match sort_by (closer currentTime) (c :: cs) with
    | [] => g
    | (i, target) :: _ =>
      let offsetSec := currentTime - time target in
      let m := offsetSec * 1000 in
      let judge := classify m in
      match judge with
      | MISS =>
        let '(s', target') := triggerMiss target (stats g) in
        mkGame (replace_at i target' (runtimeNotes g)) s' (isPlaying g) (autoDemo g)
      | _ =>
        match type target with
        | tap =>
          mkGame (replace_at i (set_hit true target) (runtimeNotes g))
                 (triggerHit judge lane0 (stats g)) (isPlaying g) (autoDemo g)
        | ln =>
          mkGame (replace_at i (set_hitTime currentTime (set_isHolding true target))
                             (runtimeNotes g))
                 (triggerHit judge lane0 (stats g)) (isPlaying g) (autoDemo g)
        end
      end
    end
  end.

(** The predicate of [runtimeNotes.find] in [checkLNRelease]. *)
Definition isHeld (lane0 : Z) (n : Note) : bool :=
  ((lane n =? lane0)%Z && NoteType_eqb (type n) ln && isHolding n
   && negb (hit n) && negb (missed n))%bool.

(** [checkLNRelease(lane)] at clock reading [currentTime]. *)
Definition checkLNRelease (lane0 : Z) (currentTime : Q) (g : Game) : Game :=
  match find (fun p => isHeld lane0 (snd p)) (indexed (runtimeNotes g)) with
  | None => g
  | Some (i, holdingNote) =>
    let endTime := time holdingNote + duration holdingNote in
    let diff := currentTime - endTime in
    if Qltb diff (-0.2) then
      let '(s', n') := triggerMiss (set_isHolding false (set_missed true holdingNote)) (stats g) in
      mkGame (replace_at i n' (runtimeNotes g)) s' (isPlaying g) (autoDemo g)
    else
      mkGame (replace_at i (set_isHolding false (set_hit true holdingNote)) (runtimeNotes g))
             (stats g) (isPlaying g) (autoDemo g)
  end.

(** The state-changing part of one iteration of the loop in [update]. *)
Definition updateNote (demo : bool) (currentTime : Q) (s : Stats) (note : Note)
  : Stats * Note :=
  (* auto demo *)
  let '(s1, n1, continue1) :=
    if (demo && negb (hit note) && negb (missed note))%bool then
      match type note with
      | ln =>
        if (negb (isHolding note) && Qle_bool (time note) currentTime)%bool
        then (triggerHit COOL (lane note) s,
              set_hitTime currentTime (set_isHolding true note), false)
        else (s, note, false)
      | tap =>
        if Qle_bool (Qabs (time note - currentTime)) 0.03
        then (triggerHit COOL (lane note) s, set_hit true note, true)
        else (s, note, false)
      end
    else (s, note, false) in
  if continue1 then (s1, n1)
  else if (NoteType_eqb (type n1) ln && isHolding n1 && negb (hit n1) && negb (missed n1))%bool
  then
    (* a held long note: auto-complete when its end is reached *)
    let endTime := time n1 + duration n1 in
    if Qle_bool endTime currentTime
    then (triggerHit COOL (lane n1) s1, set_isHolding false (set_hit true n1))
    else (s1, n1)
  else if hit n1 then (s1, n1)
  else
    let timeDiff := time n1 - currentTime in
    if (Qltb timeDiff (-0.15) && negb (hit n1) && negb (missed n1))%bool then
      if (NoteType_eqb (type n1) tap
          || (NoteType_eqb (type n1) ln && negb (isHolding n1)))%bool
      then triggerMiss n1 s1
      else (s1, n1)
    else (s1, n1).

(** The loop of [update]: the notes are visited in order, the statistics
    are threaded through. *)
Fixpoint updateNotes (demo : bool) (currentTime : Q) (s : Stats) (notes : list Note)
  : Stats * list Note :=
  match notes with
  | [] => (s, [])
  | n :: rest =>
    let '(s1, n1) := updateNote demo currentTime s n in
    let '(s2, rest') := updateNotes demo currentTime s1 rest in
    (s2, n1 :: rest')
  end.

(** [update(delta)] at clock reading [currentTime]. *)
Definition update (currentTime : Q) (g : Game) : Game :=
  if negb (isPlaying g) then g
  else
    let '(s', notes') := updateNotes (autoDemo g) currentTime (stats g) (runtimeNotes g) in
    mkGame notes' s' (isPlaying g) (autoDemo g).

(** [usedLanes.has(l)] for [usedLanes = new Set(chart.notes.map(n => n.lane))]. *)
Definition usedLanes_has (notes : list BMSParser.Note) (l : Z) : bool :=
  existsb (fun n => (BMSParser.lane n =? l)%Z) notes.

(** The lane chosen by the callback of [chart.notes.map] in [start]. *)
Definition remapLane (notes : list BMSParser.Note) (n : BMSParser.Note) : Z :=
  let lane0 := BMSParser.lane n in
  let lane1 :=
    if ((lane0 =? 4)%Z && negb (usedLanes_has notes 3))%bool then 3%Z else lane0 in
  let lane2 :=
    if ((lane1 =? 5)%Z && negb (usedLanes_has notes 3) && negb (usedLanes_has notes 4))%bool
    then 3%Z else lane1 in
  lane2.

Definition toRuntime (notes : list BMSParser.Note) (n : BMSParser.Note) : Note :=
  mkNote (BMSParser.time n) (remapLane notes n) (BMSParser.type n) (BMSParser.duration n) false false false None.

(** The note preparation of [start(chart, audioUrl)]. *)
Definition prepareNotes (notes : list BMSParser.Note) : list Note :=
  filter (fun n => (lane n <? 4)%Z) (map (toRuntime notes) notes).

(** The engine state right after a successful [start]. *)
Definition start (notes : list BMSParser.Note) (demo : bool) : Game :=
  mkGame (prepareNotes notes) initialStats true demo.

(** The three stimuli of the engine, each with the clock reading taken
    by its handler. *)
Inductive Event : Type :=
| Press (lane0 : Z) (currentTime : Q)
| Release (lane0 : Z) (currentTime : Q)
| Tick (currentTime : Q).

(** [onKeyDown] ignores keys while the game is not playing; [onKeyUp]
    has no such guard. *)
Definition step (g : Game) (e : Event) : Game :=
  match e with
  | Press l t => if negb (isPlaying g) then g else checkHit l t g
  | Release l t => checkLNRelease l t g
  | Tick t => update t g
  end.

Definition run (g : Game) (es : list Event) : Game := fold_left step es g.

End RhythmGame.

(** ** The line patterns of the tokenizer ([BMSParser.parse], step 1)

    The two regular expressions that the tokenizer tries on a trimmed
    line, as functions on strings of 8-bit characters; the result is the
    list of capture groups, [None] when the pattern does not match. *)
Module Lines.

Definition code (c : ascii) : nat := nat_of_ascii c.

(** [\d] and [[0-9]] *)
Definition isDigit (c : ascii) : bool :=
  ((48 <=? code c) && (code c <=? 57))%nat.

(** [[0-9A-Za-z]], which is also [[A-Z0-9]] under the [i] flag *)
Definition isAlnum (c : ascii) : bool :=
  (isDigit c
   || ((65 <=? code c) && (code c <=? 90))
   || ((97 <=? code c) && (code c <=? 122)))%nat.

(** [\s] on 8-bit characters: tab, line feed, vertical tab, form feed,
    carriage return, space and no-break space *)
Definition isSpace (c : ascii) : bool :=
  (((9 <=? code c) && (code c <=? 13)) || (code c =? 32) || (code c =? 160))%nat.

(** The characters that [.] does not match *)
Definition isLineTerminator (c : ascii) : bool :=
  ((code c =? 10) || (code c =? 13))%nat.

Fixpoint allChars (p : ascii -> bool) (s : string) : bool :=
  match s with
  | EmptyString => true
  | String c s' => p c && allChars p s'
  end.

Fixpoint takeWhile (p : ascii -> bool) (s : string) : string :=
  match s with
  | EmptyString => EmptyString
  | String c s' => if p c then String c (takeWhile p s') else EmptyString
  end.

Fixpoint dropWhile (p : ascii -> bool) (s : string) : string :=
  match s with
  | EmptyString => EmptyString
  | String c s' => if p c then dropWhile p s' else s
  end.

(** [line.match(/^#(\d{3})(\d{2}):([0-9A-Za-z]+)$/)]: the measure
    index, the channel and the data. *)
Definition matchMeasure (line : string) : option (string * string * string) :=
  match line with
  | String "#" (String a (String b (String c (String d (String e (String ":" data)))))) =>
    if (isDigit a && isDigit b && isDigit c && isDigit d && isDigit e
        && negb (String.eqb data EmptyString) && allChars isAlnum data)%bool
    then Some (String a (String b (String c EmptyString)),
               String d (String e EmptyString), data)
    else None
  | _ => None
  end.

(** [line.match(reHeader)]: a [#], a key of letters and digits, then
    nothing more, or white space and the rest of the line, which [.]
    must match.  The result is the key as written and the value, [None]
    for a value that is [undefined]. *)
Definition matchHeader (line : string) : option (string * option string) :=
  match line with
  | String "#" rest =>
    let key := takeWhile isAlnum rest in
    match key, dropWhile isAlnum rest with
    | EmptyString, _ => None
    | _, EmptyString => Some (key, None)
    | _, String c tail =>
      if isSpace c then
        let value := dropWhile isSpace tail in
        if allChars (fun x => negb (isLineTerminator x)) value
        then Some (key, Some value) else None
      else None
    end
  | _ => None
  end.

End Lines.

(** ** Vocabulary of the statements *)

(** No press in the lane of [n]. *)
Definition quiet (n : RhythmGame.Note) (es : list RhythmGame.Event) : Prop :=
  forall l t, In (RhythmGame.Press l t) es -> l <> RhythmGame.lane n.

(** No tick later than 150 ms after [n]. *)
Definition early (n : RhythmGame.Note) (es : list RhythmGame.Event) : Prop :=
  forall t, In (RhythmGame.Tick t) es -> ~ RhythmGame.time n + 0.15 < t.

(** The auto demo does not play [n]: it is off, or no tick comes within
    30 ms of the note. *)
Definition unplayed (n : RhythmGame.Note) (demo : bool) (es : list RhythmGame.Event)
  : Prop :=
  demo = true ->
  forall t, In (RhythmGame.Tick t) es -> 0.03 < Qabs (RhythmGame.time n - t).

(** [s'] is [s] after one miss penalty: the combo and the combo bonus
    are reset, one miss is counted, the health loses 4 points and the
    score 20 points; the health stays within 0..100, and the score does
    not go below 0 unless the health has run out. *)
Definition penalised (s s' : RhythmGame.Stats) : Prop :=
  RhythmGame.combo s' = 0%Z /\ RhythmGame.comboBonus s' = 0%Z /\
  RhythmGame.miss s' = (RhythmGame.miss s + 1)%Z /\
  RhythmGame.cool s' = RhythmGame.cool s /\ RhythmGame.good s' = RhythmGame.good s /\
  RhythmGame.bad s' = RhythmGame.bad s /\
  RhythmGame.maxCombo s' = RhythmGame.maxCombo s /\
  RhythmGame.hp s' == Qmax 0 (Qmin 100 (RhythmGame.hp s - 4)) /\
  (0 < RhythmGame.hp s' ->
   RhythmGame.score s' = Z.max 0 (RhythmGame.score s - 20)) /\
  (RhythmGame.hp s' <= 0 -> RhythmGame.score s' = (RhythmGame.score s - 20)%Z).

(** Every note but the one at position [i] is judged. *)
Definition othersJudged (i : nat) (notes : list RhythmGame.Note) : Prop :=
  forall k m, k <> i -> nth_error notes k = Some m ->
              RhythmGame.hit m = true \/ RhythmGame.missed m = true.

(** An eligible candidate of a press in lane [l] at clock reading [t],
    in the words of the specification: a note of the lane that is not
    judged yet (not hit, not missed, and not a hold whose head an earlier
    press has taken) and lies within 150 ms. *)
Definition eligible (l : Z) (t : Q) (n : RhythmGame.Note) : Prop :=
  RhythmGame.lane n = l /\ RhythmGame.hit n = false /\ RhythmGame.missed n = false /\
  RhythmGame.isHolding n = false /\ Qabs (RhythmGame.time n - t) < 0.15.

(** A note that is being held, within 150 ms of [t] in lane [l]. *)
Definition heldInWindow (l : Z) (t : Q) (n : RhythmGame.Note) : Prop :=
  RhythmGame.lane n = l /\ RhythmGame.hit n = false /\ RhythmGame.missed n = false /\
  RhythmGame.isHolding n = true /\ Qabs (RhythmGame.time n - t) < 0.15.

(** The number of judgments counted so far. *)
Definition judgments (s : RhythmGame.Stats) : Z :=
  (RhythmGame.cool s + RhythmGame.good s + RhythmGame.bad s + RhythmGame.miss s)%Z.

(** Some compiled note uses lane [l]. *)
Definition usesLane (notes : list BMSParser.Note) (l : Z) : Prop :=
  exists n, In n notes /\ BMSParser.lane n = l.

(** The lane remapping in the words of the specification: the lane under
    which a compiled note is played, [None] when the note is dropped.
    [used3] and [used4] tell whether some compiled note uses lane 3,
    lane 4. *)
Definition remapSpec (used3 used4 : bool) (n : BMSParser.Note) : option Z :=
  let l := BMSParser.lane n in
  if (l <? 4)%Z then Some l
  else if (l =? 4)%Z then (if used3 then None else Some 3%Z)
  else if (l =? 5)%Z then (if (used3 || used4)%bool then None else Some 3%Z)
  else None.

(** The runtime note that [start] makes of a kept compiled note. *)
Definition playedAs (n : BMSParser.Note) (l : Z) : RhythmGame.Note :=
  RhythmGame.mkNote (BMSParser.time n) l (BMSParser.type n) (BMSParser.duration n)
                    false false false None.

(** A lane that the grid scan can write. *)
Definition laneOk (l : Z) : Prop := (0 <= l <= 6)%Z.

(** Equality of compiled notes up to the representation of rationals. *)
Definition noteEquiv (n m : BMSParser.Note) : Prop :=
  BMSParser.time n == BMSParser.time m /\ BMSParser.lane n = BMSParser.lane m /\
  BMSParser.type n = BMSParser.type m /\
  BMSParser.duration n == BMSParser.duration m.

(** The chart of the end-to-end scenario: base tempo 150, one measure,
    channel 11 (lane 0) with four steps, the value [val] at step 0. *)
Definition endToEndChart (val : string) : BMSParser.Chart :=
  BMSParser.mkChart (Some 150) None
    [(0%nat, [("11"%string, (val ++ "000000")%string)])] [] [].

(** A hold event of lane [l]. *)
Definition holdEventOf (l : Z) (e : BMSParser.ChannelEvent) : Prop :=
  BMSParser.ce_type e = BMSParser.ev_ln /\ BMSParser.ce_lane e = l.

(** The same, as a test. *)
Definition isHoldOf (l : Z) (e : BMSParser.ChannelEvent) : bool :=
  match BMSParser.ce_type e with
  | BMSParser.ev_ln => (BMSParser.ce_lane e =? l)%Z
  | _ => false
  end.

(** The number of hold events of lane [l] among [evs]. *)
Definition holdCount (l : Z) (evs : list BMSParser.ChannelEvent) : nat :=
  List.length (filter (isHoldOf l) evs).

(** The hold event [eo] at position [i] opens a hold.  Under LNTYPE 2 a
    symbol other than [00] opens and [00] only closes.  Otherwise the
    hold events of a lane take turns, the first one opens, the second
    closes, and so on: an event opens when an even number of hold events
    of its lane lie before it. *)
Definition opens (lnType : Z) (evs : list BMSParser.ChannelEvent) (i : nat)
           (eo : BMSParser.ChannelEvent) : Prop :=
  if (lnType =? 2)%Z then BMSParser.valStr eo <> "00"%string
  else Nat.even (holdCount (BMSParser.ce_lane eo) (firstn i evs)) = true.

(** [n] comes from a matched pair of hold events of its lane: the event
    at position [i] opens a hold, the next hold event of the lane, at
    position [j], closes it. *)
Definition matched (lnType : Z) (tm : Q -> Q) (evs : list BMSParser.ChannelEvent)
           (n : BMSParser.Note) : Prop :=
  exists i j eo ec,
    (i < j)%nat /\ nth_error evs i = Some eo /\ nth_error evs j = Some ec /\
    holdEventOf (BMSParser.lane n) eo /\ holdEventOf (BMSParser.lane n) ec /\
    opens lnType evs i eo /\
    (forall k e, (i < k < j)%nat -> nth_error evs k = Some e ->
                 ~ holdEventOf (BMSParser.lane n) e) /\
    BMSParser.time n = tm (BMSParser.beat eo) /\
    BMSParser.duration n = tm (BMSParser.beat ec) - tm (BMSParser.beat eo).

(** [p] is the placeholder of an opening of lane [l] that no later hold
    event of the lane closes. *)
Definition unmatchedOpening (lnType : Z) (tm : Q -> Q)
           (evs : list BMSParser.ChannelEvent) (l : Z) (p : BMSParser.Note) : Prop :=
  exists i eo,
    nth_error evs i = Some eo /\ holdEventOf l eo /\ opens lnType evs i eo /\
    p = BMSParser.mkNote (tm (BMSParser.beat eo)) l ln 0 /\
    (forall k e, (i < k)%nat -> nth_error evs k = Some e -> ~ holdEventOf l e).

(** The last hold event of lane [l] among [evs]. *)
Definition lastHold (l : Z) (evs : list BMSParser.ChannelEvent)
  : option BMSParser.ChannelEvent :=
  hd_error (rev (filter (isHoldOf l) evs)).

(** The opening of lane [l] that is still open after the events [evs]:
    the last hold event of the lane, when it opens. *)
Definition stillOpen (lnType : Z) (l : Z) (evs : list BMSParser.ChannelEvent)
  : option BMSParser.ChannelEvent :=
  match lastHold l evs with
  | Some eo =>
    if (if (lnType =? 2)%Z then negb (String.eqb (BMSParser.valStr eo) "00")
        else Nat.odd (holdCount l evs))
    then Some eo else None
  | None => None
  end.

(** The hold note of the pair that the event at position [j] closes, if
    it closes one. *)
Definition pairClosedAt (lnType : Z) (tm : Q -> Q) (evs : list BMSParser.ChannelEvent)
           (j : nat) : list BMSParser.Note :=
  match nth_error evs j with
  | Some ec =>
    match BMSParser.ce_type ec with
    | BMSParser.ev_ln =>
      match stillOpen lnType (BMSParser.ce_lane ec) (firstn j evs) with
      | Some eo =>
        [BMSParser.mkNote (tm (BMSParser.beat eo)) (BMSParser.ce_lane ec) ln
                          (tm (BMSParser.beat ec) - tm (BMSParser.beat eo))]
      | None => []
      end
    | _ => []
    end
  | None => []
  end.

(** The hold notes of a chart in the words of the specification: one
    per open/close pair, in the order of the closing events. *)
Definition pairedHolds (lnType : Z) (tm : Q -> Q) (evs : list BMSParser.ChannelEvent)
  : list BMSParser.Note :=
  flat_map (pairClosedAt lnType tm evs) (seq 0 (List.length evs)).

(** The test for a hold note. *)
Definition isHoldNote (n : BMSParser.Note) : bool := NoteType_eqb (BMSParser.type n) ln.

(** The loop invariant of the materialisation: after the events [evs]
    the emitted hold notes are those of the closed pairs, and the pending
    slot of a lane holds the placeholder of its opening that is still
    open. *)
Definition pairingInv (lnType : Z) (tm : Q -> Q) (evs : list BMSParser.ChannelEvent)
           (st : BMSParser.Materialisation) : Prop :=
  filter isHoldNote (BMSParser.m_notes st) = pairedHolds lnType tm evs /\
  forall l, BMSParser.m_pending st l
            = option_map (fun eo => BMSParser.mkNote (tm (BMSParser.beat eo)) l ln 0)
                         (stillOpen lnType l evs).

(** Pairwise different numbers. *)
Fixpoint distinct (l : list Q) : Prop :=
  match l with
  | [] => True
  | x :: l' => (forall y, In y l' -> ~ x == y) /\ distinct l'
  end.

(** The time, with the stop, of what happens at [t] seconds without it:
    half a second later when [t] lies after [theta], the time at which
    the stop is applied. *)
Definition delayed (theta t : Q) : Q := if Qltb theta t then t + (1 # 2) else t.

(** [n1] is [n0] with its start and its end moved by [delayed theta]. *)
Definition stopShifted (theta : Q) (n1 n0 : BMSParser.Note) : Prop :=
  BMSParser.lane n1 = BMSParser.lane n0 /\ BMSParser.type n1 = BMSParser.type n0 /\
  BMSParser.time n1 == delayed theta (BMSParser.time n0) /\
  BMSParser.time n1 + BMSParser.duration n1
  == delayed theta (BMSParser.time n0 + BMSParser.duration n0).

(** The pending starts of two materialisations correspond. *)
Definition pendingShifted (theta : Q) (p1 p0 : BMSParser.Pending) : Prop :=
  forall l, match p1 l, p0 l with
            | Some a, Some b => stopShifted theta a b
            | None, None => True
            | _, _ => False
            end.

(** A chart at the default tempo 120 with [#STOP01 48], the stop at the
    start of measure 1 (beat 4), a tap in lane 0 there and another at the
    start of measure 2 (beat 8); and the same chart without the stop. *)
Definition stopChart : BMSParser.Chart :=
  BMSParser.mkChart None None
    [(1%nat, [("11", "01"); ("09", "01")]); (2%nat, [("11", "01")])]%string
    [] [("01"%string, 48)].

Definition noStopChart : BMSParser.Chart :=
  BMSParser.mkChart None None
    [(1%nat, [("11", "01")]); (2%nat, [("11", "01")])]%string
    [] [("01"%string, 48)].

(** *** Vocabulary of the further properties *)

(** The compiled fields of a runtime note. *)
Definition sameCompiled (n n' : RhythmGame.Note) : Prop :=
  RhythmGame.time n' = RhythmGame.time n /\ RhythmGame.lane n' = RhythmGame.lane n /\
  RhythmGame.type n' = RhythmGame.type n /\ RhythmGame.duration n' = RhythmGame.duration n.

(** The distance of a note from the clock reading. *)
Definition distance (t : Q) (n : RhythmGame.Note) : Q := Qabs (RhythmGame.time n - t).

(** What a press makes of its target: the note and the statistics. *)
Definition pressedNote (t : Q) (target : RhythmGame.Note) : RhythmGame.Note :=
  match RhythmGame.classify ((t - RhythmGame.time target) * 1000) with
  | RhythmGame.MISS => RhythmGame.set_missed true target
  | _ =>
    match RhythmGame.type target with
    | tap => RhythmGame.set_hit true target
    | ln => RhythmGame.set_hitTime t (RhythmGame.set_isHolding true target)
    end
  end.

Definition pressedStats (lane0 : Z) (t : Q) (target : RhythmGame.Note)
           (s : RhythmGame.Stats) : RhythmGame.Stats :=
  match RhythmGame.classify ((t - RhythmGame.time target) * 1000) with
  | RhythmGame.MISS => RhythmGame.triggerMissStats s
  | j => RhythmGame.triggerHit j lane0 s
  end.

(** The bounds that the statistics keep. *)
Definition statsOk (s : RhythmGame.Stats) : Prop :=
  0 <= RhythmGame.hp s /\ RhythmGame.hp s <= 100 /\
  (0 < RhythmGame.hp s -> (0 <= RhythmGame.score s)%Z) /\
  (0 <= RhythmGame.combo s <= RhythmGame.maxCombo s)%Z /\
  (0 <= RhythmGame.comboBonus s)%Z /\
  (0 <= RhythmGame.cool s)%Z /\ (0 <= RhythmGame.good s)%Z /\
  (0 <= RhythmGame.bad s)%Z /\ (0 <= RhythmGame.miss s)%Z.

(** No counter of [s'] is below the one of [s]. *)
Definition countersGrow (s s' : RhythmGame.Stats) : Prop :=
  (RhythmGame.cool s <= RhythmGame.cool s')%Z /\
  (RhythmGame.good s <= RhythmGame.good s')%Z /\
  (RhythmGame.bad s <= RhythmGame.bad s')%Z /\
  (RhythmGame.miss s <= RhythmGame.miss s')%Z /\
  (RhythmGame.maxCombo s <= RhythmGame.maxCombo s')%Z.

(** The tap note and the background cue that the materialisation makes
    of an event. *)
Definition tapOf (tm : Q -> Q) (e : BMSParser.ChannelEvent) : BMSParser.Note :=
  BMSParser.mkNote (tm (BMSParser.beat e)) (BMSParser.ce_lane e) tap 0.

Definition cueOf (tm : Q -> Q) (e : BMSParser.ChannelEvent) : BMSParser.BGMEvent :=
  BMSParser.mkBGMEvent (tm (BMSParser.beat e)) (BMSParser.valStr e).

Definition isTapEvent (e : BMSParser.ChannelEvent) : bool :=
  match BMSParser.ce_type e with BMSParser.ev_note => true | _ => false end.

Definition isCueEvent (e : BMSParser.ChannelEvent) : bool :=
  match BMSParser.ce_type e with BMSParser.ev_bgm => true | _ => false end.

Definition isTap (n : BMSParser.Note) : bool := NoteType_eqb (BMSParser.type n) tap.

(** A time event with a usable value: a positive tempo, or a stop that
    is not negative. *)
Definition validTimeEvent (ev : BMSParser.TimeEvent) : Prop :=
  exists v, BMSParser.te_value ev = Some v /\
            match BMSParser.te_type ev with
            | BMSParser.bpm => 0 < v
            | BMSParser.stop => 0 <= v
            end.

(** Later entry, later beat and later time. *)
Definition entryBefore (p q : Q * Q) : Prop := fst p < fst q /\ snd p < snd q.

(** The condition of the inner loop: the event lies within [1e-6] beats
    of the beat. *)
Definition near (b : Q) (ev : BMSParser.TimeEvent) : bool :=
  Qltb (Qabs (BMSParser.te_beat ev - b)) 1e-6.

Definition isBpmEvent (ev : BMSParser.TimeEvent) : bool :=
  match BMSParser.te_type ev with BMSParser.bpm => true | BMSParser.stop => false end.

Definition isStopEvent (ev : BMSParser.TimeEvent) : bool :=
  match BMSParser.te_type ev with BMSParser.bpm => false | BMSParser.stop => true end.

(** What the outer loop keeps true when every tempo is positive: the
    recorded beats and times both grow along the map, and none lies past
    the loop variables. *)
Definition timelineInv (st : BMSParser.Integration) : Prop :=
  0 < BMSParser.currentBPM st /\
  Forall validTimeEvent (BMSParser.pending st) /\
  StronglySorted entryBefore (BMSParser.beatToTime st) /\
  Forall (fun p => fst p <= BMSParser.lastBeat st /\ snd p <= BMSParser.lastTime st)
         (BMSParser.beatToTime st).

(** Beat [b] lies in measure [m] of the table [msb]. *)
Definition inMeasure (msb : list Q) (m : nat) (b : Q) : Prop :=
  nth m msb 0 <= b /\ b <= nth (S m) msb 0 /\
  (nth m msb 0 < nth (S m) msb 0 -> b < nth (S m) msb 0).

(** A chart in plain 4/4 at one tempo: no measure has a channel for the
    measure length (02), a tempo change (03, 08) or a stop (09). *)
Definition plainChart (c : BMSParser.Chart) : Prop :=
  forall m chs ch data,
    BMSParser.lookup Nat.eqb m (BMSParser.measures c) = Some chs ->
    In (ch, data) chs ->
    ch <> "02"%string /\ ch <> "03"%string /\ ch <> "08"%string /\ ch <> "09"%string.

(** The characters [0] to [9], and the letters and digits. *)
Definition decimalDigits : list ascii := list_ascii_of_string "0123456789".

Definition lettersAndDigits : list ascii :=
  list_ascii_of_string "0123456789ABCDEFGHIJKLMNOPQRSTUVWXYZabcdefghijklmnopqrstuvwxyz".

(** Every character of [s] is one of [cs]. *)
Definition madeOf (cs : list ascii) (s : string) : Prop :=
  Forall (fun c => In c cs) (list_ascii_of_string s).

(** * Properties *)

(** ** Booleans and rationals *)

Lemma Qltb_lt (a b : Q) : Qltb a b = true <-> a < b.
Proof.
  unfold Qltb. rewrite negb_true_iff. split; intro H.
  - apply Qnot_le_lt. intro Hle. apply Qle_bool_iff in Hle. congruence.
  - destruct (Qle_bool b a) eqn:E; [|reflexivity].
    apply Qle_bool_iff in E. exfalso. apply (Qlt_not_le _ _ H E).
Qed.

Lemma Qltb_ge (a b : Q) : Qltb a b = false <-> b <= a.
Proof.
  unfold Qltb. rewrite negb_false_iff. apply Qle_bool_iff.
Qed.

Lemma Qle_bool_false (a b : Q) : Qle_bool a b = false <-> b < a.
Proof.
  rewrite <- Qltb_lt. unfold Qltb. rewrite negb_true_iff. tauto.
Qed.

(** ** Stable sorting *)

Lemma In_insert_by {A : Type} (lt : A -> A -> bool) (x y : A) (l : list A) :
  In y (insert_by lt x l) <-> y = x \/ In y l.
Proof.
  induction l as [|z l IH]; simpl.
  - intuition congruence.
  - destruct (lt z x); simpl; rewrite ?IH; intuition congruence.
Qed.

Lemma In_sort_by {A : Type} (lt : A -> A -> bool) (y : A) (l : list A) :
  In y (sort_by lt l) <-> In y l.
Proof.
  induction l as [|x l IH]; simpl; [tauto|].
  rewrite In_insert_by, IH. intuition congruence.
Qed.

Lemma insert_by_not_nil {A : Type} (lt : A -> A -> bool) (x : A) (l : list A) :
  insert_by lt x l <> [].
Proof. destruct l; simpl; [discriminate|]. destruct (lt a x); discriminate. Qed.

Lemma insert_by_Permutation {A : Type} (lt : A -> A -> bool) (x : A) (l : list A) :
  Permutation (x :: l) (insert_by lt x l).
Proof.
  induction l as [|y l IH]; simpl; [apply Permutation_refl|].
  destruct (lt y x); [|apply Permutation_refl].
  apply perm_trans with (y :: x :: l); [apply perm_swap|].
  apply perm_skip. exact IH.
Qed.

Lemma sort_by_Permutation {A : Type} (lt : A -> A -> bool) (l : list A) :
  Permutation l (sort_by lt l).
Proof.
  induction l as [|x l IH]; simpl; [apply Permutation_refl|].
  apply perm_trans with (x :: sort_by lt l); [apply perm_skip; exact IH|].
  apply insert_by_Permutation.
Qed.

Lemma filter_Permutation {A : Type} (f : A -> bool) (l l' : list A) :
  Permutation l l' -> Permutation (filter f l) (filter f l').
Proof.
  induction 1 as [|x l l' _ IH|x y l|l1 l2 l3 _ IH1 _ IH2]; cbn [filter].
  - apply Permutation_refl.
  - destruct (f x); [apply perm_skip|]; exact IH.
  - destruct (f x); destruct (f y); try apply Permutation_refl. apply perm_swap.
  - apply perm_trans with (filter f l2); assumption.
Qed.

(** ** Positions *)

Lemma In_indexed_from {A : Type} (l : list A) (k i : nat) (x : A) :
  In (i, x) (indexed_from k l) -> (k <= i)%nat /\ nth_error l (i - k) = Some x.
Proof.
  revert k. induction l as [|y l IH]; simpl; intros k H; [contradiction|].
  destruct H as [H|H].
  - inversion H; subst. rewrite Nat.sub_diag. split; [lia|reflexivity].
  - apply IH in H. destruct H as [Hle Hn]. split; [lia|].
    replace (i - k)%nat with (S (i - S k)) by lia. exact Hn.
Qed.

Lemma In_indexed {A : Type} (l : list A) (i : nat) (x : A) :
  In (i, x) (indexed l) -> nth_error l i = Some x.
Proof.
  intro H. apply In_indexed_from in H. rewrite Nat.sub_0_r in H. tauto.
Qed.

Lemma nth_error_replace_at_ne {A : Type} (l : list A) (i j : nat) (x : A) :
  i <> j -> nth_error (replace_at i x l) j = nth_error l j.
Proof.
  revert i j. induction l as [|y l IH]; intros [|i] [|j] H; simpl; try reflexivity.
  - congruence.
  - apply IH. congruence.
Qed.

Lemma nth_error_replace_at_eq {A : Type} (l : list A) (i : nat) (x y : A) :
  nth_error l i = Some y -> nth_error (replace_at i x l) i = Some x.
Proof.
  revert i. induction l as [|z l IH]; intros [|i] H; simpl in *; try discriminate.
  - reflexivity.
  - apply IH. exact H.
Qed.

(** *** The target of a press *)

Lemma In_indexed_from_conv {A : Type} (l : list A) :
  forall (k i : nat) (x : A),
    nth_error l i = Some x -> In ((k + i)%nat, x) (indexed_from k l).
Proof.
  induction l as [|y l IH]; intros k [|i] x H; simpl in *; try discriminate.
  - inversion H; subst. left. rewrite Nat.add_0_r. reflexivity.
  - right. replace (k + S i)%nat with (S k + i)%nat by lia. apply IH. exact H.
Qed.

(** ** The judgment engine *)

Section Engine.

Import RhythmGame.

(** The clamp keeps health between 0 and 100. *)
Lemma clampHp_range (h : Q) : 0 <= clampHp h /\ clampHp h <= 100.
Proof.
  unfold clampHp. split.
  - apply Q.le_max_l.
  - apply Q.max_lub; [discriminate|apply Q.le_min_l].
Qed.

Lemma clampHp_id (h : Q) : 0 <= h -> h <= 100 -> clampHp h == h.
Proof.
  intros H0 H1. unfold clampHp.
  rewrite (Q.min_r 100 h H1). apply Q.max_r. exact H0.
Qed.

(** A press that finds no candidate returns at once. *)
Lemma checkHit_no_candidate (lane0 : Z) (t : Q) (g : Game) :
  candidates lane0 t (runtimeNotes g) = [] -> checkHit lane0 t g = g.
Proof. intro H. unfold checkHit. rewrite H. reflexivity. Qed.

Lemma filter_nil_iff {A : Type} (f : A -> bool) (l : list A) :
  filter f l = [] <-> forall x, In x l -> f x = false.
Proof.
  induction l as [|y l IH]; simpl.
  - split; [intros _ x []|reflexivity].
  - destruct (f y) eqn:E.
    + split; [discriminate|]. intro H. specialize (H y (or_introl eq_refl)). congruence.
    + rewrite IH. split.
      * intros H x [->|Hx]; auto.
      * intros H x Hx. apply H. right. exact Hx.
Qed.

(** *** No candidate, no effect *)

Lemma judgments_triggerMissStats (s : Stats) :
  judgments (triggerMissStats s) = (judgments s + 1)%Z.
Proof.
  unfold judgments, triggerMissStats. cbv zeta.
  destruct (Qle_bool (clampHp (hp s - 4)) 0); [|destruct (score s - 20 <? 0)%Z];
    cbn [cool good bad miss set_score]; lia.
Qed.

Lemma judgments_triggerHit (j : Judge) (l : Z) (s : Stats) :
  j <> MISS -> judgments (triggerHit j l s) = (judgments s + 1)%Z.
Proof.
  intro Hj. unfold judgments, triggerHit. cbv zeta.
  match goal with |- context [Qle_bool ?h 0] => destruct (Qle_bool h 0) end;
    [|match goal with |- context [(?x <? 0)%Z] => destruct (x <? 0)%Z end];
    cbn [cool good bad miss set_score]; destruct j; try contradiction; lia.
Qed.

(** A press that finds a candidate counts one judgment. *)
Lemma checkHit_judges (lane0 : Z) (t : Q) (g : Game) (n : Note) :
  In n (runtimeNotes g) -> isCandidate lane0 t n = true ->
  judgments (stats (checkHit lane0 t g)) = (judgments (stats g) + 1)%Z.
Proof.
  intros Hin Hc. unfold checkHit.
  destruct (candidates lane0 t (runtimeNotes g)) as [|c cs] eqn:Ec.
  - exfalso. unfold candidates in Ec.
    apply In_nth_error in Hin. destruct Hin as [k Hk].
    assert (Hmem : In (k, n) (filter (fun p => isCandidate lane0 t (snd p))
                                     (indexed (runtimeNotes g)))).
    { apply filter_In. split; [|exact Hc].
      exact (In_indexed_from_conv (runtimeNotes g) 0 k n Hk). }
    rewrite Ec in Hmem. destruct Hmem.
  - destruct (sort_by (closer t) (c :: cs)) as [|[i target] rest] eqn:Es.
    + exfalso. apply (insert_by_not_nil (closer t) c (sort_by (closer t) cs)). exact Es.
    + cbv zeta. destruct (classify ((t - time target) * 1000)) eqn:Ej.
      * destruct (type target); cbn [stats]; apply judgments_triggerHit; discriminate.
      * destruct (type target); cbn [stats]; apply judgments_triggerHit; discriminate.
      * destruct (type target); cbn [stats]; apply judgments_triggerHit; discriminate.
      * cbn [triggerMiss stats]. apply judgments_triggerMissStats.
Qed.

(** C9.  A press is a no-op exactly when no note passes the filter of
    [checkHit].  That filter does not look at [isHolding]: when no note
    of the lane is eligible and none is being held within 150 ms, the
    press changes nothing; but a hold that is being held within 150 ms,
    which is not eligible, is judged again, so the press counts one more
    judgment although it has no eligible candidate.  In the session of
    one hold note at 1 s, held since a press at 1 s, a second press at
    1.03125 s has no eligible candidate and doubles cool, combo and
    score. *)
Theorem C9_press_on_held_note_is_not_noop :
  (forall (g : Game) (lane0 : Z) (t : Q),
     (forall n, In n (runtimeNotes g) -> ~ eligible lane0 t n) ->
     ((forall n, In n (runtimeNotes g) -> ~ heldInWindow lane0 t n) ->
      checkHit lane0 t g = g /\ step g (Press lane0 t) = g) /\
     (forall n, In n (runtimeNotes g) -> heldInWindow lane0 t n ->
      judgments (stats (checkHit lane0 t g)) = (judgments (stats g) + 1)%Z /\
      checkHit lane0 t g <> g)) /\
  (let g1 := run (start [BMSParser.mkNote 1 0 ln 1] false) [Press 0 1] in
   let g2 := step g1 (Press 0 1.03125) in
   (forall n, In n (runtimeNotes g1) -> ~ eligible 0 1.03125 n) /\
   map isHolding (runtimeNotes g1) = [true] /\
   (cool (stats g1) = 1 /\ combo (stats g1) = 1 /\ score (stats g1) = 100)%Z /\
   (cool (stats g2) = 2 /\ combo (stats g2) = 2 /\ score (stats g2) = 200)%Z).
Proof.
  split.
  - intros g lane0 t Hel. split.
    + intro Hheld.
      assert (Hc : checkHit lane0 t g = g).
      { apply checkHit_no_candidate. unfold candidates.
        apply filter_nil_iff. intros [i n] Hin. cbn [snd].
        apply In_indexed in Hin. apply nth_error_In in Hin.
        unfold isCandidate.
        destruct (Z.eqb_spec (lane n) lane0) as [Hl|]; [|reflexivity].
        destruct (hit n) eqn:Hh; [reflexivity|].
        destruct (missed n) eqn:Hm; [reflexivity|].
        cbn [negb andb]. destruct (Qltb (Qabs (time n - t)) 0.15) eqn:Ew; [|reflexivity].
        apply Qltb_lt in Ew. exfalso.
        destruct (isHolding n) eqn:Hho.
        - apply (Hheld n Hin). repeat split; assumption.
        - apply (Hel n Hin). repeat split; assumption. }
      split; [exact Hc|].
      cbn [step]. destruct (isPlaying g); cbn [negb]; [exact Hc|reflexivity].
    + intros n Hin (Hl & Hh & Hm & _ & Hw).
      assert (Hj : judgments (stats (checkHit lane0 t g)) = (judgments (stats g) + 1)%Z).
      { apply (checkHit_judges lane0 t g n Hin).
        unfold isCandidate. rewrite Hh, Hm.
        apply Z.eqb_eq in Hl. rewrite Hl. cbn [negb andb].
        apply Qltb_lt. exact Hw. }
      split; [exact Hj|]. intro Habs. rewrite Habs in Hj. lia.
  - cbv zeta. split; [|vm_compute; repeat split; reflexivity].
    intros n Hin (_ & _ & _ & Hho & _). vm_compute in Hin.
    destruct Hin as [<-|[]]. discriminate Hho.
Qed.

(** *** Scoring rules *)

(** C6.  On a live state (non-negative combo, comboBonus and score, health
    within 0..100): a COOL or GOOD judgment adds one to combo, raises
    maxCombo to the new combo when exceeded, adds 10 to comboBonus exactly
    when the new combo is a multiple of 25, and adds the tier's base
    value plus the updated comboBonus to score; a BAD judgment resets
    combo and comboBonus to 0, adds 10 to score and leaves health as it
    was. *)
Theorem C6_triggerHit_rules (s : Stats) (lane0 : Z) :
  (0 <= combo s)%Z -> (0 <= comboBonus s)%Z -> (0 <= score s)%Z ->
  0 <= hp s -> hp s <= 100 ->
  (forall j, j = COOL \/ j = GOOD ->
     let s' := triggerHit j lane0 s in
     combo s' = (combo s + 1)%Z /\
     maxCombo s' = Z.max (maxCombo s) (combo s + 1) /\
     comboBonus s' =
       (comboBonus s + (if ((combo s + 1) mod 25 =? 0)%Z then 10 else 0))%Z /\
     score s' = (score s + tierBase j + comboBonus s')%Z) /\
  (let s' := triggerHit BAD lane0 s in
   combo s' = 0%Z /\ comboBonus s' = 0%Z /\
   score s' = (score s + 10)%Z /\ hp s' == hp s /\
   maxCombo s' = maxCombo s).
Proof.
  intros Hc Hb Hs Hh0 Hh1. split.
  - intros j Hj s'. subst s'. unfold triggerHit.
    set (c1 := (combo s + 1)%Z).
    assert (Hpos : (0 <? c1)%Z = true) by (apply Z.ltb_lt; unfold c1; lia).
    assert (Hrem : Z.rem c1 25 = (c1 mod 25)%Z)
      by (apply Z.rem_mod_nonneg; unfold c1; lia).
    assert (Hbonus : (0 <= (if ((0 <? c1)%Z && (Z.rem c1 25 =? 0)%Z)%bool
                            then (comboBonus s + 10)%Z else comboBonus s))%Z)
      by (destruct ((0 <? c1)%Z && (Z.rem c1 25 =? 0)%Z)%bool; lia).
    assert (Hmax : (if (maxCombo s <? c1)%Z then c1 else maxCombo s)
                   = Z.max (maxCombo s) c1).
    { destruct (Z.ltb_spec (maxCombo s) c1); lia. }
    assert (Hcb : (if ((0 <? c1)%Z && (Z.rem c1 25 =? 0)%Z)%bool
                   then (comboBonus s + 10)%Z else comboBonus s)
                  = (comboBonus s + (if (c1 mod 25 =? 0)%Z then 10 else 0))%Z).
    { rewrite Hpos, Hrem. simpl. destruct (c1 mod 25 =? 0)%Z; lia. }
    destruct Hj as [-> | ->]; cbv zeta; cbv iota;
      (match goal with |- context [Qle_bool ?h 0] => destruct (Qle_bool h 0) end;
       [ cbn [combo maxCombo comboBonus score]; rewrite Hmax, Hcb;
         unfold tierBase; repeat split; lia
       | match goal with |- context [(?x <? 0)%Z] =>
           destruct (Z.ltb_spec x 0) as [Hneg|Hnn] end;
         [ exfalso; lia
         | cbn [combo maxCombo comboBonus score]; rewrite Hmax, Hcb;
           unfold tierBase; repeat split; lia ] ]).
  - intro s'. subst s'. unfold triggerHit. cbv zeta. cbv iota.
    destruct (Qle_bool (clampHp (hp s)) 0).
    + cbn [combo maxCombo comboBonus score hp].
      repeat split; try lia. apply clampHp_id; assumption.
    + destruct (Z.ltb_spec (score s + 10) 0) as [Hneg|Hnn]; [exfalso; lia|].
      cbn [combo maxCombo comboBonus score hp].
      repeat split; try lia. apply clampHp_id; assumption.
Qed.

Lemma C6_triggerHit_rules_witness :
  let s := mkStats 24 2400 24 0 0 0 24 0 90 in
  (forall j, j = COOL \/ j = GOOD ->
     let s' := triggerHit j 0 s in
     combo s' = 25%Z /\
     maxCombo s' = Z.max 24 25 /\
     comboBonus s' = (0 + (if (25 mod 25 =? 0)%Z then 10 else 0))%Z /\
     score s' = (2400 + tierBase j + comboBonus s')%Z) /\
  (let s' := triggerHit BAD 0 s in
   combo s' = 0%Z /\ comboBonus s' = 0%Z /\
   score s' = 2410%Z /\ hp s' == 90 /\ maxCombo s' = 24%Z).
Proof.
  apply (C6_triggerHit_rules (mkStats 24 2400 24 0 0 0 24 0 90) 0);
    simpl; try lia; discriminate.
Defined.

(** *** Clamps *)

(** Health stays within 0..100 after every judgment and every miss. *)
Lemma triggerHit_hp_range (j : Judge) (lane0 : Z) (s : Stats) :
  0 <= hp (triggerHit j lane0 s) /\ hp (triggerHit j lane0 s) <= 100.
Proof.
  unfold triggerHit. cbv zeta.
  match goal with |- context [Qle_bool ?h 0] => destruct (Qle_bool h 0) end;
    [|match goal with |- context [(?x <? 0)%Z] => destruct (x <? 0)%Z end];
    cbn [hp set_score]; apply clampHp_range.
Qed.

Lemma triggerMissStats_hp_range (s : Stats) :
  0 <= hp (triggerMissStats s) /\ hp (triggerMissStats s) <= 100.
Proof.
  unfold triggerMissStats. cbv zeta.
  destruct (Qle_bool (clampHp (hp s - 4)) 0);
    [|destruct (score s - 20 <? 0)%Z]; cbn [hp set_score]; apply clampHp_range.
Qed.

(** The score floor is applied whenever the session survives the miss. *)
Lemma triggerMissStats_score_floor (s : Stats) :
  0 < hp (triggerMissStats s) -> (0 <= score (triggerMissStats s))%Z.
Proof.
  unfold triggerMissStats. cbv zeta.
  destruct (Qle_bool (clampHp (hp s - 4)) 0) eqn:E.
  - cbn [hp score]. intro H. apply Qle_bool_iff in E.
    exfalso. apply (Qlt_not_le _ _ H E).
  - intros _. destruct (Z.ltb_spec (score s - 20) 0); cbn [score set_score]; lia.
Qed.

(** C2.  The miss that takes health to 0 returns before the score floor:
    in a session of 25 tap notes that are all left to age out, the 25th
    miss of the sweep leaves score at -20 with health at 0. *)
Theorem C2_fatal_miss_leaves_score_negative :
  let chartNotes :=
    map (fun k => BMSParser.mkNote (inject_Z (Z.of_nat k)) 0 tap 0) (seq 1 25) in
  let g := run (start chartNotes false) [Tick 100] in
  score (stats g) = (-20)%Z /\ hp (stats g) == 0 /\ miss (stats g) = 25%Z /\
  ~ (0 <= score (stats g))%Z.
Proof. vm_compute. repeat split; try reflexivity. intro H. apply H. reflexivity. Qed.

(** A note that is hit or missed is never a candidate again. *)
Lemma judged_not_candidate (lane0 : Z) (t : Q) (n : Note) :
  hit n = true \/ missed n = true -> isCandidate lane0 t n = false.
Proof.
  intros [H|H]; unfold isCandidate; rewrite H; simpl.
  - rewrite andb_false_r. reflexivity.
  - rewrite andb_false_r. reflexivity.
Qed.

(** A held note, neither hit nor missed, passes the filter as before. *)
Lemma holding_still_candidate (lane0 : Z) (t : Q) (n : Note) :
  isCandidate lane0 t (set_hitTime t (set_isHolding true n)) = isCandidate lane0 t n.
Proof. reflexivity. Qed.

(** C1.  A hold note whose head has been judged stays a candidate: of two
    presses in its lane, 31.25 ms apart, each one applies a COOL judgment to
    the same note (the only note of the session). *)
Theorem C1_hold_head_judged_by_two_presses :
  let g0 := start [BMSParser.mkNote 1 0 ln 1] false in
  let g1 := run g0 [Press 0 1] in
  let g2 := run g0 [Press 0 1; Press 0 1.03125] in
  (cool (stats g1) = 1 /\ combo (stats g1) = 1 /\ score (stats g1) = 100)%Z /\
  map isHolding (runtimeNotes g1) = [true] /\
  map hit (runtimeNotes g1) = [false] /\
  candidates 0 1.03125 (runtimeNotes g1) <> [] /\
  (cool (stats g2) = 2 /\ combo (stats g2) = 2 /\ score (stats g2) = 200)%Z.
Proof. vm_compute. repeat split; try reflexivity. discriminate. Qed.

(** *** What an event can change *)

Lemma updateNotes_nth (demo : bool) (t : Q) (l : list Note) :
  forall (s : Stats) (i : nat) (n : Note),
    nth_error l i = Some n ->
    exists s', nth_error (snd (updateNotes demo t s l)) i
               = Some (snd (updateNote demo t s' n)).
Proof.
  induction l as [|x l IH]; intros s [|i] n H; simpl in H; try discriminate.
  - inversion H; subst. exists s. simpl.
    destruct (updateNote demo t s n) as [s1 n1].
    destruct (updateNotes demo t s1 l) as [s2 rest]. reflexivity.
  - simpl. destruct (updateNote demo t s x) as [s1 n1] eqn:E1.
    destruct (IH s1 i n H) as [s' Hs'].
    destruct (updateNotes demo t s1 l) as [s2 rest]. exists s'. exact Hs'.
Qed.

(** [checkHit] rewrites at most one note, and that note lies in the
    pressed lane. *)
Lemma checkHit_notes (lane0 : Z) (t : Q) (g : Game) :
  runtimeNotes (checkHit lane0 t g) = runtimeNotes g \/
  exists j target x,
    nth_error (runtimeNotes g) j = Some target /\ lane target = lane0 /\
    runtimeNotes (checkHit lane0 t g) = replace_at j x (runtimeNotes g).
Proof.
  unfold checkHit.
  destruct (candidates lane0 t (runtimeNotes g)) as [|c cs] eqn:Ec; [left; reflexivity|].
  destruct (sort_by (closer t) (c :: cs)) as [|[j target] rest] eqn:Es; [left; reflexivity|].
  assert (Hin : In (j, target) (candidates lane0 t (runtimeNotes g))).
  { rewrite Ec. apply (In_sort_by (closer t)). rewrite Es. left. reflexivity. }
  unfold candidates in Hin. apply filter_In in Hin. destruct Hin as [Hidx Hcand].
  apply In_indexed in Hidx. simpl in Hcand. unfold isCandidate in Hcand.
  repeat (apply andb_prop in Hcand; destruct Hcand as [Hcand ?]).
  apply Z.eqb_eq in Hcand.
  right. exists j, target.
  destruct (classify ((t - time target) * 1000)); destruct (type target);
    simpl; eexists; repeat split; eauto.
Qed.

(** [checkLNRelease] rewrites at most one note, and that note is a hold
    note. *)
Lemma checkLNRelease_notes (lane0 : Z) (t : Q) (g : Game) :
  runtimeNotes (checkLNRelease lane0 t g) = runtimeNotes g \/
  exists j target x,
    nth_error (runtimeNotes g) j = Some target /\ type target = ln /\
    runtimeNotes (checkLNRelease lane0 t g) = replace_at j x (runtimeNotes g).
Proof.
  unfold checkLNRelease.
  destruct (find (fun p => isHeld lane0 (snd p)) (indexed (runtimeNotes g)))
    as [[j target]|] eqn:Ef; [|left; reflexivity].
  apply find_some in Ef. destruct Ef as [Hidx Hheld].
  apply In_indexed in Hidx. simpl in Hheld. unfold isHeld in Hheld.
  repeat (apply andb_prop in Hheld; destruct Hheld as [Hheld ?]).
  assert (Hty : type target = ln) by (destruct (type target); [discriminate|reflexivity]).
  right. exists j, target.
  destruct (Qltb (t - (time target + duration target)) (-0.2));
    simpl; eexists; repeat split; eauto.
Qed.

Lemma step_flags (g : Game) (e : Event) :
  isPlaying (step g e) = isPlaying g /\ autoDemo (step g e) = autoDemo g.
Proof.
  destruct e as [l t|l t|t]; simpl.
  - destruct (isPlaying g) eqn:Ep; simpl; [|auto].
    unfold checkHit.
    destruct (candidates l t (runtimeNotes g)); [auto|].
    destruct (sort_by (closer t) (p :: l0)) as [|[j target] rest]; [auto|].
    destruct (classify ((t - time target) * 1000)); destruct (type target); simpl; auto.
  - unfold checkLNRelease.
    destruct (find (fun p => isHeld l (snd p)) (indexed (runtimeNotes g)))
      as [[j target]|]; [|auto].
    destruct (Qltb (t - (time target + duration target)) (-0.2)); simpl; auto.
  - unfold update. destruct (isPlaying g) eqn:Ep; simpl; [|auto].
    destruct (updateNotes (autoDemo g) t (stats g) (runtimeNotes g)). simpl. auto.
Qed.

(** *** The sweep on a tap note *)

Lemma miss_condition (T t : Q) : Qltb (T - t) (-0.15) = true <-> T + 0.15 < t.
Proof. rewrite Qltb_lt. split; intro H; lra. Qed.

(** The sweep on a tap that is neither late nor played by the auto demo. *)
Lemma updateNote_tap_unreached (demo : bool) (t : Q) (s : Stats) (n : Note) :
  type n = tap -> hit n = false -> missed n = false ->
  ~ time n + 0.15 < t -> (demo = true -> 0.03 < Qabs (time n - t)) ->
  updateNote demo t s n = (s, n).
Proof.
  intros Hty Hh Hm Hlate Hdemo. unfold updateNote. rewrite Hh, Hm, Hty.
  assert (E : Qltb (time n - t) (-0.15) = false).
  { destruct (Qltb (time n - t) (-0.15)) eqn:E; [|reflexivity].
    apply miss_condition in E. contradiction. }
  destruct demo; cbn [andb negb].
  - assert (En : Qle_bool (Qabs (time n - t)) 0.03 = false).
    { destruct (Qle_bool (Qabs (time n - t)) 0.03) eqn:En; [|reflexivity].
      apply Qle_bool_iff in En. specialize (Hdemo eq_refl). exfalso. lra. }
    rewrite En, Hty, Hh, Hm. cbn [NoteType_eqb andb negb orb]. rewrite E. reflexivity.
  - rewrite Hty, Hh, Hm. cbn [NoteType_eqb andb negb orb]. rewrite E. reflexivity.
Qed.

(** The sweep on a tap that is late: the miss, with the auto demo on or
    off. *)
Lemma updateNote_tap_late (demo : bool) (t : Q) (s : Stats) (n : Note) :
  type n = tap -> hit n = false -> missed n = false ->
  time n + 0.15 < t ->
  updateNote demo t s n = (triggerMissStats s, set_missed true n).
Proof.
  intros Hty Hh Hm Hlate. unfold updateNote. rewrite Hh, Hm, Hty.
  assert (E : Qltb (time n - t) (-0.15) = true) by (apply miss_condition; exact Hlate).
  destruct demo; cbn [andb negb].
  - assert (En : Qle_bool (Qabs (time n - t)) 0.03 = false).
    { destruct (Qle_bool (Qabs (time n - t)) 0.03) eqn:En; [|reflexivity].
      apply Qle_bool_iff in En. apply Qabs_Qle_condition in En. exfalso. lra. }
    rewrite En, Hty, Hh, Hm. cbn [NoteType_eqb andb negb orb]. rewrite E. reflexivity.
  - rewrite Hty, Hh, Hm. cbn [NoteType_eqb andb negb orb]. rewrite E. reflexivity.
Qed.

(** *** Terminal notes *)

Lemma updateNote_terminal (demo : bool) (t : Q) (s : Stats) (n : Note) :
  hit n = true \/ missed n = true -> updateNote demo t s n = (s, n).
Proof.
  intro Hterm. unfold updateNote.
  destruct n as [tm la ty du h m ih ht].
  cbn [hit missed type isHolding time lane duration] in *.
  destruct Hterm; subst; destruct demo, ty, ih;
    try destruct h; try destruct m;
    cbn [hit missed type isHolding time lane duration andb negb NoteType_eqb orb];
    rewrite ?andb_true_r, ?andb_false_r;
    repeat match goal with
           | |- context [if ?b then _ else _] =>
             destruct b;
             cbn [hit missed type isHolding time lane duration andb negb NoteType_eqb orb];
             rewrite ?andb_true_r, ?andb_false_r
           end; reflexivity.
Qed.

Lemma updateNote_tap_missed (demo : bool) (t : Q) (s : Stats) (n : Note) :
  type n = tap -> hit n = false -> missed n = true ->
  updateNote demo t s n = (s, n).
Proof.
  intros Hty Hh Hm. unfold updateNote.
  rewrite Hh, Hm, andb_false_r. rewrite Hty, Hh, Hm. simpl.
  rewrite andb_false_r. reflexivity.
Qed.

(** A tap note is left alone by presses in other lanes and by releases. *)
Lemma step_keeps_tap (g : Game) (e : Event) (i : nat) (n : Note) :
  nth_error (runtimeNotes g) i = Some n -> type n = tap ->
  (forall l t, e = Press l t -> l <> lane n) ->
  (forall t, e = Tick t ->
             forall s, updateNote (autoDemo g) t s n = (s, n)) ->
  nth_error (runtimeNotes (step g e)) i = Some n.
Proof.
  intros Hi Hty Hpress Htick. destruct e as [l t|l t|t]; simpl.
  - destruct (isPlaying g); simpl; [|exact Hi].
    destruct (checkHit_notes l t g) as [->|(j & target & x & Hj & Hl & ->)]; [exact Hi|].
    rewrite nth_error_replace_at_ne; [exact Hi|].
    intros ->. rewrite Hi in Hj. inversion Hj; subst.
    apply (Hpress (lane target) t); reflexivity.
  - destruct (checkLNRelease_notes l t g) as [->|(j & target & x & Hj & Hl & ->)]; [exact Hi|].
    rewrite nth_error_replace_at_ne; [exact Hi|].
    intros ->. rewrite Hi in Hj. inversion Hj; subst. congruence.
  - unfold update. destruct (isPlaying g); simpl; [|exact Hi].
    destruct (updateNotes_nth (autoDemo g) t (runtimeNotes g) (stats g) i n Hi)
      as [s' Hs'].
    rewrite (Htick t eq_refl s') in Hs'. simpl in Hs'.
    destruct (updateNotes (autoDemo g) t (stats g) (runtimeNotes g)). exact Hs'.
Qed.

Lemma run_app (g : Game) (es1 es2 : list Event) :
  run g (es1 ++ es2) = run (run g es1) es2.
Proof. unfold run. apply fold_left_app. Qed.

Lemma run_flags (es : list Event) (g : Game) :
  isPlaying (run g es) = isPlaying g /\ autoDemo (run g es) = autoDemo g.
Proof.
  revert g. induction es as [|e es IH]; intro g; simpl; [auto|].
  destruct (IH (step g e)) as [-> ->]. apply step_flags.
Qed.

(** Until the first late tick the note is untouched. *)
Lemma run_unreached (es : list Event) :
  forall (g : Game) (i : nat) (n : Note),
    nth_error (runtimeNotes g) i = Some n ->
    type n = tap -> hit n = false -> missed n = false ->
    quiet n es -> early n es -> unplayed n (autoDemo g) es ->
    nth_error (runtimeNotes (run g es)) i = Some n.
Proof.
  induction es as [|e es IH]; intros g i n Hi Hty Hh Hm Hq He Hu; simpl; [exact Hi|].
  apply IH; try assumption.
  - apply step_keeps_tap; try assumption.
    + intros l t ->. apply (Hq l t). left. reflexivity.
    + intros t -> s. apply updateNote_tap_unreached; try assumption.
      * apply He. left. reflexivity.
      * intro Hd. apply (Hu Hd). left. reflexivity.
  - intros l t Hin. apply (Hq l t). right. exact Hin.
  - intros t Hin. apply He. right. exact Hin.
  - rewrite (proj2 (step_flags g e)). intros Hd t Hin. apply (Hu Hd). right. exact Hin.
Qed.

(** Once missed, the note stays as it is. *)
Lemma run_missed (es : list Event) :
  forall (g : Game) (i : nat) (n : Note),
    nth_error (runtimeNotes g) i = Some n ->
    type n = tap -> hit n = false -> missed n = true ->
    quiet n es ->
    nth_error (runtimeNotes (run g es)) i = Some n.
Proof.
  induction es as [|e es IH]; intros g i n Hi Hty Hh Hm Hq; simpl; [exact Hi|].
  apply IH; try assumption.
  - apply step_keeps_tap; try assumption.
    + intros l t ->. apply (Hq l t). left. reflexivity.
    + intros t _ s. apply updateNote_tap_missed; assumption.
  - intros l t Hin. apply (Hq l t). right. exact Hin.
Qed.

(** *** Miss aging *)

Lemma triggerMissStats_penalised (s : Stats) : penalised s (triggerMissStats s).
Proof.
  unfold penalised, triggerMissStats. cbv zeta.
  destruct (Qle_bool (clampHp (hp s - 4)) 0) eqn:Eh.
  - apply Qle_bool_iff in Eh. cbn [combo comboBonus miss cool good bad maxCombo hp score].
    repeat split; try reflexivity.
    + intro H. exfalso. unfold clampHp in *. lra.
  - apply Qle_bool_false in Eh.
    destruct (score s - 20 <? 0)%Z eqn:Es;
      cbn [combo comboBonus miss cool good bad maxCombo hp score set_score];
      repeat split; try reflexivity.
    + intros _. apply Z.ltb_lt in Es. lia.
    + intro H. exfalso. unfold clampHp in *. lra.
    + intros _. apply Z.ltb_ge in Es. lia.
Qed.

(** The statistics of a sweep, split at position [i]: the sweep of the
    notes before, the note itself, the sweep of the notes after. *)
Lemma updateNotes_at (demo : bool) (t : Q) (l : list Note) :
  forall (s : Stats) (i : nat) (n : Note),
    nth_error l i = Some n ->
    fst (updateNotes demo t s l)
    = fst (updateNotes demo t
             (fst (updateNote demo t (fst (updateNotes demo t s (firstn i l))) n))
             (skipn (S i) l)).
Proof.
  induction l as [|x l IH]; intros s [|i] n H; cbn [nth_error] in H; try discriminate.
  - inversion H; subst. cbn [firstn skipn updateNotes fst].
    destruct (updateNote demo t s n) as [s1 n1]. cbn [fst].
    destruct (updateNotes demo t s1 l) as [s2 rest]. reflexivity.
  - cbn [firstn skipn updateNotes].
    destruct (updateNote demo t s x) as [s1 x1].
    specialize (IH s1 i n H).
    destruct (updateNotes demo t s1 l) as [s2 rest].
    destruct (updateNotes demo t s1 (firstn i l)) as [s3 rest3].
    cbn [fst] in *. exact IH.
Qed.

(** A sweep over notes that it leaves alone, but for the one at [i]. *)
Lemma updateNotes_one (demo : bool) (t : Q) (l : list Note) :
  forall (s : Stats) (i : nat) (n : Note),
    nth_error l i = Some n ->
    (forall k m, k <> i -> nth_error l k = Some m ->
                 forall s', updateNote demo t s' m = (s', m)) ->
    updateNotes demo t s l
    = (fst (updateNote demo t s n), replace_at i (snd (updateNote demo t s n)) l).
Proof.
  induction l as [|x l IH]; intros s i n H Hid; [destruct i; discriminate|].
  destruct i as [|i]; cbn [nth_error] in H.
  - inversion H; subst. cbn [updateNotes replace_at].
    destruct (updateNote demo t s n) as [s1 n1]. cbn [fst snd].
    assert (Hl : forall s', updateNotes demo t s' l = (s', l)).
    { clear -Hid. induction l as [|y l IHl]; intro s'; [reflexivity|].
      cbn [updateNotes]. rewrite (Hid 1%nat y ltac:(lia) eq_refl s').
      rewrite IHl; [reflexivity|].
      intros k m Hk Hm. destruct k as [|k]; [contradiction|].
      apply (Hid (S (S k)) m); [lia|exact Hm]. }
    rewrite Hl. reflexivity.
  - cbn [updateNotes replace_at]. rewrite (Hid 0%nat x ltac:(lia) eq_refl s).
    rewrite (IH s i n H); [reflexivity|].
    intros k m Hk Hm. apply (Hid (S k) m); [lia|exact Hm].
Qed.

Lemma replace_at_same {A : Type} (l : list A) :
  forall i x, nth_error l i = Some x -> replace_at i x l = l.
Proof.
  induction l as [|y l IH]; intros [|i] x H; cbn in *; try discriminate.
  - inversion H; reflexivity.
  - rewrite IH; [reflexivity|exact H].
Qed.

Lemma find_nothing {A : Type} (f : A -> bool) (l : list A) :
  (forall x, In x l -> f x = false) -> find f l = None.
Proof.
  intro H. destruct (find f l) as [x|] eqn:E; [|reflexivity].
  apply find_some in E. destruct E as [Hin Hf]. rewrite (H x Hin) in Hf. discriminate.
Qed.

(** An event that neither presses the lane of the waiting tap at [i] nor
    ticks late or, in the auto demo, near it, changes nothing when every
    other note is judged. *)
Lemma step_idle (g : Game) (e : Event) (i : nat) (n : Note) :
  nth_error (runtimeNotes g) i = Some n ->
  type n = tap ->
  othersJudged i (runtimeNotes g) ->
  (forall l t, e = Press l t -> l <> lane n) ->
  (forall t, e = Tick t -> forall s, updateNote (autoDemo g) t s n = (s, n)) ->
  step g e = g.
Proof.
  intros Hi Hty Hoth Hpress Htick.
  assert (Hcases : forall k m, nth_error (runtimeNotes g) k = Some m ->
                     m = n \/ hit m = true \/ missed m = true).
  { intros k m Hk. destruct (Nat.eq_dec k i) as [->|Hne].
    - left. congruence.
    - right. apply (Hoth k m Hne Hk). }
  destruct e as [l t|l t|t]; cbn [step].
  - destruct (isPlaying g); cbn [negb]; [|reflexivity].
    apply checkHit_no_candidate. unfold candidates. apply filter_nil_iff.
    intros [k m] Hin. cbn [snd]. apply In_indexed in Hin.
    destruct (Hcases k m Hin) as [->|Hj]; [|apply judged_not_candidate; exact Hj].
    unfold isCandidate. destruct (Z.eqb_spec (lane n) l) as [E|E]; [|reflexivity].
    exfalso. apply (Hpress l t eq_refl). symmetry. exact E.
  - unfold checkLNRelease. rewrite find_nothing; [reflexivity|].
    intros [k m] Hin. cbn [snd]. apply In_indexed in Hin.
    unfold isHeld. destruct (Hcases k m Hin) as [->|[Hj|Hj]].
    + rewrite Hty. cbn [NoteType_eqb]. rewrite andb_false_r. reflexivity.
    + rewrite Hj. cbn [negb]. rewrite andb_false_r. reflexivity.
    + rewrite Hj. cbn [negb]. rewrite andb_false_r. reflexivity.
  - unfold update. destruct (isPlaying g) eqn:Ep; cbn [negb]; [|reflexivity].
    rewrite (updateNotes_one _ _ _ _ i n Hi).
    + rewrite (Htick t eq_refl). cbn [fst snd].
      rewrite (replace_at_same _ _ _ Hi). destruct g. cbn in *. rewrite Ep. reflexivity.
    + intros k m Hk Hm s'. apply updateNote_terminal. apply (Hoth k m Hk Hm).
Qed.

Lemma run_idle (es : list Event) (g : Game) (i : nat) (n : Note) :
  nth_error (runtimeNotes g) i = Some n ->
  type n = tap ->
  othersJudged i (runtimeNotes g) ->
  (forall l t, In (Press l t) es -> l <> lane n) ->
  (forall t, In (Tick t) es -> forall s, updateNote (autoDemo g) t s n = (s, n)) ->
  run g es = g.
Proof.
  intros Hi Hty Hoth. induction es as [|e es IH]; intros Hpress Htick; [reflexivity|].
  cbn [run fold_left].
  rewrite (step_idle g e i n Hi Hty Hoth).
  - apply IH.
    + intros l t Hin. apply (Hpress l t). right. exact Hin.
    + intros t Hin. apply Htick. right. exact Hin.
  - intros l t ->. apply (Hpress l t). left. reflexivity.
  - intros t ->. apply Htick. left. reflexivity.
Qed.

(** C7.  Take a tap note [n] (at position [i], not yet judged) of a
    playing session, and events with no press in its lane, such that the
    auto demo, if it is on, does not play the note.  While no tick is
    later than [time n + 0.15] the note is untouched.  At the first tick
    [t] with [time n + 0.15 < t] the note becomes missed, and the sweep
    charges the miss penalty on the statistics with which it reaches the
    note: combo and combo bonus 0, one more miss, 4 points of health less
    (within 0..100) and 20 points of score less (not below 0 while health
    remains).  Whatever follows, the note stays missed,
    and no sweep touches the statistics on its account again.  When every
    other note of the session is judged already, the statistics of the
    whole session are the initial ones before that tick and the initial
    ones with exactly one penalty from that tick on. *)
Theorem C7_tap_ages_out_once (g : Game) (i : nat) (n : Note)
        (pre post : list Event) (t : Q) :
  isPlaying g = true ->
  nth_error (runtimeNotes g) i = Some n ->
  type n = tap -> hit n = false -> missed n = false ->
  quiet n (pre ++ Tick t :: post) ->
  early n pre -> unplayed n (autoDemo g) pre -> time n + 0.15 < t ->
  let g1 := run g pre in
  let reached :=
    fst (updateNotes (autoDemo g) t (stats g1) (firstn i (runtimeNotes g1))) in
  (* before *)
  nth_error (runtimeNotes g1) i = Some n /\
  (* the first late tick *)
  nth_error (runtimeNotes (run g (pre ++ [Tick t]))) i = Some (set_missed true n) /\
  (exists charged,
     penalised reached charged /\
     stats (run g (pre ++ [Tick t]))
     = fst (updateNotes (autoDemo g) t charged (skipn (S i) (runtimeNotes g1)))) /\
  (* afterwards *)
  (forall post1 post2, post = post1 ++ post2 ->
     nth_error (runtimeNotes (run g (pre ++ Tick t :: post1))) i
     = Some (set_missed true n)) /\
  (forall demo t' s,
     updateNote demo t' s (set_missed true n) = (s, set_missed true n)) /\
  (* the whole session, when no other note is left to judge *)
  (othersJudged i (runtimeNotes g) ->
   stats g1 = stats g /\
   forall post1 post2, post = post1 ++ post2 ->
     penalised (stats g) (stats (run g (pre ++ Tick t :: post1)))).
Proof.
  intros Hp Hi Hty Hh Hm Hq He Hu Hlate g1 reached.
  assert (Hq1 : quiet n pre).
  { intros l t' Hin. apply (Hq l t'). apply in_or_app. left. exact Hin. }
  assert (Hq2 : quiet n post).
  { intros l t' Hin. apply (Hq l t'). apply in_or_app. right. right. exact Hin. }
  assert (Hbefore : nth_error (runtimeNotes g1) i = Some n)
    by (apply run_unreached; assumption).
  destruct (run_flags pre g) as [Hp1 Hd1]. fold g1 in Hp1, Hd1. rewrite Hp in Hp1.
  assert (Htick : run g (pre ++ [Tick t])
                  = let '(s', notes') :=
                        updateNotes (autoDemo g) t (stats g1) (runtimeNotes g1) in
                    mkGame notes' s' true (autoDemo g)).
  { rewrite run_app. fold g1. cbn [run fold_left step]. unfold update.
    rewrite Hp1, Hd1. reflexivity. }
  assert (Hat : nth_error (runtimeNotes (run g (pre ++ [Tick t]))) i
                = Some (set_missed true n)).
  { rewrite Htick.
    destruct (updateNotes_nth (autoDemo g) t (runtimeNotes g1) (stats g1) i n Hbefore)
      as [s' Hs'].
    rewrite (updateNote_tap_late _ t s' n Hty Hh Hm Hlate) in Hs'. cbn [snd] in Hs'.
    destruct (updateNotes (autoDemo g) t (stats g1) (runtimeNotes g1)). exact Hs'. }
  assert (Hafter : forall post1 post2, post = post1 ++ post2 ->
             nth_error (runtimeNotes (run g (pre ++ Tick t :: post1))) i
             = Some (set_missed true n)).
  { intros post1 post2 Hpost.
    replace (pre ++ Tick t :: post1) with ((pre ++ [Tick t]) ++ post1)
      by (rewrite <- app_assoc; reflexivity).
    rewrite run_app. apply run_missed; try assumption; try reflexivity.
    intros l t' Hin. apply (Hq2 l t'). rewrite Hpost. apply in_or_app. left. exact Hin. }
  split; [exact Hbefore|]. split; [exact Hat|]. split; [|split; [exact Hafter|split]].
  - exists (triggerMissStats reached). split; [apply triggerMissStats_penalised|].
    rewrite Htick.
    pose proof (updateNotes_at (autoDemo g) t (runtimeNotes g1) (stats g1) i n Hbefore)
      as Hsplit.
    fold reached in Hsplit.
    rewrite (updateNote_tap_late (autoDemo g) t reached n Hty Hh Hm Hlate) in Hsplit.
    cbn [fst] in Hsplit.
    destruct (updateNotes (autoDemo g) t (stats g1) (runtimeNotes g1)) as [s2 notes2].
    cbn [stats fst] in *. exact Hsplit.
  - intros demo t' s. apply updateNote_terminal. right. reflexivity.
  - intro Hoth.
    assert (Hidle : g1 = g).
    { apply (run_idle pre g i n Hi Hty Hoth Hq1).
      intros t' Hin s. apply updateNote_tap_unreached; try assumption.
      - apply He. exact Hin.
      - intro Hd. apply (Hu Hd). exact Hin. }
    split; [rewrite Hidle; reflexivity|].
    intros post1 post2 Hpost.
    replace (pre ++ Tick t :: post1) with ((pre ++ [Tick t]) ++ post1)
      by (rewrite <- app_assoc; reflexivity).
    rewrite run_app.
    assert (Hg2 : run g (pre ++ [Tick t])
                  = mkGame (replace_at i (set_missed true n) (runtimeNotes g))
                           (triggerMissStats (stats g)) true (autoDemo g)).
    { rewrite Htick, Hidle.
      rewrite (updateNotes_one _ _ _ _ i n Hi).
      - rewrite (updateNote_tap_late _ t (stats g) n Hty Hh Hm Hlate). reflexivity.
      - intros k m Hk Hkm s'. apply updateNote_terminal. apply (Hoth k m Hk Hkm). }
    rewrite Hg2.
    rewrite (run_idle post1 _ i (set_missed true n)).
    + cbn [stats]. apply triggerMissStats_penalised.
    + cbn [runtimeNotes]. apply (nth_error_replace_at_eq _ _ _ n). exact Hi.
    + exact Hty.
    + cbn [runtimeNotes]. intros k m Hk Hkm.
      rewrite nth_error_replace_at_ne in Hkm by (intro E; apply Hk; symmetry; exact E).
      apply (Hoth k m Hk Hkm).
    + intros l t' Hin. apply (Hq2 l t'). rewrite Hpost. apply in_or_app. left. exact Hin.
    + intros t' _ s. apply updateNote_terminal. right. reflexivity.
Qed.

Lemma C7_tap_ages_out_once_witness :
  let n := mkNote 1 0 tap 0 false false false None in
  let g := mkGame [mkNote (1 # 2) 1 tap 0 true false false None; n] initialStats true false in
  nth_error (runtimeNotes (run g [Tick 1; Press 1 1; Tick 2; Tick 3])) 1
  = Some (set_missed true n) /\
  penalised initialStats (stats (run g [Tick 1; Press 1 1; Tick 2; Tick 3])).
Proof.
  intros n g.
  assert (Hq : quiet n ([Tick 1; Press 1 1] ++ Tick 2 :: [Tick 3])).
  { intros l t' Hin. simpl in Hin.
    destruct Hin as [H|[H|[H|[H|[]]]]]; inversion H; subst. discriminate. }
  assert (He : early n [Tick 1; Press 1 1]).
  { intros t' Hin. simpl in Hin.
    destruct Hin as [H|[H|[]]]; inversion H; subst.
    intro Hlt. apply Qltb_lt in Hlt. vm_compute in Hlt. discriminate. }
  assert (Hu : unplayed n (autoDemo g) [Tick 1; Press 1 1])
    by (intro Hd; discriminate Hd).
  assert (Ho : othersJudged 1 (runtimeNotes g)).
  { intros k m Hk Hkm. destruct k as [|[|k]]; cbn in Hkm.
    - inversion Hkm; subst. left. reflexivity.
    - contradiction.
    - destruct k; discriminate. }
  destruct (C7_tap_ages_out_once g 1 n [Tick 1; Press 1 1] [Tick 3] 2
              eq_refl eq_refl eq_refl eq_refl eq_refl Hq He Hu eq_refl)
    as (_ & _ & _ & Hafter & _ & Hsession).
  split; [exact (Hafter [Tick 3] [] eq_refl)|].
  exact (proj2 (Hsession Ho) [Tick 3] [] eq_refl).
Defined.

(** C7, counterexample.  Without a press in its lane a tap is still not
    missed when the auto demo plays it: in the session of one tap at 1 s
    with the auto demo on, the tick at 1 s hits the tap with COOL, and
    the tick at 2 s, the first one later than [time + 0.15], finds it
    judged: no miss, no penalty. *)
Theorem C7_auto_demo_hits_an_unpressed_tap :
  let g := start [BMSParser.mkNote 1 0 tap 0] true in
  let n := mkNote 1 0 tap 0 false false false None in
  let es := [Tick 1; Tick 2] in
  isPlaying g = true /\ runtimeNotes g = [n] /\ stats g = initialStats /\
  quiet n es /\ early n [Tick 1] /\ time n + 0.15 < 2 /\
  runtimeNotes (run g es) = [set_hit true n] /\
  (miss (stats (run g es)) = 0 /\ cool (stats (run g es)) = 1 /\
   combo (stats (run g es)) = 1 /\ score (stats (run g es)) = 100)%Z /\
  hp (stats (run g es)) == 100.
Proof.
  intros g n es.
  split; [reflexivity|]. split; [reflexivity|]. split; [reflexivity|].
  split; [|split; [|split; [|split; [|split]]]].
  - intros l t Hin. simpl in Hin. destruct Hin as [H|[H|[]]]; discriminate H.
  - intros t Hin. simpl in Hin. destruct Hin as [H|[]]. inversion H; subst.
    intro Hlt. apply Qltb_lt in Hlt. vm_compute in Hlt. discriminate.
  - reflexivity.
  - vm_compute. reflexivity.
  - vm_compute. repeat split; reflexivity.
  - vm_compute. reflexivity.
Qed.

End Engine.

(** ** The timeline compiler *)

Section Compiler.

Import BMSParser.

(** *** Lanes written by the grid scan *)

Lemma noteLane_range (ch : string) : (-1 <= noteLane ch <= 6)%Z.
Proof.
  unfold noteLane. destruct (parseInt ch) as [[|p|p]|]; try lia.
  do 6 (try (destruct p as [p|p|]; try lia)).
Qed.

Lemma lnLane_range (ch : string) : (-1 <= lnLane ch <= 6)%Z.
Proof.
  unfold lnLane. destruct (parseInt ch) as [[|p|p]|]; try lia.
  do 7 (try (destruct p as [p|p|]; try lia)).
Qed.

Lemma isLNChannel_lane (ch : string) :
  isLNChannel ch = true ->
  (0 <= match parseInt ch with Some n => n - 51 | None => -1 end <= 3)%Z.
Proof.
  unfold isLNChannel, includes. intro H. apply existsb_exists in H.
  destruct H as [x [Hin Heq]]. apply String.eqb_eq in Heq. subst x.
  simpl in Hin. destruct Hin as [<-|[<-|[<-|[<-|[]]]]]; vm_compute; split; discriminate.
Qed.

Lemma scanStep_lanes (c : Chart) (ch val : string) (b : Q) :
  Forall (fun e => ce_type e <> ev_bgm -> laneOk (ce_lane e)) (snd (scanStep c ch val b)).
Proof.
  unfold scanStep.
  destruct (String.eqb val "00").
  { destruct (isLNChannel ch) eqn:E; simpl; [|constructor].
    destruct (chartLnType c =? 2)%Z; simpl; constructor; [|constructor].
    intros _. simpl. pose proof (isLNChannel_lane ch E). unfold laneOk. lia. }
  destruct (String.eqb ch "03"); [constructor|].
  destruct (String.eqb ch "08"); [destruct (lookup _ _ _); constructor|].
  destruct (String.eqb ch "09"); [destruct (lookup _ _ _); constructor|].
  destruct (String.eqb ch "01").
  { constructor; [|constructor]. intro H. exfalso. apply H. reflexivity. }
  destruct (includes noteChannels ch).
  { destruct (Z.leb_spec 0 (noteLane ch)); simpl; constructor; [|constructor].
    intros _. simpl. pose proof (noteLane_range ch). unfold laneOk. lia. }
  destruct (includes lnChannels ch); [|constructor].
  destruct (Z.leb_spec 0 (lnLane ch)); simpl; constructor; [|constructor].
  intros _. simpl. pose proof (lnLane_range ch). unfold laneOk. lia.
Qed.

Lemma concatEvents_snd_Forall (P : ChannelEvent -> Prop)
      (l : list (list TimeEvent * list ChannelEvent)) :
  Forall (fun p => Forall P (snd p)) l -> Forall P (snd (concatEvents l)).
Proof.
  induction 1 as [|x l Hx Hl IH]; simpl; [constructor|].
  apply Forall_app. split; assumption.
Qed.

Lemma scanChart_lanes (c : Chart) (msb : list Q) :
  Forall (fun e => ce_type e <> ev_bgm -> laneOk (ce_lane e)) (snd (scanChart c msb)).
Proof.
  unfold scanChart. apply concatEvents_snd_Forall, Forall_map, Forall_forall.
  intros mIdx _. unfold scanMeasure.
  destruct (lookup Nat.eqb mIdx (measures c)) as [channels|]; [|constructor].
  apply concatEvents_snd_Forall, Forall_map, Forall_forall.
  intros [ch data] _. unfold scanChannel.
  apply concatEvents_snd_Forall, Forall_map, Forall_forall.
  intros i _. apply scanStep_lanes.
Qed.

(** *** The null symbol *)

(** C5.  Under LNTYPE 2 the null symbol is kept on channel 51, which
    opens holds in lane 0, but dropped on channel 56, which opens holds
    in lane 3 (and likewise on 57, 58, 59): a hold opened on channel 56
    gets no termination marker and is never emitted. *)
Theorem C5_null_symbol_dropped_on_hold_channel_56 :
  forall (bpm0 : option Q) (ms : list (nat * list (string * string)))
         (bd sd : list (string * Q)) (b : Q),
    let c := mkChart bpm0 (Some 2%Z) ms bd sd in
    scanStep c "51" "00" b = ([], [mkChannelEvent b ev_ln 0 "00"]) /\
    scanStep c "56" "AA" b = ([], [mkChannelEvent b ev_ln 3 "AA"]) /\
    scanStep c "56" "00" b = ([], []) /\
    scanStep c "57" "00" b = ([], []) /\
    scanStep c "58" "00" b = ([], []) /\
    scanStep c "59" "00" b = ([], []) /\
    scanStep c "54" "00" b = ([], [mkChannelEvent b ev_ln 3 "00"]) /\
    scanStep c "54" "AA" b = ([], []) /\
    option_map (fun o => map lane (notes o))
      (parse (mkChart None (Some 2%Z) [(0%nat, [("51", "AA00")])] [] []))%string
    = Some [0%Z] /\
    option_map (fun o => map lane (notes o))
      (parse (mkChart None (Some 2%Z) [(0%nat, [("56", "AA00")])] [] []))%string
    = Some [].
Proof. intros. repeat split; reflexivity. Qed.

(** *** The end-to-end scenario *)

Lemma scanStep_tap (c : Chart) (val : string) (b : Q) :
  String.eqb val "00" = false ->
  scanStep c "11" val b = ([], [mkChannelEvent b ev_note 0 val]).
Proof. intro H. unfold scanStep. rewrite H. reflexivity. Qed.

(** C4.  The scenario chart compiles to the single tap note
    [{time: 0, lane: 0, kind: tap, duration: 0}], and its total duration
    is 0: the seconds accumulated at the last critical beat, which is
    beat 0, the beat of the only event. *)
Theorem C4_end_to_end_duration_is_last_beat (val : string) :
  String.length val = 2%nat -> val <> "00"%string ->
  exists out,
    parse (endToEndChart val) = Some out /\
    Forall2 noteEquiv (notes out) [mkNote 0 0 tap 0] /\
    out_duration out == 0.
Proof.
  intros Hlen Hne.
  destruct val as [|a [|b [|? ?]]]; simpl in Hlen; try discriminate.
  apply String.eqb_neq in Hne.
  unfold parse.
  assert (Hm : measureStartBeats (endToEndChart (String a (String b "")))
               = Some [0; 0 + 4.0 * 1]) by reflexivity.
  rewrite Hm.
  assert (Hs : scanChart (endToEndChart (String a (String b ""))) [0; 0 + 4.0 * 1]
               = ([], [mkChannelEvent (getBeat [0; 0 + 4.0 * 1] 0 0 (8 / 2)) ev_note 0
                                      (String a (String b ""))])).
  { unfold scanChart, scanMeasure, scanChannel.
    cbn -[scanStep getBeat Qdiv Qplus Qmult].
    rewrite (scanStep_tap _ _ _ Hne). reflexivity. }
  rewrite Hs.
  eexists. split; [vm_compute; reflexivity|].
  simpl. split.
  - constructor; [|constructor]. repeat split; reflexivity.
  - reflexivity.
Qed.

Lemma C4_end_to_end_duration_is_last_beat_witness :
  exists out,
    parse (endToEndChart "01") = Some out /\
    Forall2 noteEquiv (notes out) [mkNote 0 0 tap 0] /\
    out_duration out == 0.
Proof.
  apply (C4_end_to_end_duration_is_last_beat "01"); [reflexivity|discriminate].
Defined.

(** C4, as first stated, fails: the duration of the scenario chart is
    not (60/150)*4 = 1.6 seconds. *)
Lemma C4_duration_is_not_1_6 :
  ~ exists out,
      parse (endToEndChart "01") = Some out /\
      Forall2 noteEquiv (notes out) [mkNote 0 0 tap 0] /\
      out_duration out == (60 / 150) * 4.
Proof.
  intros [out [Hp [_ Hd]]]. vm_compute in Hp. inversion Hp; subst.
  vm_compute in Hd. discriminate.
Qed.

(** *** Hold pairing *)

Section Pairing.

Variable lnType : Z.
Variable tm : Q -> Q.

Lemma filter_snoc {A : Type} (f : A -> bool) (l : list A) (x : A) :
  filter f (l ++ [x]) = filter f l ++ (if f x then [x] else []).
Proof. rewrite filter_app. cbn [filter]. destruct (f x); reflexivity. Qed.

Lemma holdCount_snoc (l : Z) (evs : list ChannelEvent) (ev : ChannelEvent) :
  holdCount l (evs ++ [ev])
  = (holdCount l evs + (if isHoldOf l ev then 1 else 0))%nat.
Proof.
  unfold holdCount. rewrite filter_snoc, length_app.
  destruct (isHoldOf l ev); reflexivity.
Qed.

Lemma lastHold_snoc (l : Z) (evs : list ChannelEvent) (ev : ChannelEvent) :
  lastHold l (evs ++ [ev]) = if isHoldOf l ev then Some ev else lastHold l evs.
Proof.
  unfold lastHold. rewrite filter_snoc, rev_app_distr.
  destruct (isHoldOf l ev); cbn; reflexivity.
Qed.

Lemma lastHold_none (l : Z) (evs : list ChannelEvent) :
  lastHold l evs = None -> holdCount l evs = 0%nat.
Proof.
  unfold lastHold, holdCount. intro H.
  rewrite <- length_rev. destruct (rev (filter (isHoldOf l) evs)); [reflexivity|discriminate].
Qed.

(** In toggle mode a lane is open exactly after an odd number of its
    hold events. *)
Lemma stillOpen_toggle (l : Z) (evs : list ChannelEvent) :
  (lnType =? 2)%Z = false ->
  Nat.odd (holdCount l evs) = match stillOpen lnType l evs with Some _ => true | None => false end.
Proof.
  intro H2. unfold stillOpen. rewrite H2.
  destruct (lastHold l evs) eqn:E.
  - destruct (Nat.odd (holdCount l evs)); reflexivity.
  - rewrite (lastHold_none _ _ E). reflexivity.
Qed.

Lemma stillOpen_snoc_other (l : Z) (evs : list ChannelEvent) (ev : ChannelEvent) :
  isHoldOf l ev = false -> stillOpen lnType l (evs ++ [ev]) = stillOpen lnType l evs.
Proof.
  intro H. unfold stillOpen. rewrite lastHold_snoc, holdCount_snoc, H, Nat.add_0_r.
  reflexivity.
Qed.

Lemma stillOpen_snoc_hold (l : Z) (evs : list ChannelEvent) (ev : ChannelEvent) :
  isHoldOf l ev = true ->
  stillOpen lnType l (evs ++ [ev])
  = if (lnType =? 2)%Z
    then (if String.eqb (valStr ev) "00" then None else Some ev)
    else match stillOpen lnType l evs with Some _ => None | None => Some ev end.
Proof.
  intro H. unfold stillOpen at 1. rewrite lastHold_snoc, holdCount_snoc, H.
  destruct (lnType =? 2)%Z eqn:H2.
  - destruct (String.eqb (valStr ev) "00"); reflexivity.
  - rewrite Nat.add_1_r, Nat.odd_succ, <- Nat.negb_odd, (stillOpen_toggle l evs H2).
    destruct (stillOpen lnType l evs); reflexivity.
Qed.

Lemma pairClosedAt_snoc (evs : list ChannelEvent) (ev : ChannelEvent) (j : nat) :
  (j < List.length evs)%nat ->
  pairClosedAt lnType tm (evs ++ [ev]) j = pairClosedAt lnType tm evs j.
Proof.
  intro H. unfold pairClosedAt.
  rewrite nth_error_app1 by exact H.
  rewrite firstn_app. replace (j - List.length evs)%nat with 0%nat by lia.
  cbn [firstn]. rewrite app_nil_r. reflexivity.
Qed.

Lemma pairClosedAt_last (evs : list ChannelEvent) (ev : ChannelEvent) :
  pairClosedAt lnType tm (evs ++ [ev]) (List.length evs)
  = match ce_type ev with
    | ev_ln =>
      match stillOpen lnType (ce_lane ev) evs with
      | Some eo => [mkNote (tm (beat eo)) (ce_lane ev) ln (tm (beat ev) - tm (beat eo))]
      | None => []
      end
    | _ => []
    end.
Proof.
  unfold pairClosedAt.
  rewrite nth_error_app2 by lia. rewrite Nat.sub_diag. cbn [nth_error].
  rewrite firstn_app, Nat.sub_diag, firstn_all. cbn [firstn]. rewrite app_nil_r.
  reflexivity.
Qed.

Lemma pairedHolds_snoc (evs : list ChannelEvent) (ev : ChannelEvent) :
  pairedHolds lnType tm (evs ++ [ev])
  = pairedHolds lnType tm evs ++ pairClosedAt lnType tm (evs ++ [ev]) (List.length evs).
Proof.
  unfold pairedHolds. rewrite length_app. cbn [List.length].
  rewrite Nat.add_1_r, seq_S, flat_map_app. cbn [flat_map plus]. rewrite app_nil_r.
  f_equal. rewrite !flat_map_concat_map. f_equal.
  apply map_ext_in. intros j Hj. apply in_seq in Hj.
  apply pairClosedAt_snoc. lia.
Qed.

Lemma pairingInv_step (evs : list ChannelEvent) (st : Materialisation) (ev : ChannelEvent) :
  pairingInv lnType tm evs st ->
  pairingInv lnType tm (evs ++ [ev]) (materialiseEvent lnType tm st ev).
Proof.
  intros [Hn Hp]. unfold pairingInv.
  rewrite pairedHolds_snoc, pairClosedAt_last.
  assert (Hsame : ce_type ev <> ev_ln ->
                  forall l, m_pending st l
                            = option_map (fun eo => mkNote (tm (beat eo)) l ln 0)
                                         (stillOpen lnType l (evs ++ [ev]))).
  { intros Hty l. rewrite stillOpen_snoc_other; [apply Hp|].
    unfold isHoldOf. destruct (ce_type ev); [reflexivity|contradiction|reflexivity]. }
  unfold materialiseEvent.
  destruct (ce_type ev) eqn:Hty.
  - (* tap *)
    cbn [m_notes m_pending]. split; [|apply Hsame; discriminate].
    rewrite filter_snoc. cbn [isHoldNote type NoteType_eqb]. rewrite Hn. reflexivity.
  - (* hold *)
    assert (Hhold : isHoldOf (ce_lane ev) ev = true)
      by (unfold isHoldOf; rewrite Hty; apply Z.eqb_refl).
    assert (Hset : forall v,
               v = option_map (fun eo => mkNote (tm (beat eo)) (ce_lane ev) ln 0)
                              (stillOpen lnType (ce_lane ev) (evs ++ [ev])) ->
               forall l, setPending (m_pending st) (ce_lane ev) v l
                         = option_map (fun eo => mkNote (tm (beat eo)) l ln 0)
                                      (stillOpen lnType l (evs ++ [ev]))).
    { intros v Hv l. unfold setPending. destruct (Z.eqb_spec l (ce_lane ev)) as [->|Hne].
      - exact Hv.
      - rewrite stillOpen_snoc_other; [apply Hp|].
        unfold isHoldOf. rewrite Hty. apply Z.eqb_neq. congruence. }
    assert (Hoth : forall l, l <> ce_lane ev ->
               stillOpen lnType l (evs ++ [ev]) = stillOpen lnType l evs).
    { intros l Hne. apply stillOpen_snoc_other.
      unfold isHoldOf. rewrite Hty. apply Z.eqb_neq. congruence. }
    assert (Hnew := stillOpen_snoc_hold _ evs _ Hhold).
    assert (Hkeep : m_pending st (ce_lane ev)
                    = option_map (fun eo => mkNote (tm (beat eo)) (ce_lane ev) ln 0)
                                 (stillOpen lnType (ce_lane ev) (evs ++ [ev])) ->
                    forall l, m_pending st l
                              = option_map (fun eo => mkNote (tm (beat eo)) l ln 0)
                                           (stillOpen lnType l (evs ++ [ev]))).
    { intros H l. destruct (Z.eqb_spec l (ce_lane ev)) as [->|Hne]; [exact H|].
      rewrite Hoth by exact Hne. apply Hp. }
    specialize (Hp (ce_lane ev)) as Hp0.
    rewrite Hnew in Hset, Hkeep.
    destruct (lnType =? 2)%Z.
    + destruct (String.eqb (valStr ev) "00");
        destruct (stillOpen lnType (ce_lane ev) evs) as [eo|];
        cbn [option_map] in Hp0; rewrite Hp0; cbn [m_notes m_pending].
      * split; [|apply Hset; reflexivity].
        rewrite filter_snoc. cbn [isHoldNote close type time lane NoteType_eqb].
        rewrite Hn. reflexivity.
      * split; [rewrite app_nil_r; exact Hn|apply Hkeep; exact Hp0].
      * split; [|apply Hset; reflexivity].
        rewrite filter_snoc. cbn [isHoldNote close type time lane NoteType_eqb].
        rewrite Hn. reflexivity.
      * split; [rewrite app_nil_r; exact Hn|apply Hset; reflexivity].
    + destruct (stillOpen lnType (ce_lane ev) evs) as [eo|];
        cbn [option_map] in Hp0; rewrite Hp0; cbn [m_notes m_pending].
      * split; [|apply Hset; reflexivity].
        rewrite filter_snoc. cbn [isHoldNote close type time lane NoteType_eqb].
        rewrite Hn. reflexivity.
      * split; [rewrite app_nil_r; exact Hn|apply Hset; reflexivity].
  - (* background cue *)
    cbn [m_notes m_pending]. split; [|apply Hsame; discriminate].
    rewrite app_nil_r. exact Hn.
Qed.

Lemma pairingInv_fold (post : list ChannelEvent) :
  forall (pre : list ChannelEvent) (st : Materialisation),
    pairingInv lnType tm pre st ->
    pairingInv lnType tm (pre ++ post) (fold_left (materialiseEvent lnType tm) post st).
Proof.
  induction post as [|ev post IH]; intros pre st H; simpl.
  - rewrite app_nil_r. exact H.
  - replace (pre ++ ev :: post) with ((pre ++ [ev]) ++ post)
      by (rewrite <- app_assoc; reflexivity).
    apply IH. apply pairingInv_step. exact H.
Qed.

(** The materialisation emits the hold notes of the closed pairs, one
    per pair and in the order of the closing events, and keeps the
    opening that is still open in the pending slot of its lane. *)
Lemma materialise_pairs (evs : list ChannelEvent) :
  pairingInv lnType tm evs (materialise lnType tm evs).
Proof.
  apply (pairingInv_fold evs [] (mkMaterialisation [] [] emptyPending)).
  split; reflexivity.
Qed.

(** Where the last hold event of a lane lies. *)
Lemma lastHold_index (l : Z) (evs : list ChannelEvent) (eo : ChannelEvent) :
  lastHold l evs = Some eo ->
  exists i,
    nth_error evs i = Some eo /\ isHoldOf l eo = true /\
    (forall k e, (i < k)%nat -> nth_error evs k = Some e -> isHoldOf l e = false) /\
    holdCount l evs = S (holdCount l (firstn i evs)).
Proof.
  induction evs as [|x evs IH] using rev_ind; [discriminate|].
  rewrite lastHold_snoc. destruct (isHoldOf l x) eqn:Ex.
  - intro H. inversion H; subst. exists (List.length evs).
    split; [rewrite nth_error_app2 by lia; rewrite Nat.sub_diag; reflexivity|].
    split; [exact Ex|]. split.
    + intros k e Hk He.
      assert (Hlen : (k < List.length (evs ++ [eo]))%nat)
        by (apply nth_error_Some; congruence).
      rewrite length_app in Hlen. cbn in Hlen. lia.
    + rewrite holdCount_snoc, Ex, firstn_app, Nat.sub_diag, firstn_all.
      cbn [firstn]. rewrite app_nil_r. lia.
  - intro H. destruct (IH H) as (i & Hi & Ho & Hafter & Hc).
    assert (Hilen : (i < List.length evs)%nat) by (apply nth_error_Some; congruence).
    exists i. split; [rewrite nth_error_app1 by exact Hilen; exact Hi|].
    split; [exact Ho|]. split.
    + intros k e Hk He.
      destruct (Nat.lt_ge_cases k (List.length evs)) as [Hlt|Hge].
      * rewrite nth_error_app1 in He by exact Hlt. apply (Hafter k e Hk He).
      * rewrite nth_error_app2 in He by exact Hge.
        destruct (k - List.length evs)%nat as [|k']; cbn in He.
        -- inversion He; subst. exact Ex.
        -- destruct k'; discriminate.
    + rewrite holdCount_snoc, Ex, Nat.add_0_r, firstn_app.
      replace (i - List.length evs)%nat with 0%nat by lia.
      cbn [firstn]. rewrite app_nil_r. exact Hc.
Qed.

Lemma isHoldOf_spec (l : Z) (e : ChannelEvent) :
  isHoldOf l e = true <-> holdEventOf l e.
Proof.
  unfold isHoldOf, holdEventOf. destruct (ce_type e).
  - split; [discriminate|intros [H _]; discriminate].
  - rewrite Z.eqb_eq. tauto.
  - split; [discriminate|intros [H _]; discriminate].
Qed.

(** The opening that is still open, by position. *)
Lemma stillOpen_index (l : Z) (evs : list ChannelEvent) (eo : ChannelEvent) :
  stillOpen lnType l evs = Some eo ->
  exists i,
    nth_error evs i = Some eo /\ holdEventOf l eo /\ opens lnType evs i eo /\
    (forall k e, (i < k)%nat -> nth_error evs k = Some e -> ~ holdEventOf l e).
Proof.
  unfold stillOpen. destruct (lastHold l evs) as [e|] eqn:El; [|discriminate].
  destruct (lastHold_index l evs e El) as (i & Hi & Ho & Hafter & Hc).
  intro H.
  assert (He : e = eo /\
               (if (lnType =? 2)%Z then negb (String.eqb (valStr e) "00")
                else Nat.odd (holdCount l evs)) = true :> bool).
  { destruct (if (lnType =? 2)%Z then negb (String.eqb (valStr e) "00")
              else Nat.odd (holdCount l evs)); [|discriminate].
    inversion H. split; reflexivity. }
  destruct He as [<- Hcond].
  apply isHoldOf_spec in Ho as Hho.
  exists i. split; [exact Hi|]. split; [exact Hho|]. split.
  - unfold opens. destruct (lnType =? 2)%Z.
    + apply negb_true_iff in Hcond. apply String.eqb_neq. exact Hcond.
    + rewrite (proj2 Hho). rewrite Hc, Nat.odd_succ in Hcond. exact Hcond.
  - intros k e' Hk He' Habs. apply isHoldOf_spec in Habs.
    rewrite (Hafter k e' Hk He') in Habs. discriminate.
Qed.

(** A note of the closed pairs comes from a matched pair. *)
Lemma pairedHolds_matched (evs : list ChannelEvent) (n : Note) :
  In n (pairedHolds lnType tm evs) -> type n = ln /\ matched lnType tm evs n.
Proof.
  unfold pairedHolds. intro H. apply in_flat_map in H.
  destruct H as (j & Hj & Hn). apply in_seq in Hj. unfold pairClosedAt in Hn.
  destruct (nth_error evs j) as [ec|] eqn:Ej; [|destruct Hn].
  destruct (ce_type ec) eqn:Ety; try destruct Hn.
  destruct (stillOpen lnType (ce_lane ec) (firstn j evs)) as [eo|] eqn:Eo; [|destruct Hn].
  destruct Hn as [<-|[]]. split; [reflexivity|].
  destruct (stillOpen_index _ _ _ Eo) as (i & Hi & Ho & Hop & Hafter).
  assert (Hij : (i < j)%nat).
  { assert (Hlen : (i < List.length (firstn j evs))%nat)
      by (apply nth_error_Some; congruence).
    rewrite length_firstn in Hlen. lia. }
  assert (Hfirst : forall k, (k < j)%nat -> nth_error (firstn j evs) k = nth_error evs k).
  { intros k Hk. rewrite nth_error_firstn.
    destruct (Nat.ltb_spec k j); [reflexivity|lia]. }
  exists i, j, eo, ec. cbn [lane time duration].
  split; [exact Hij|]. split; [rewrite <- Hfirst by exact Hij; exact Hi|].
  split; [exact Ej|]. split; [exact Ho|]. split; [split; [exact Ety|reflexivity]|].
  split.
  - unfold opens in *. destruct (lnType =? 2)%Z; [exact Hop|].
    rewrite firstn_firstn in Hop. replace (Nat.min i j) with i in Hop by lia. exact Hop.
  - split; [|split; reflexivity].
    intros k e Hk He. apply (Hafter k e (proj1 Hk)).
    rewrite Hfirst by apply Hk. exact He.
Qed.

End Pairing.

Lemma materialise_paired (lnType : Z) (tm : Q -> Q) (evs : list ChannelEvent) (n : Note) :
  In n (m_notes (materialise lnType tm evs)) -> type n = ln -> matched lnType tm evs n.
Proof.
  intros Hin Hty.
  assert (Hf : In n (filter isHoldNote (m_notes (materialise lnType tm evs)))).
  { apply filter_In. split; [exact Hin|]. unfold isHoldNote. rewrite Hty. reflexivity. }
  rewrite (proj1 (materialise_pairs lnType tm evs)) in Hf.
  apply (pairedHolds_matched lnType tm evs n Hf).
Qed.

(** An opening that arrives last, on a lane with nothing pending, only
    fills the pending slot: no note is emitted for it. *)
Lemma dangling_opening_emits_nothing (lnType : Z) (tm : Q -> Q)
      (evs : list ChannelEvent) (ev : ChannelEvent) :
  ce_type ev = ev_ln ->
  m_pending (materialise lnType tm evs) (ce_lane ev) = None ->
  (lnType = 2%Z -> valStr ev <> "00"%string) ->
  m_notes (materialise lnType tm (evs ++ [ev])) = m_notes (materialise lnType tm evs) /\
  m_pending (materialise lnType tm (evs ++ [ev])) (ce_lane ev)
  = Some (mkNote (tm (beat ev)) (ce_lane ev) ln 0).
Proof.
  intros Hty Hnone Hval. unfold materialise in *. rewrite fold_left_app. simpl.
  set (st := fold_left (materialiseEvent lnType tm) evs
                       (mkMaterialisation [] [] emptyPending)) in *.
  unfold materialiseEvent. rewrite Hty, Hnone.
  destruct (Z.eqb_spec lnType 2) as [H2|H2].
  - destruct (String.eqb_spec (valStr ev) "00") as [E|E]; [exfalso; apply (Hval H2 E)|].
    simpl. unfold setPending. rewrite Z.eqb_refl. split; reflexivity.
  - simpl. unfold setPending. rewrite Z.eqb_refl. split; reflexivity.
Qed.

(** C8.  In the output of the compiler the hold notes are those of the
    open/close pairs of hold events, one note per pair: every hold note
    comes from a matched pair of its lane, an event that opens a hold and
    the next hold event of that lane, which closes it, with the note's
    time the time of the opening and its duration the difference of the
    two times, not the placeholder.  A start still pending when the
    events are used up is an opening without a later hold event in its
    lane; it is in no pair, so no note is emitted for it, and an opening
    that is left pending adds nothing to the emitted notes. *)
Theorem C8_hold_notes_are_matched_pairs
        (initialBPM0 : Q) (lnType : Z)
        (timeEvents : list TimeEvent) (channelEvents : list ChannelEvent)
        (out : Output) :
  compileEvents initialBPM0 lnType timeEvents channelEvents = Some out ->
  exists st,
    integrate initialBPM0 (sort_by byBeatTE timeEvents) (sort_by byBeat channelEvents)
    = Some st /\
    let tm := timeOf (beatToTime st) in
    let evs := sort_by byBeat channelEvents in
    Permutation (filter isHoldNote (notes out)) (pairedHolds lnType tm evs) /\
    (forall n, In n (notes out) -> type n = ln -> matched lnType tm evs n) /\
    (forall n, In n (pairedHolds lnType tm evs) -> In n (notes out)) /\
    (forall l p, m_pending (materialise lnType tm evs) l = Some p ->
                 unmatchedOpening lnType tm evs l p) /\
    (forall evs' ev,
       ce_type ev = ev_ln ->
       m_pending (materialise lnType tm evs') (ce_lane ev) = None ->
       (lnType = 2%Z -> valStr ev <> "00"%string) ->
       m_notes (materialise lnType tm (evs' ++ [ev]))
       = m_notes (materialise lnType tm evs')).
Proof.
  unfold compileEvents. intro H.
  destruct (integrate initialBPM0 (sort_by byBeatTE timeEvents)
                      (sort_by byBeat channelEvents)) as [st|] eqn:Ei; [|discriminate].
  inversion H; subst; clear H. exists st. split; [reflexivity|].
  cbv zeta. cbn [notes].
  destruct (materialise_pairs lnType (timeOf (beatToTime st))
                              (sort_by byBeat channelEvents)) as [Hn Hp].
  split; [|split; [|split; [|split]]].
  - rewrite <- Hn. apply filter_Permutation. apply Permutation_sym.
    apply sort_by_Permutation.
  - intros n Hin Hty. apply In_sort_by in Hin. apply materialise_paired; assumption.
  - intros n Hin. apply In_sort_by. rewrite <- Hn in Hin.
    apply filter_In in Hin. tauto.
  - intros l p Hl. rewrite Hp in Hl.
    destruct (stillOpen lnType l (sort_by byBeat channelEvents)) as [eo|] eqn:Eo;
      [|discriminate].
    cbn [option_map] in Hl. inversion Hl; subst; clear Hl.
    destruct (stillOpen_index lnType l _ eo Eo) as (i & Hi & Ho & Hop & Hafter).
    exists i, eo. repeat split; try assumption; apply Ho.
  - intros evs' ev Hty Hnone Hval.
    apply (dangling_opening_emits_nothing lnType _ evs' ev Hty Hnone Hval).
Qed.

Lemma C8_hold_notes_are_matched_pairs_witness :
  let ces := [mkChannelEvent 0 ev_ln 0 "AA"; mkChannelEvent 1 ev_ln 0 "AA";
              mkChannelEvent 3 ev_ln 0 "AA"; mkChannelEvent 4 ev_ln 0 "AA";
              mkChannelEvent 2 ev_ln 1 "BB"]%string in
  exists out,
    compileEvents 120 1 [] ces = Some out /\
    map (fun n => Qred (duration n)) (filter isHoldNote (notes out)) = [1 # 2; 1 # 2] /\
    exists st,
      integrate 120 (sort_by byBeatTE []) (sort_by byBeat ces) = Some st /\
      let tm := timeOf (beatToTime st) in
      let evs := sort_by byBeat ces in
      Permutation (filter isHoldNote (notes out)) (pairedHolds 1 tm evs) /\
      (forall n, In n (notes out) -> type n = ln -> matched 1 tm evs n) /\
      (forall n, In n (pairedHolds 1 tm evs) -> In n (notes out)) /\
      (forall l p, m_pending (materialise 1 tm evs) l = Some p ->
                   unmatchedOpening 1 tm evs l p) /\
      (forall evs' ev,
         ce_type ev = ev_ln ->
         m_pending (materialise 1 tm evs') (ce_lane ev) = None ->
         (1%Z = 2%Z -> valStr ev <> "00"%string) ->
         m_notes (materialise 1 tm (evs' ++ [ev]))
         = m_notes (materialise 1 tm evs')).
Proof.
  intro ces.
  destruct (compileEvents 120 1 [] ces) as [out|] eqn:E.
  - exists out. split; [reflexivity|]. split.
    + vm_compute in E. inversion E; subst. vm_compute. reflexivity.
    + exact (C8_hold_notes_are_matched_pairs 120 1 [] ces out E).
  - vm_compute in E. discriminate E.
Defined.

(** *** Lanes of the compiled notes *)

Lemma materialiseEvent_lanes (lnType : Z) (tm : Q -> Q)
      (st : Materialisation) (ev : ChannelEvent) :
  (ce_type ev <> ev_bgm -> laneOk (ce_lane ev)) ->
  (forall n, In n (m_notes st) -> laneOk (lane n)) ->
  (forall l p, m_pending st l = Some p -> laneOk (lane p)) ->
  (forall n, In n (m_notes (materialiseEvent lnType tm st ev)) -> laneOk (lane n)) /\
  (forall l p, m_pending (materialiseEvent lnType tm st ev) l = Some p -> laneOk (lane p)).
Proof.
  intros Hev Hn Hp.
  assert (Hpush : forall x, laneOk (lane x) ->
                  forall n, In n (m_notes st ++ [x]) -> laneOk (lane n)).
  { intros x Hx n Hin. apply in_app_or in Hin. destruct Hin as [Hin|[<-|[]]]; auto. }
  assert (Hset : forall v, (forall p, v = Some p -> laneOk (lane p)) ->
                 forall l p, setPending (m_pending st) (ce_lane ev) v l = Some p ->
                             laneOk (lane p)).
  { intros v Hv l p. unfold setPending. destruct (l =? ce_lane ev)%Z; [apply Hv|apply Hp]. }
  unfold materialiseEvent. destruct (ce_type ev) eqn:Hty.
  - split; simpl; [|exact Hp]. apply Hpush. simpl. apply Hev. discriminate.
  - assert (Hl : laneOk (ce_lane ev)) by (apply Hev; discriminate).
    assert (Hopen : forall p, Some (mkNote (tm (beat ev)) (ce_lane ev) ln 0) = Some p ->
                              laneOk (lane p))
      by (intros p Hv; inversion Hv; subst; exact Hl).
    destruct (lnType =? 2)%Z; [destruct (String.eqb (valStr ev) "00")|];
      destruct (m_pending st (ce_lane ev)) as [startNote|] eqn:Hpl; simpl;
      try (split; [exact Hn|exact Hp]);
      try (split; [exact Hn|apply Hset; exact Hopen]);
      (split; [apply Hpush; simpl; apply (Hp _ _ Hpl)|apply Hset]);
      try discriminate; exact Hopen.
  - split; simpl; assumption.
Qed.

Lemma materialise_lanes (lnType : Z) (tm : Q -> Q) (evs : list ChannelEvent) :
  Forall (fun e => ce_type e <> ev_bgm -> laneOk (ce_lane e)) evs ->
  forall n, In n (m_notes (materialise lnType tm evs)) -> laneOk (lane n).
Proof.
  intro Hevs. unfold materialise.
  assert (H : forall st,
             (forall n, In n (m_notes st) -> laneOk (lane n)) ->
             (forall l p, m_pending st l = Some p -> laneOk (lane p)) ->
             forall n, In n (m_notes (fold_left (materialiseEvent lnType tm) evs st)) ->
                       laneOk (lane n)).
  { induction Hevs as [|ev evs Hev Hevs IH]; intros st Hn Hp; simpl; [exact Hn|].
    destruct (materialiseEvent_lanes lnType tm st ev Hev Hn Hp) as [Hn' Hp'].
    apply IH; assumption. }
  apply H; [intros n []|]. intros l p Hlp. discriminate.
Qed.

(** Every compiled note lies in one of the lanes 0..6. *)
Lemma parse_lanes (c : Chart) (out : Output) :
  parse c = Some out -> forall n, In n (notes out) -> laneOk (lane n).
Proof.
  unfold parse. destruct (measureStartBeats c) as [msb|]; [|discriminate].
  pose proof (scanChart_lanes c msb) as Hscan.
  destruct (scanChart c msb) as [timeEvents channelEvents]. simpl in Hscan.
  unfold compileEvents.
  destruct (integrate _ _ _) as [st|]; [|discriminate].
  intro H. inversion H; subst; clear H. simpl. intros n Hin.
  apply In_sort_by in Hin. revert n Hin. apply materialise_lanes.
  rewrite Forall_forall in Hscan.
  apply Forall_forall. intros e He. apply In_sort_by in He. apply Hscan. exact He.
Qed.

(** *** Stops *)

Lemma Qltb_compat (a a' b b' : Q) : a == a' -> b == b' -> Qltb a b = Qltb a' b'.
Proof. intros Ha Hb. unfold Qltb. rewrite Ha, Hb. reflexivity. Qed.

Lemma eps_value : 1e-6 == 1 # 1000000.
Proof. reflexivity. Qed.

Lemma distinct_snoc (l : list Q) (x : Q) :
  distinct l -> (forall y, In y l -> ~ y == x) -> distinct (l ++ [x]).
Proof.
  induction l as [|a l IH]; simpl; intros Hd Hx.
  - split; [intros y []|exact I].
  - destruct Hd as [Ha Hd]. split.
    + intros y Hy. apply in_app_or in Hy. destruct Hy as [Hy|[<-|[]]].
      * apply Ha. exact Hy.
      * apply Hx. left. reflexivity.
    + apply IH; [exact Hd|]. intros y Hy. apply Hx. right. exact Hy.
Qed.

Lemma setAdd_spec (b : Q) (s : list Q) :
  distinct s ->
  distinct (setAdd b s) /\
  (forall x, In x (setAdd b s) -> In x s \/ x = b) /\
  (forall x, In x s -> In x (setAdd b s)) /\
  (exists k, In k (setAdd b s) /\ k == b).
Proof.
  intro Hd. unfold setAdd. destruct (existsb (Qeq_bool b) s) eqn:E.
  - repeat split; auto.
    apply existsb_exists in E. destruct E as [k [Hk Hkb]].
    exists k. split; [exact Hk|]. apply Qeq_bool_iff in Hkb. symmetry. exact Hkb.
  - repeat split.
    + apply distinct_snoc; [exact Hd|]. intros y Hy Heq.
      assert (existsb (Qeq_bool b) s = true); [|congruence].
      apply existsb_exists. exists y. split; [exact Hy|].
      apply Qeq_bool_iff. symmetry. exact Heq.
    + intros x Hx. apply in_app_or in Hx. destruct Hx as [Hx|[<-|[]]]; auto.
    + intros x Hx. apply in_or_app. left. exact Hx.
    + exists b. split; [apply in_or_app; right; left; reflexivity|reflexivity].
Qed.

Lemma fold_setAdd_spec (l : list Q) :
  forall s, distinct s ->
    let r := fold_left (fun s b => setAdd b s) l s in
    distinct r /\
    (forall x, In x r -> In x s \/ In x l) /\
    (forall x, In x s -> In x r) /\
    (forall x, In x l -> exists k, In k r /\ k == x).
Proof.
  induction l as [|b l IH]; intros s Hd; simpl.
  - repeat split; auto. intros x [].
  - destruct (setAdd_spec b s Hd) as (Hd1 & Hin1 & Hkeep1 & Hex1).
    destruct (IH (setAdd b s) Hd1) as (Hd2 & Hin2 & Hkeep2 & Hex2).
    repeat split.
    + exact Hd2.
    + intros x Hx. apply Hin2 in Hx. destruct Hx as [Hx|Hx]; [|auto].
      apply Hin1 in Hx. destruct Hx as [Hx| ->]; auto.
    + intros x Hx. apply Hkeep2, Hkeep1, Hx.
    + intros x [<-|Hx].
      * destruct Hex1 as [k [Hk Hkb]]. exists k. split; [apply Hkeep2; exact Hk|exact Hkb].
      * apply Hex2. exact Hx.
Qed.

Lemma criticalBeats_spec (tes : list TimeEvent) (ces : list ChannelEvent) :
  let r := criticalBeats tes ces in
  distinct r /\
  (forall x, In x r -> x = 0 \/ In x (map te_beat tes) \/ In x (map beat ces)) /\
  (forall x, In x (map te_beat tes) \/ In x (map beat ces) -> exists k, In k r /\ k == x).
Proof.
  unfold criticalBeats.
  assert (Hd0 : distinct (setAdd 0 [])) by (simpl; split; [intros y []|exact I]).
  destruct (fold_setAdd_spec (map te_beat tes ++ map beat ces) (setAdd 0 []) Hd0)
    as (Hd & Hin & Hkeep & Hex).
  repeat split.
  - exact Hd.
  - intros x Hx. apply Hin in Hx. destruct Hx as [[<-|[]]|Hx]; [left; reflexivity|].
    right. apply in_app_or. exact Hx.
  - intros x Hx. apply Hex. apply in_or_app. exact Hx.
Qed.

Lemma insert_by_sorted (x : Q) (l : list Q) :
  StronglySorted Qlt l -> (forall y, In y l -> ~ x == y) ->
  StronglySorted Qlt (insert_by Qltb x l).
Proof.
  induction l as [|y l IH]; intros Hs Hx; simpl.
  - constructor; constructor.
  - inversion Hs as [|? ? Hs' Hy]; subst.
    destruct (Qltb y x) eqn:E.
    + apply Qltb_lt in E. constructor.
      * apply IH; [exact Hs'|]. intros z Hz. apply Hx. right. exact Hz.
      * apply Forall_forall. intros z Hz. apply In_insert_by in Hz.
        destruct Hz as [->|Hz]; [exact E|].
        rewrite Forall_forall in Hy. apply Hy. exact Hz.
    + apply Qltb_ge in E.
      assert (Hlt : x < y).
      { destruct (Qlt_le_dec x y) as [H|H]; [exact H|].
        exfalso. apply (Hx y (or_introl eq_refl)). apply Qle_antisym; assumption. }
      constructor; [exact Hs|].
      constructor; [exact Hlt|].
      rewrite Forall_forall in *. intros z Hz. apply Qlt_trans with y; [exact Hlt|].
      apply Hy. exact Hz.
Qed.

Lemma sort_by_sorted (l : list Q) :
  distinct l -> StronglySorted Qlt (sort_by Qltb l).
Proof.
  induction l as [|x l IH]; simpl; intros Hd; [constructor|].
  destruct Hd as [Hx Hd]. apply insert_by_sorted; [apply IH; exact Hd|].
  intros y Hy. apply In_sort_by in Hy. apply Hx. exact Hy.
Qed.

Lemma spb120 : 60.0 / 120 == 1 # 2.
Proof. reflexivity. Qed.

Lemma integrateBeat_idle (lb lt : Q) (m : list (Q * Q)) (bp : list BpmPoint)
      (sp : list StopEvent) (b : Q) :
  integrateBeat (mkIntegration lb lt 120 [] m bp sp) b
  = Some (mkIntegration b (lt + (b - lb) * (60.0 / 120)) 120 []
                        (m ++ [(b, lt + (b - lb) * (60.0 / 120))]) bp sp).
Proof. reflexivity. Qed.

(** With no time event left and tempo 120, every beat gets half a
    second per beat on top of what has been accumulated. *)
Lemma integrate_after (bs : list Q) :
  forall (lb lt : Q) (m : list (Q * Q)) (bp : list BpmPoint) (sp : list StopEvent),
  exists lb' lt' m',
    integrateBeats (mkIntegration lb lt 120 [] m bp sp) bs
    = Some (mkIntegration lb' lt' 120 [] m' bp sp) /\
    map fst m' = map fst m ++ bs /\
    lt' - lb' * (1 # 2) == lt - lb * (1 # 2) /\
    (forall k t, In (k, t) m' ->
       In (k, t) m \/ (In k bs /\ t == k * (1 # 2) + (lt - lb * (1 # 2)))).
Proof.
  induction bs as [|b bs IH]; intros lb lt m bp sp.
  - exists lb, lt, m. simpl. rewrite app_nil_r. repeat split; auto; try reflexivity.
  - cbn [integrateBeats]. rewrite integrateBeat_idle.
    remember (lt + (b - lb) * (60.0 / 120)) as t eqn:Et.
    assert (Ht : t == lt + (b - lb) * (1 # 2)) by (rewrite Et, spb120; reflexivity).
    clear Et.
    destruct (IH b t (m ++ [(b, t)]) bp sp) as (lb' & lt' & m' & Hrun & Hkeys & Hoff & Hent).
    exists lb', lt', m'. split; [exact Hrun|]. split; [|split].
    + rewrite Hkeys, map_app, <- app_assoc. reflexivity.
    + rewrite Hoff. lra.
    + intros k t' Hin. apply Hent in Hin. destruct Hin as [Hin|[Hk Ht']].
      * apply in_app_or in Hin. destruct Hin as [Hin|[Heq|[]]]; [left; exact Hin|].
        inversion Heq; subst. right. split; [left; reflexivity|]. lra.
      * right. split; [right; exact Hk|]. rewrite Ht'. lra.
Qed.

Lemma near_iff (sb b : Q) : sb == 4 ->
  (Qltb (Qabs (sb - b)) 1e-6 = true <-> 4 - (1 # 1000000) < b /\ b < 4 + (1 # 1000000)).
Proof.
  intro Hsb. rewrite Qltb_lt. rewrite eps_value.
  rewrite Qabs_Qlt_condition. split; intros [H1 H2]; split; lra.
Qed.

Lemma integrateBeat_stop (sb sv lb lt : Q) (m : list (Q * Q)) (bp : list BpmPoint) (b : Q) :
  Qltb (Qabs (sb - b)) 1e-6 = true ->
  integrateBeat (mkIntegration lb lt 120 [mkTimeEvent sb stop (Some sv)] m bp []) b
  = Some (mkIntegration b
            (lt + (b - lb) * (60.0 / 120) + sv / 48.0 * (60.0 / 120)) 120 []
            (m ++ [(b, lt + (b - lb) * (60.0 / 120))]) bp
            [mkStopEvent (lt + (b - lb) * (60.0 / 120)) (sv / 48.0 * (60.0 / 120))]).
Proof.
  intro E. unfold integrateBeat.
  cbn [currentBPM pending lastBeat lastTime beatToTime i_bpms i_stops].
  change (Qeq_bool 120 0) with false. cbv iota.
  cbn [processEvents te_beat te_type te_value currentBPM pending lastBeat lastTime
       beatToTime i_bpms i_stops].
  rewrite E. change (Qeq_bool 120 0) with false. reflexivity.
Qed.

Lemma integrateBeat_wait (sb sv lb lt : Q) (m : list (Q * Q)) (bp : list BpmPoint) (b : Q) :
  Qltb (Qabs (sb - b)) 1e-6 = false ->
  integrateBeat (mkIntegration lb lt 120 [mkTimeEvent sb stop (Some sv)] m bp []) b
  = Some (mkIntegration b (lt + (b - lb) * (60.0 / 120)) 120
            [mkTimeEvent sb stop (Some sv)]
            (m ++ [(b, lt + (b - lb) * (60.0 / 120))]) bp []).
Proof.
  intro E. unfold integrateBeat.
  cbn [currentBPM pending lastBeat lastTime beatToTime i_bpms i_stops].
  change (Qeq_bool 120 0) with false. cbv iota.
  cbn [processEvents te_beat te_type te_value currentBPM pending lastBeat lastTime
       beatToTime i_bpms i_stops].
  rewrite E. reflexivity.
Qed.

(** With the stop of 48 ticks still to come at beat 4 and tempo 120:
    the stop is applied at the first beat [bstop] that lies within
    [1e-6] beats of beat 4; the beats up to [bstop] get half a second per
    beat, the later beats get half a second more. *)
Lemma integrate_before (sb sv : Q) :
  sb == 4 -> sv == 48 ->
  forall (bs : list Q) (lb lt : Q) (m : list (Q * Q)) (bp : list BpmPoint),
    StronglySorted Qlt bs ->
    (exists b4, In b4 bs /\ b4 == 4) ->
    exists lb' lt' m' s bstop,
      integrateBeats (mkIntegration lb lt 120 [mkTimeEvent sb stop (Some sv)] m bp []) bs
      = Some (mkIntegration lb' lt' 120 [] m' bp [s]) /\
      map fst m' = map fst m ++ bs /\
      In bstop bs /\ 4 - (1 # 1000000) < bstop /\ bstop <= 4 /\
      stop_time s == bstop * (1 # 2) + (lt - lb * (1 # 2)) /\
      stop_duration s == 1 # 2 /\
      lt' - lb' * (1 # 2) == lt - lb * (1 # 2) + (1 # 2) /\
      (forall k t, In (k, t) m' ->
         In (k, t) m \/
         (In k bs /\
          t == k * (1 # 2) + (lt - lb * (1 # 2)) + (if Qltb bstop k then 1 # 2 else 0))).
Proof.
  intros Hsb Hsv.
  induction bs as [|b bs IH]; intros lb lt m bp Hsorted [b4 [Hb4 Hb4eq]].
  - destruct Hb4.
  - inversion Hsorted as [|? ? Hsorted' Hhead]; subst.
    rewrite Forall_forall in Hhead.
    cbn [integrateBeats].
    destruct (Qltb (Qabs (sb - b)) 1e-6) eqn:E.
    + (* the stop is applied here *)
      rewrite (integrateBeat_stop sb sv lb lt m bp b E).
      remember (lt + (b - lb) * (60.0 / 120)) as t eqn:Et.
      assert (Ht : t == lt + (b - lb) * (1 # 2)) by (rewrite Et, spb120; reflexivity).
      clear Et.
      remember (sv / 48.0 * (60.0 / 120)) as d eqn:Ed.
      assert (Hd : d == 1 # 2) by (rewrite Ed, Hsv; reflexivity).
      clear Ed.
      assert (Hb : b <= 4).
      { destruct Hb4 as [<-|Hin]; [rewrite Hb4eq; apply Qle_refl|].
        apply Qlt_le_weak. rewrite <- Hb4eq. apply Hhead. exact Hin. }
      apply (near_iff sb b Hsb) in E. destruct E as [Hlow _].
      destruct (integrate_after bs b (t + d) (m ++ [(b, t)]) bp [mkStopEvent t d])
        as (lb' & lt' & m' & Hrun & Hkeys & Hoff & Hent).
      exists lb', lt', m', (mkStopEvent t d), b.
      split; [exact Hrun|].
      split; [rewrite Hkeys, map_app, <- app_assoc; reflexivity|].
      split; [left; reflexivity|]. split; [exact Hlow|]. split; [exact Hb|].
      split; [simpl; lra|]. split; [exact Hd|]. split; [rewrite Hoff; lra|].
      intros k t' Hin. apply Hent in Hin. destruct Hin as [Hin|[Hk Ht']].
      * apply in_app_or in Hin. destruct Hin as [Hin|[Heq|[]]]; [left; exact Hin|].
        inversion Heq; subst k t'. right. split; [left; reflexivity|].
        assert (Hf : Qltb b b = false) by (apply Qltb_ge; apply Qle_refl).
        rewrite Hf. lra.
      * right. split; [right; exact Hk|].
        assert (Hlt : Qltb b k = true) by (apply Qltb_lt; apply Hhead; exact Hk).
        rewrite Hlt, Ht'. lra.
    + (* not yet *)
      rewrite (integrateBeat_wait sb sv lb lt m bp b E).
      remember (lt + (b - lb) * (60.0 / 120)) as t eqn:Et.
      assert (Ht : t == lt + (b - lb) * (1 # 2)) by (rewrite Et, spb120; reflexivity).
      clear Et.
      assert (Hb4' : In b4 bs).
      { destruct Hb4 as [<-|Hin]; [|exact Hin]. exfalso.
        assert (Hn : Qltb (Qabs (sb - b)) 1e-6 = true); [|congruence].
        apply near_iff; [exact Hsb|]. lra. }
      destruct (IH b t (m ++ [(b, t)]) bp Hsorted')
        as (lb' & lt' & m' & s & bstop & Hrun & Hkeys & Hin & Hlow & Hup & Hst & Hsd & Hoff & Hent).
      { exists b4. split; assumption. }
      exists lb', lt', m', s, bstop.
      split; [exact Hrun|].
      split; [rewrite Hkeys, map_app, <- app_assoc; reflexivity|].
      split; [right; exact Hin|]. split; [exact Hlow|]. split; [exact Hup|].
      split; [rewrite Hst; lra|]. split; [exact Hsd|]. split; [rewrite Hoff; lra|].
      intros k t' Hin'. apply Hent in Hin'. destruct Hin' as [Hin'|[Hk Ht']].
      * apply in_app_or in Hin'. destruct Hin' as [Hin'|[Heq|[]]]; [left; exact Hin'|].
        inversion Heq; subst k t'. right. split; [left; reflexivity|].
        assert (Hf : Qltb bstop b = false)
          by (apply Qltb_ge; apply Qlt_le_weak; apply Hhead; exact Hin).
        rewrite Hf. lra.
      * right. split; [right; exact Hk|]. rewrite Ht'.
        destruct (Qltb bstop k); lra.
Qed.

Lemma delayed_compat (theta a b : Q) : a == b -> delayed theta a == delayed theta b.
Proof.
  intro H. unfold delayed. rewrite (Qltb_compat theta theta a b (Qeq_refl theta) H).
  destruct (Qltb theta b); rewrite H; reflexivity.
Qed.

Lemma delayed_lt (theta a b : Q) :
  Qltb (delayed theta a) (delayed theta b) = Qltb a b.
Proof.
  unfold delayed.
  destruct (Qltb theta a) eqn:Ea; destruct (Qltb theta b) eqn:Eb;
    destruct (Qltb a b) eqn:Eab; cbv beta iota;
    repeat match goal with
           | H : Qltb _ _ = true |- _ => apply Qltb_lt in H
           | H : Qltb _ _ = false |- _ => apply Qltb_ge in H
           end;
    first [reflexivity | apply Qltb_lt; lra | apply Qltb_ge; lra].
Qed.

Lemma delayed_half (bstop b : Q) :
  delayed (bstop * (1 # 2)) (b * (1 # 2))
  == b * (1 # 2) + (if Qltb bstop b then 1 # 2 else 0).
Proof.
  unfold delayed.
  destruct (Qltb (bstop * (1 # 2)) (b * (1 # 2))) eqn:E2;
    destruct (Qltb bstop b) eqn:E4; cbv beta iota;
    repeat match goal with
           | H : Qltb _ _ = true |- _ => apply Qltb_lt in H
           | H : Qltb _ _ = false |- _ => apply Qltb_ge in H
           end; lra.
Qed.

Lemma lookup_found (m : list (Q * Q)) (b : Q) :
  (exists k, In k (map fst m) /\ k == b) ->
  exists k t, In (k, t) m /\ k == b /\ lookup Qeq_bool b m = Some t.
Proof.
  induction m as [|[k0 t0] m IH]; intros [k [Hk Hkb]]; simpl in *; [contradiction|].
  destruct (Qeq_bool b k0) eqn:E.
  - exists k0, t0. apply Qeq_bool_iff in E. repeat split; auto. symmetry. exact E.
  - destruct Hk as [->|Hk].
    + exfalso. assert (Qeq_bool b k = true); [|congruence].
      apply Qeq_bool_iff. symmetry. exact Hkb.
    + destruct IH as (k' & t' & Hin & Hk' & Hl); [exists k; auto|].
      exists k', t'. auto.
Qed.

(** Every beat that the materialisation looks up has been set by the
    integration loop: the default of [timeOf] is never used. *)
Lemma processEvents_beatToTime (b tb : Q) (tes : list TimeEvent) :
  forall st st', processEvents b tb tes st = Some st' ->
                 beatToTime st' = beatToTime st.
Proof.
  induction tes as [|ev tes IH]; intros st st' H; cbn [processEvents] in H.
  - inversion H; subst. reflexivity.
  - destruct (Qltb (Qabs (te_beat ev - b)) 1e-6).
    + destruct (te_type ev); destruct (te_value ev) as [v|]; try discriminate.
      * apply IH in H. exact H.
      * destruct (Qeq_bool (currentBPM st) 0); [discriminate|].
        apply IH in H. exact H.
    + inversion H; subst. reflexivity.
Qed.

Lemma integrateBeats_keys (bs : list Q) :
  forall st st', integrateBeats st bs = Some st' ->
                 map fst (beatToTime st') = map fst (beatToTime st) ++ bs.
Proof.
  induction bs as [|b bs IH]; intros st st' H; cbn [integrateBeats] in H.
  - inversion H; subst. rewrite app_nil_r. reflexivity.
  - destruct (integrateBeat st b) as [st1|] eqn:E; [|discriminate].
    apply IH in H. rewrite H. clear H IH.
    unfold integrateBeat in E.
    destruct (Qeq_bool (currentBPM st) 0); [discriminate|].
    destruct (processEvents _ _ _ _) as [st2|] eqn:Ep; [|discriminate].
    apply processEvents_beatToTime in Ep. inversion E; subst. simpl.
    rewrite Ep. simpl. rewrite map_app, <- app_assoc. reflexivity.
Qed.

Lemma timeOf_defined (initialBPM0 : Q) (tes : list TimeEvent)
      (ces : list ChannelEvent) (st : Integration) :
  integrate initialBPM0 tes ces = Some st ->
  forall e, In e ces ->
    exists t, lookup Qeq_bool (beat e) (beatToTime st) = Some t.
Proof.
  unfold integrate. intros H e He.
  apply integrateBeats_keys in H. simpl in H.
  destruct (criticalBeats_spec tes ces) as (_ & _ & Hex).
  destruct (Hex (beat e)) as [k [Hk Hkb]]; [right; apply in_map; exact He|].
  destruct (lookup_found (beatToTime st) (beat e)) as (k' & t & _ & _ & Hl).
  { exists k. split; [|exact Hkb]. rewrite H.
    unfold sortedBeats. apply In_sort_by. exact Hk. }
  exists t. exact Hl.
Qed.

(** Without time events, at tempo 120, an event at beat [b] is at
    [b / 2] seconds. *)
Lemma timeline_without_stop (ces : list ChannelEvent) :
  exists st,
    integrate 120 [] ces = Some st /\ i_stops st = [] /\
    forall e, In e ces -> timeOf (beatToTime st) (beat e) == beat e * (1 # 2).
Proof.
  unfold integrate.
  destruct (integrate_after (sortedBeats [] ces) 0 0 [] [mkBpmPoint 0 120] [])
    as (lb' & lt' & m' & Hrun & Hkeys & Hoff & Hent).
  eexists. split; [exact Hrun|]. split; [reflexivity|].
  intros e He. cbn [beatToTime].
  destruct (criticalBeats_spec [] ces) as (_ & _ & Hex).
  destruct (Hex (beat e)) as [k [Hk Hkb]]; [right; apply in_map; exact He|].
  destruct (lookup_found m' (beat e)) as (k' & t & Hin & Hk' & Hl).
  { exists k. split; [|exact Hkb]. rewrite Hkeys. simpl.
    unfold sortedBeats. apply In_sort_by. exact Hk. }
  unfold timeOf. rewrite Hl.
  apply Hent in Hin. destruct Hin as [[]|[_ Ht]]. rewrite Ht, Hk'. lra.
Qed.

(** With the stop, an event at beat [b] is half a second later when it
    lies after the beat [bstop] at which the stop is applied; [bstop] is
    beat 4 unless another event lies within [1e-6] beats before it. *)
Lemma timeline_with_stop (sb sv : Q) (ces : list ChannelEvent) :
  sb == 4 -> sv == 48 ->
  exists st s bstop,
    integrate 120 [mkTimeEvent sb stop (Some sv)] ces = Some st /\
    i_stops st = [s] /\
    4 - (1 # 1000000) < bstop /\ bstop <= 4 /\
    ((forall e, In e ces -> ~ (4 - 1e-6 < beat e /\ beat e < 4)) -> bstop == 4) /\
    stop_time s == bstop * (1 # 2) /\ stop_duration s == 1 # 2 /\
    forall e, In e ces ->
      timeOf (beatToTime st) (beat e)
      == beat e * (1 # 2) + (if Qltb bstop (beat e) then 1 # 2 else 0).
Proof.
  intros Hsb Hsv. unfold integrate.
  set (tes := [mkTimeEvent sb stop (Some sv)]).
  destruct (criticalBeats_spec tes ces) as (Hdist & Hin & Hex).
  destruct (integrate_before sb sv Hsb Hsv (sortedBeats tes ces) 0 0 []
                             [mkBpmPoint 0 120])
    as (lb' & lt' & m' & s & bstop & Hrun & Hkeys & Hbs & Hlow & Hup & Hst & Hsd & Hoff & Hent).
  - apply sort_by_sorted. exact Hdist.
  - destruct (Hex sb) as [k [Hk Hkb]]; [left; left; reflexivity|].
    exists k. split; [unfold sortedBeats; apply In_sort_by; exact Hk|].
    rewrite Hkb. exact Hsb.
  - exists (mkIntegration lb' lt' 120 [] m' [mkBpmPoint 0 120] [s]), s, bstop.
    split; [exact Hrun|]. split; [reflexivity|].
    split; [exact Hlow|]. split; [exact Hup|]. split; [|split; [rewrite Hst; lra|]].
    { intro Hwin. unfold sortedBeats in Hbs. apply In_sort_by in Hbs.
      apply Hin in Hbs. destruct Hbs as [->|[Hb|Hb]].
      - exfalso. lra.
      - simpl in Hb. destruct Hb as [<-|[]]. exact Hsb.
      - apply in_map_iff in Hb. destruct Hb as [e [<- He]].
        apply Qle_antisym; [exact Hup|].
        apply Qnot_lt_le. intro Hlt. apply (Hwin e He). split; [|exact Hlt].
        rewrite eps_value. exact Hlow. }
    split; [exact Hsd|].
    intros e He. cbn [beatToTime].
    destruct (Hex (beat e)) as [k [Hk Hkb]]; [right; apply in_map; exact He|].
    destruct (lookup_found m' (beat e)) as (k' & t & Hin' & Hk' & Hl).
    { exists k. split; [|exact Hkb]. rewrite Hkeys. simpl.
      unfold sortedBeats. apply In_sort_by. exact Hk. }
    unfold timeOf. rewrite Hl.
    apply Hent in Hin'. destruct Hin' as [[]|[_ Ht]].
    rewrite Ht, (Qltb_compat bstop bstop k' (beat e) (Qeq_refl bstop) Hk'), Hk'.
    destruct (Qltb bstop (beat e)); lra.
Qed.

(** The two materialisations run in step. *)
Lemma materialiseEvent_shifted (theta : Q) (lnType : Z) (tm1 tm0 : Q -> Q)
      (s1 s0 : Materialisation) (ev : ChannelEvent) :
  tm1 (beat ev) == delayed theta (tm0 (beat ev)) ->
  Forall2 (stopShifted theta) (m_notes s1) (m_notes s0) ->
  pendingShifted theta (m_pending s1) (m_pending s0) ->
  Forall2 (stopShifted theta) (m_notes (materialiseEvent lnType tm1 s1 ev))
                              (m_notes (materialiseEvent lnType tm0 s0 ev)) /\
  pendingShifted theta (m_pending (materialiseEvent lnType tm1 s1 ev))
                       (m_pending (materialiseEvent lnType tm0 s0 ev)).
Proof.
  intros Ht Hn Hp.
  assert (Hopen : stopShifted theta (mkNote (tm1 (beat ev)) (ce_lane ev) ln 0)
                                    (mkNote (tm0 (beat ev)) (ce_lane ev) ln 0)).
  { repeat split; simpl; [exact Ht|].
    rewrite Ht. rewrite Qplus_0_r. apply delayed_compat. lra. }
  assert (Htap : stopShifted theta (mkNote (tm1 (beat ev)) (ce_lane ev) tap 0)
                                   (mkNote (tm0 (beat ev)) (ce_lane ev) tap 0)).
  { repeat split; simpl; [exact Ht|].
    rewrite Ht. rewrite Qplus_0_r. apply delayed_compat. lra. }
  assert (Hclose : forall a b, stopShifted theta a b ->
            stopShifted theta (close a (tm1 (beat ev))) (close b (tm0 (beat ev)))).
  { intros a b (Hl & Hty & Hti & _). unfold close. repeat split; simpl; auto.
    setoid_replace (time a + (tm1 (beat ev) - time a)) with (tm1 (beat ev)) by lra.
    rewrite Ht. apply delayed_compat. lra. }
  assert (Hset : forall v1 v0,
            match v1, v0 with
            | Some a, Some b => stopShifted theta a b
            | None, None => True
            | _, _ => False
            end ->
            pendingShifted theta (setPending (m_pending s1) (ce_lane ev) v1)
                                 (setPending (m_pending s0) (ce_lane ev) v0)).
  { intros v1 v0 Hv l. unfold setPending. destruct (l =? ce_lane ev)%Z; [exact Hv|apply Hp]. }
  assert (Hpush : forall a b, stopShifted theta a b ->
            Forall2 (stopShifted theta) (m_notes s1 ++ [a]) (m_notes s0 ++ [b])).
  { intros a b Hab. apply Forall2_app; [exact Hn|]. constructor; [exact Hab|constructor]. }
  pose proof (Hp (ce_lane ev)) as Hpl.
  unfold materialiseEvent.
  destruct (ce_type ev).
  - split; simpl; [apply Hpush; exact Htap|exact Hp].
  - destruct (lnType =? 2)%Z; [destruct (String.eqb (valStr ev) "00")|];
      destruct (m_pending s1 (ce_lane ev)) as [a|];
      destruct (m_pending s0 (ce_lane ev)) as [b|]; try contradiction; simpl;
      try (split; [apply Hpush; apply Hclose; exact Hpl|apply Hset; exact I]);
      try (split; [apply Hpush; apply Hclose; exact Hpl|apply Hset; exact Hopen]);
      try (split; [exact Hn|apply Hset; exact Hopen]);
      try (split; [exact Hn|exact Hp]).
  - split; simpl; [exact Hn|exact Hp].
Qed.

Lemma materialise_shifted (theta : Q) (lnType : Z) (tm1 tm0 : Q -> Q)
      (evs : list ChannelEvent) :
  (forall e, In e evs -> tm1 (beat e) == delayed theta (tm0 (beat e))) ->
  Forall2 (stopShifted theta) (m_notes (materialise lnType tm1 evs))
                              (m_notes (materialise lnType tm0 evs)).
Proof.
  intro Ht. unfold materialise.
  assert (H : forall s1 s0,
             Forall2 (stopShifted theta) (m_notes s1) (m_notes s0) ->
             pendingShifted theta (m_pending s1) (m_pending s0) ->
             Forall2 (stopShifted theta)
               (m_notes (fold_left (materialiseEvent lnType tm1) evs s1))
               (m_notes (fold_left (materialiseEvent lnType tm0) evs s0))).
  { induction evs as [|ev evs IH]; intros s1 s0 Hn Hp; simpl; [exact Hn|].
    destruct (materialiseEvent_shifted theta lnType tm1 tm0 s1 s0 ev) as [Hn' Hp'];
      [apply Ht; left; reflexivity|exact Hn|exact Hp|].
    apply IH; [|exact Hn'|exact Hp']. intros e He. apply Ht. right. exact He. }
  apply H; [constructor|]. intro l. exact I.
Qed.

Lemma insert_by_Forall2 {A B : Type} (R : A -> B -> Prop)
      (lt1 : A -> A -> bool) (lt0 : B -> B -> bool) :
  (forall a1 a0 b1 b0, R a1 a0 -> R b1 b0 -> lt1 a1 b1 = lt0 a0 b0) ->
  forall x1 x0 l1 l0, R x1 x0 -> Forall2 R l1 l0 ->
                      Forall2 R (insert_by lt1 x1 l1) (insert_by lt0 x0 l0).
Proof.
  intros Hlt x1 x0 l1 l0 Hx Hl.
  induction Hl as [|y1 y0 l1 l0 Hy Hl IH]; simpl.
  - constructor; [exact Hx|constructor].
  - rewrite (Hlt y1 y0 x1 x0 Hy Hx). destruct (lt0 y0 x0).
    + constructor; assumption.
    + constructor; [exact Hx|]. constructor; assumption.
Qed.

Lemma sort_by_Forall2 {A B : Type} (R : A -> B -> Prop)
      (lt1 : A -> A -> bool) (lt0 : B -> B -> bool) :
  (forall a1 a0 b1 b0, R a1 a0 -> R b1 b0 -> lt1 a1 b1 = lt0 a0 b0) ->
  forall l1 l0, Forall2 R l1 l0 -> Forall2 R (sort_by lt1 l1) (sort_by lt0 l0).
Proof.
  intros Hlt l1 l0 Hl. induction Hl as [|x1 x0 l1 l0 Hx Hl IH]; simpl.
  - constructor.
  - apply insert_by_Forall2; assumption.
Qed.

Lemma byTime_shifted (theta : Q) (a1 a0 b1 b0 : Note) :
  stopShifted theta a1 a0 -> stopShifted theta b1 b0 -> byTime a1 b1 = byTime a0 b0.
Proof.
  intros (_ & _ & Ha & _) (_ & _ & Hb & _). unfold byTime.
  rewrite (Qltb_compat _ _ _ _ Ha Hb). apply delayed_lt.
Qed.

Lemma stopShifted_time (theta : Q) (n1 n0 : Note) :
  theta <= 2 ->
  stopShifted theta n1 n0 ->
  (2 < time n0 -> time n1 == time n0 + (1 # 2)) /\
  (time n0 <= theta -> time n1 == time n0).
Proof.
  intros Hth (_ & _ & Ht & _). unfold delayed in Ht.
  destruct (Qltb theta (time n0)) eqn:E.
  - apply Qltb_lt in E. split; intro H; [exact Ht|lra].
  - apply Qltb_ge in E. split; intro H; [lra|exact Ht].
Qed.

(** C3.  Tempo 120 throughout and one stop of 48 ticks at beat 4.  The
    stop list is one stop lasting 0.5 s (one beat at tempo 120), at the
    time [theta] of the beat where it is applied: 2 s, the time of beat
    4, unless another event lies within [1e-6] beats before beat 4.
    Without the stop an event at beat [b] is at [b / 2] seconds; with
    the stop it is exactly 0.5 s later when [4 < b], and at the same
    time when it is not after the stop.  The two note lists correspond
    note by note, same lane and kind: a note that starts after 2 s
    (beat 4) in the chart without the stop starts exactly 0.5 s later
    in the chart with it, and a note that starts at or before [theta]
    (so a note at beat 4 itself) starts at the same time. *)
Theorem C3_stop_delays_later_notes_by_half_a_second
        (lnType : Z) (sb sv : Q) (ces : list ChannelEvent) :
  sb == 4 -> sv == 48 ->
  exists out0 out1 s theta,
    compileEvents 120 lnType [] ces = Some out0 /\
    compileEvents 120 lnType [mkTimeEvent sb stop (Some sv)] ces = Some out1 /\
    stops out0 = [] /\
    stops out1 = [s] /\ stop_time s == theta /\ stop_duration s == 1 # 2 /\
    2 - (1 # 2000000) < theta /\ theta <= 2 /\
    ((forall e, In e ces -> ~ (4 - 1e-6 < beat e /\ beat e < 4)) -> theta == 2) /\
    Forall2 (stopShifted theta) (notes out1) (notes out0) /\
    Forall2 (fun n1 n0 =>
               (2 < time n0 -> time n1 == time n0 + (1 # 2)) /\
               (time n0 <= theta -> time n1 == time n0))
            (notes out1) (notes out0) /\
    exists st0 st1,
      integrate 120 [] (sort_by byBeat ces) = Some st0 /\
      integrate 120 [mkTimeEvent sb stop (Some sv)] (sort_by byBeat ces) = Some st1 /\
      forall e, In e ces ->
        timeOf (beatToTime st0) (beat e) == beat e * (1 # 2) /\
        (4 < beat e ->
         timeOf (beatToTime st1) (beat e) == timeOf (beatToTime st0) (beat e) + (1 # 2)) /\
        (beat e * (1 # 2) <= theta ->
         timeOf (beatToTime st1) (beat e) == timeOf (beatToTime st0) (beat e)).
Proof.
  intros Hsb Hsv.
  set (evs := sort_by byBeat ces).
  assert (Hevs : forall e, In e evs <-> In e ces) by (intro e; apply In_sort_by).
  destruct (timeline_without_stop evs) as (st0 & Hi0 & Hs0 & Ht0).
  destruct (timeline_with_stop sb sv evs Hsb Hsv)
    as (st1 & s & bstop & Hi1 & Hs1 & Hlow & Hup & Hexact & Hst & Hsd & Ht1).
  assert (Hnotes : Forall2 (stopShifted (bstop * (1 # 2)))
            (sort_by byTime (m_notes (materialise lnType (timeOf (beatToTime st1)) evs)))
            (sort_by byTime (m_notes (materialise lnType (timeOf (beatToTime st0)) evs)))).
  { apply sort_by_Forall2; [exact (byTime_shifted (bstop * (1 # 2)))|].
    apply materialise_shifted. intros e He.
    rewrite (Ht1 e He). rewrite (delayed_compat _ _ _ (Ht0 e He)).
    symmetry. apply delayed_half. }
  assert (Hth : bstop * (1 # 2) <= 2) by lra.
  unfold compileEvents. cbn [sort_by fold_right insert_by]. fold evs.
  rewrite Hi0, Hi1.
  eexists. eexists. exists s, (bstop * (1 # 2)).
  split; [reflexivity|]. split; [reflexivity|].
  cbn [stops notes].
  split; [exact Hs0|]. split; [exact Hs1|]. split; [exact Hst|]. split; [exact Hsd|].
  split; [lra|]. split; [exact Hth|].
  split.
  { intro Hwin. rewrite Hexact; [reflexivity|].
    intros e He. apply Hwin. apply Hevs. exact He. }
  split; [exact Hnotes|]. split.
  - revert Hnotes. apply Forall2_impl. intros n1 n0. apply stopShifted_time. exact Hth.
  - exists st0, st1. split; [reflexivity|]. split; [reflexivity|].
    intros e He. apply Hevs in He. split; [apply Ht0; exact He|].
    rewrite (Ht1 e He), (Ht0 e He). split; intro H.
    + assert (Hlt : Qltb bstop (beat e) = true) by (apply Qltb_lt; lra).
      rewrite Hlt. reflexivity.
    + assert (Hge : Qltb bstop (beat e) = false) by (apply Qltb_ge; lra).
      rewrite Hge. lra.
Qed.

Lemma C3_stop_delays_later_notes_by_half_a_second_witness :
  let ces := [mkChannelEvent 4 ev_note 0 "01"; mkChannelEvent 8 ev_note 0 "01"]%string in
  exists out0 out1 s theta,
    compileEvents 120 1 [] ces = Some out0 /\
    compileEvents 120 1 [mkTimeEvent 4 stop (Some 48)] ces = Some out1 /\
    stops out0 = [] /\
    stops out1 = [s] /\ stop_time s == theta /\ stop_duration s == 1 # 2 /\
    2 - (1 # 2000000) < theta /\ theta <= 2 /\
    ((forall e, In e ces -> ~ (4 - 1e-6 < beat e /\ beat e < 4)) -> theta == 2) /\
    Forall2 (stopShifted theta) (notes out1) (notes out0) /\
    Forall2 (fun n1 n0 =>
               (2 < time n0 -> time n1 == time n0 + (1 # 2)) /\
               (time n0 <= theta -> time n1 == time n0))
            (notes out1) (notes out0) /\
    exists st0 st1,
      integrate 120 [] (sort_by byBeat ces) = Some st0 /\
      integrate 120 [mkTimeEvent 4 stop (Some 48)] (sort_by byBeat ces) = Some st1 /\
      forall e, In e ces ->
        timeOf (beatToTime st0) (beat e) == beat e * (1 # 2) /\
        (4 < beat e ->
         timeOf (beatToTime st1) (beat e) == timeOf (beatToTime st0) (beat e) + (1 # 2)) /\
        (beat e * (1 # 2) <= theta ->
         timeOf (beatToTime st1) (beat e) == timeOf (beatToTime st0) (beat e)).
Proof.
  intro ces.
  apply (C3_stop_delays_later_notes_by_half_a_second 1 4 48 ces); reflexivity.
Defined.

(** C3, as first stated, fails on the chart with [#STOP01 48], the stop
    and a tap at the start of measure 1 (beat 4) and a tap at the start
    of measure 2 (beat 8): the stop lasts 0.5 s, not 1.0 s; the note at
    beat 4 is at 2 s with and without the stop; the note at beat 8 is
    0.5 s later, not 1.0 s. *)
Lemma C3_stop_is_half_a_second_and_spares_beat_4 :
  exists out0 out1 s n4 n8 m4 m8,
    parse noStopChart = Some out0 /\ parse stopChart = Some out1 /\
    stops out1 = [s] /\ notes out1 = [n4; n8] /\ notes out0 = [m4; m8] /\
    stop_duration s == 1 # 2 /\ ~ stop_duration s == 1 /\
    time m4 == 2 /\ time n4 == time m4 /\ ~ time n4 == time m4 + 1 /\
    time m8 == 4 /\ time n8 == time m8 + (1 # 2) /\ ~ time n8 == time m8 + 1.
Proof.
  do 7 eexists.
  split; [vm_compute; reflexivity|]. split; [vm_compute; reflexivity|].
  split; [reflexivity|]. split; [reflexivity|]. split; [reflexivity|].
  cbn [stop_duration time].
  repeat split; try reflexivity; intro H; vm_compute in H; discriminate.
Qed.

End Compiler.

(** ** From the compiler to the engine *)

Section Remapping.

Import RhythmGame.

Lemma usedLanes_has_spec (notes : list BMSParser.Note) (l : Z) :
  usedLanes_has notes l = true <-> usesLane notes l.
Proof.
  unfold usedLanes_has, usesLane. rewrite existsb_exists.
  split; intros [n [Hin Hl]]; exists n; (split; [exact Hin|]); apply Z.eqb_eq; exact Hl.
Qed.

(** One note: what the callback and the filter of [start] make of it is
    what [remapSpec] says. *)
Lemma keep_or_drop (all : list BMSParser.Note) (n : BMSParser.Note) :
  (if (lane (toRuntime all n) <? 4)%Z then [toRuntime all n] else [])
  = match remapSpec (usedLanes_has all 3) (usedLanes_has all 4) n with
    | Some k => [playedAs n k]
    | None => []
    end.
Proof.
  unfold toRuntime, remapLane, remapSpec, playedAs. cbn [lane].
  destruct (usedLanes_has all 3), (usedLanes_has all 4);
    destruct (BMSParser.lane n <? 4)%Z eqn:H4;
    destruct (BMSParser.lane n =? 4)%Z eqn:E4;
    destruct (BMSParser.lane n =? 5)%Z eqn:E5;
    cbn; rewrite ?H4, ?E4, ?E5; cbn; rewrite ?H4, ?E4, ?E5; try reflexivity;
    exfalso;
    repeat match goal with
           | H : (_ <? _)%Z = true |- _ => apply Z.ltb_lt in H
           | H : (_ <? _)%Z = false |- _ => apply Z.ltb_ge in H
           | H : (_ =? _)%Z = true |- _ => apply Z.eqb_eq in H
           | H : (_ =? _)%Z = false |- _ => apply Z.eqb_neq in H
           end; lia.
Qed.

(** The map-then-filter of [start] is the case distinction of
    [remapSpec]. *)
Lemma prepare_refines (all l : list BMSParser.Note) :
  filter (fun n => (lane n <? 4)%Z) (map (toRuntime all) l)
  = flat_map (fun n =>
                match remapSpec (usedLanes_has all 3) (usedLanes_has all 4) n with
                | Some k => [playedAs n k]
                | None => []
                end) l.
Proof.
  induction l as [|n l IH]; [reflexivity|].
  cbn [map filter flat_map]. rewrite <- keep_or_drop, IH.
  destruct (lane (toRuntime all n) <? 4)%Z; reflexivity.
Qed.

(** C10.  For the notes of a compiled chart, the runtime notes that
    [start] prepares all lie in lanes 0..3, and they are the compiled
    notes, in order, each one kept or dropped by the rule: a note of lane
    0..3 is kept as it is; a note of lane 4 is kept, as lane 3, only if no
    compiled note uses lane 3; a note of lane 5 is kept, as lane 3, only
    if no compiled note uses lane 3 or lane 4; any other note is dropped. *)
Theorem C10_start_remaps_and_filters_lanes (c : BMSParser.Chart) (out : BMSParser.Output) :
  BMSParser.parse c = Some out ->
  let compiled := BMSParser.notes out in
  let used3 := usedLanes_has compiled 3 in
  let used4 := usedLanes_has compiled 4 in
  (used3 = true <-> usesLane compiled 3) /\
  (used4 = true <-> usesLane compiled 4) /\
  (forall r, In r (runtimeNotes (start compiled false)) -> (0 <= lane r <= 3)%Z) /\
  runtimeNotes (start compiled false)
  = flat_map (fun n => match remapSpec used3 used4 n with
                       | Some k => [playedAs n k]
                       | None => []
                       end) compiled.
Proof.
  intros Hparse compiled used3 used4.
  split; [apply usedLanes_has_spec|]. split; [apply usedLanes_has_spec|].
  split.
  - simpl. unfold prepareNotes. intros r Hin. apply filter_In in Hin.
    destruct Hin as [Hin Hlt]. apply Z.ltb_lt in Hlt. split; [|lia].
    apply in_map_iff in Hin. destruct Hin as [n [<- Hn]].
    pose proof (parse_lanes c out Hparse n Hn) as Hok. unfold laneOk in Hok.
    unfold toRuntime, remapLane. cbn [lane].
    repeat match goal with
           | |- context [if ?b then _ else _] => destruct b
           end; lia.
  - simpl. unfold prepareNotes. apply prepare_refines.
Qed.

Lemma C10_start_remaps_and_filters_lanes_witness :
  let c := BMSParser.mkChart None None
             [(0%nat, [("11", "01"); ("17", "01"); ("18", "01"); ("19", "01")])]%string
             [] [] in
  exists out,
    BMSParser.parse c = Some out /\
    map BMSParser.lane (BMSParser.notes out) = [0; 4; 5; 6]%Z /\
    map lane (runtimeNotes (start (BMSParser.notes out) false)) = [0; 3]%Z /\
    (forall r, In r (runtimeNotes (start (BMSParser.notes out) false)) ->
               (0 <= lane r <= 3)%Z).
Proof.
  intro c.
  destruct (BMSParser.parse c) as [out|] eqn:E.
  - exists out. split; [reflexivity|].
    pose proof (C10_start_remaps_and_filters_lanes c out E) as H.
    vm_compute in E. inversion E; subst; clear E.
    split; [reflexivity|]. split; [reflexivity|].
    exact (proj1 (proj2 (proj2 H))).
  - vm_compute in E. discriminate E.
Defined.

End Remapping.

(** * Further properties *)

(** ** The judgment engine, continued *)

Section JudgmentTiers.
Import RhythmGame.

(** *** Judgment tiers *)

Lemma Qle_bool_true (a b : Q) : Qle_bool a b = true <-> a <= b.
Proof. apply Qle_bool_iff. Qed.

Ltac bools_to_props :=
  repeat match goal with
         | H : Qle_bool _ _ = true |- _ => apply Qle_bool_iff in H
         | H : Qle_bool _ _ = false |- _ => apply Qle_bool_false in H
         | H : Qltb _ _ = true |- _ => apply Qltb_lt in H
         | H : Qltb _ _ = false |- _ => apply Qltb_ge in H
         end.

(** X1.  The tier depends on the size of the offset only: COOL up to 50
    ms, GOOD from 51 to 85 ms, BAD from 86 to 108 ms, MISS for everything
    else, which includes the offsets strictly between 50 and 51 ms and
    strictly between 85 and 86 ms. *)
Theorem X1_classify_windows (m : Q) :
  (classify m = COOL <-> Qabs m <= 50) /\
  (classify m = GOOD <-> 51 <= Qabs m /\ Qabs m <= 85) /\
  (classify m = BAD <-> 86 <= Qabs m /\ Qabs m <= 108) /\
  (classify m = MISS <->
   (50 < Qabs m /\ Qabs m < 51) \/ (85 < Qabs m /\ Qabs m < 86) \/ 108 < Qabs m).
Proof.
  assert (Habs : (0 <= m /\ Qabs m == m) \/ (m < 0 /\ Qabs m == - m)).
  { destruct (Qlt_le_dec m 0) as [H|H].
    - right. split; [exact H|]. apply Qabs_neg. apply Qlt_le_weak. exact H.
    - left. split; [exact H|]. apply Qabs_pos. exact H. }
  unfold classify.
  destruct (Qle_bool (-50) m) eqn:E1; destruct (Qle_bool m 50) eqn:E2;
    destruct (Qle_bool 51 m) eqn:E3; destruct (Qle_bool m 85) eqn:E4;
    destruct (Qle_bool (-85) m) eqn:E5; destruct (Qle_bool m (-51)) eqn:E6;
    destruct (Qle_bool 86 m) eqn:E7; destruct (Qle_bool m 108) eqn:E8;
    destruct (Qle_bool (-108) m) eqn:E9; destruct (Qle_bool m (-86)) eqn:E10;
    destruct (Qltb 108 m) eqn:E11; cbn [andb orb];
    bools_to_props;
    try (exfalso; lra);
    destruct Habs as [[Hs Ha]|[Hs Ha]]; rewrite Ha;
    try (exfalso; lra);
    (split; [|split; [|split]]; (split; intro Hx);
     try discriminate Hx; try reflexivity;
     try (exfalso; lra); try lra;
     try (left; lra); try (right; left; lra); try (right; right; lra)).
Qed.

End JudgmentTiers.

Section Presses.
Import RhythmGame.

Lemma indexed_from_sorted {A : Type} (l : list A) :
  forall k, StronglySorted (fun a b : nat * A => (fst a < fst b)%nat) (indexed_from k l).
Proof.
  induction l as [|y l IH]; intro k; simpl; constructor.
  - apply IH.
  - apply Forall_forall. intros [i x] Hin. apply In_indexed_from in Hin. simpl. lia.
Qed.

Lemma filter_StronglySorted {A : Type} (R : A -> A -> Prop) (f : A -> bool) (l : list A) :
  StronglySorted R l -> StronglySorted R (filter f l).
Proof.
  induction 1 as [|x l Hs IH Hx]; simpl; [constructor|].
  destruct (f x); [|exact IH]. constructor; [exact IH|].
  rewrite Forall_forall in *. intros y Hy. apply filter_In in Hy. apply Hx. tauto.
Qed.

Lemma StronglySorted_middle {A : Type} (R : A -> A -> Prop) (pre post : list A) (x : A) :
  StronglySorted R (pre ++ x :: post) ->
  (forall y, In y pre -> R y x) /\ (forall y, In y post -> R x y).
Proof.
  induction pre as [|a pre IH]; simpl; intro H.
  - inversion H as [|? ? _ Hx]; subst. rewrite Forall_forall in Hx.
    split; [intros y []|exact Hx].
  - inversion H as [|? ? Hs Ha]; subst. destruct (IH Hs) as [H1 H2].
    rewrite Forall_forall in Ha. split; [|exact H2].
    intros y [<-|Hy]; [|apply H1; exact Hy].
    apply Ha. apply in_or_app. right. left. reflexivity.
Qed.

(** The head of a stable sort by a key is the first element of least
    key. *)
Lemma sort_by_head {A : Type} (key : A -> Q) (l : list A) :
  forall x rest,
    sort_by (fun a b => Qltb (key a) (key b)) l = x :: rest ->
    exists pre post,
      l = pre ++ x :: post /\
      (forall y, In y pre -> key x < key y) /\
      (forall y, In y post -> key x <= key y).
Proof.
  induction l as [|a l IH]; intros x rest H; simpl in H; [discriminate|].
  destruct (sort_by (fun a b => Qltb (key a) (key b)) l) as [|h r] eqn:Es.
  - assert (l = []).
    { destruct l as [|b l']; [reflexivity|]. simpl in Es.
      exfalso. apply (insert_by_not_nil _ _ _ Es). }
    subst l. simpl in H. inversion H; subst.
    exists [], []. repeat split; intros y [].
  - destruct (IH h r eq_refl) as (pre & post & Hl & Hpre & Hpost).
    simpl in H. destruct (Qltb (key h) (key a)) eqn:E.
    + inversion H; subst x. apply Qltb_lt in E.
      exists (a :: pre), post. split; [rewrite Hl; reflexivity|].
      split; [|exact Hpost].
      intros y [<-|Hy]; [exact E|apply Hpre; exact Hy].
    + inversion H; subst x. apply Qltb_ge in E.
      exists [], l. split; [reflexivity|]. split; [intros y []|].
      intros y Hy. rewrite Hl in Hy. apply in_app_or in Hy.
      destruct Hy as [Hy|[<-|Hy]].
      * apply Qle_trans with (key h); [exact E|]. apply Qlt_le_weak. apply Hpre. exact Hy.
      * exact E.
      * apply Qle_trans with (key h); [exact E|]. apply Hpost. exact Hy.
Qed.

Lemma checkHit_nearest (lane0 : Z) (t : Q) (g : Game) :
  ((forall n, In n (runtimeNotes g) -> isCandidate lane0 t n = false) /\
   checkHit lane0 t g = g) \/
  exists j target,
    nth_error (runtimeNotes g) j = Some target /\
    isCandidate lane0 t target = true /\
    (forall i n, nth_error (runtimeNotes g) i = Some n ->
                 isCandidate lane0 t n = true ->
                 distance t target <= distance t n /\
                 (distance t n <= distance t target -> (j <= i)%nat)) /\
    runtimeNotes (checkHit lane0 t g)
    = replace_at j (pressedNote t target) (runtimeNotes g) /\
    (forall i, i <> j ->
               nth_error (runtimeNotes (checkHit lane0 t g)) i
               = nth_error (runtimeNotes g) i) /\
    stats (checkHit lane0 t g) = pressedStats lane0 t target (stats g).
Proof.
  unfold checkHit.
  destruct (candidates lane0 t (runtimeNotes g)) as [|c cs] eqn:Ec.
  - left. split; [|reflexivity]. intros n Hn.
    unfold candidates in Ec. rewrite filter_nil_iff in Ec.
    apply In_nth_error in Hn. destruct Hn as [i Hi].
    apply (Ec (i, n)). apply (In_indexed_from_conv _ 0 i n Hi).
  - right.
    destruct (sort_by (closer t) (c :: cs)) as [|[j target] rest] eqn:Es.
    { exfalso. simpl in Es. apply (insert_by_not_nil _ _ _ Es). }
    destruct (sort_by_head (fun p : nat * Note => distance t (snd p)) (c :: cs)
                           (j, target) rest Es) as (pre & post & Hsplit & Hpre & Hpost).
    assert (Hsorted : StronglySorted (fun a b : nat * Note => (fst a < fst b)%nat)
                                     (pre ++ (j, target) :: post)).
    { rewrite <- Hsplit, <- Ec. unfold candidates.
      apply filter_StronglySorted. apply indexed_from_sorted. }
    destruct (StronglySorted_middle _ _ _ _ Hsorted) as [Hbefore Hafter].
    assert (Hin : In (j, target) (candidates lane0 t (runtimeNotes g))).
    { rewrite Ec, Hsplit. apply in_or_app. right. left. reflexivity. }
    unfold candidates in Hin. apply filter_In in Hin. destruct Hin as [Hidx Hcand].
    apply In_indexed in Hidx. simpl in Hcand.
    exists j, target. split; [exact Hidx|]. split; [exact Hcand|].
    split; [|split; [|split]].
    + intros i n Hi Hc.
      assert (Hmem : In (i, n) (pre ++ (j, target) :: post)).
      { rewrite <- Hsplit, <- Ec. unfold candidates. apply filter_In.
        split; [apply (In_indexed_from_conv _ 0 i n Hi)|exact Hc]. }
      apply in_app_or in Hmem. destruct Hmem as [Hm|[Hm|Hm]].
      * specialize (Hpre _ Hm). specialize (Hbefore _ Hm). simpl in *.
        split; [apply Qlt_le_weak; exact Hpre|].
        intro Hle. exfalso. apply (Qlt_not_le _ _ Hpre Hle).
      * inversion Hm; subst. split; [apply Qle_refl|]. intros _. lia.
      * specialize (Hpost _ Hm). specialize (Hafter _ Hm). simpl in *.
        split; [exact Hpost|]. intros _. lia.
    + unfold pressedNote, triggerMiss.
      destruct (classify ((t - time target) * 1000)); destruct (type target); reflexivity.
    + intros i Hne.
      assert (Hr : forall x, nth_error (replace_at j x (runtimeNotes g)) i
                             = nth_error (runtimeNotes g) i)
        by (intro x; apply nth_error_replace_at_ne; congruence).
      unfold triggerMiss.
      destruct (classify ((t - time target) * 1000)); destruct (type target);
        simpl; apply Hr.
    + unfold pressedStats, triggerMiss.
      destruct (classify ((t - time target) * 1000)); destruct (type target); reflexivity.
Qed.

(** X2.  A press either finds no candidate and changes nothing, or
    judges exactly one note: the candidate (same lane, neither hit nor
    missed, closer than 150 ms) nearest to the clock reading, the earliest
    in the note list among equally near ones.  That note becomes missed,
    hit (tap) or held (hold) according to the tier of its offset; every
    other note is left as it was. *)
Theorem X2_press_judges_nearest_candidate (lane0 : Z) (t : Q) (g : Game) :
  ((forall n, In n (runtimeNotes g) -> isCandidate lane0 t n = false) /\
   checkHit lane0 t g = g) \/
  exists j target,
    nth_error (runtimeNotes g) j = Some target /\
    isCandidate lane0 t target = true /\
    (forall i n, nth_error (runtimeNotes g) i = Some n ->
                 isCandidate lane0 t n = true ->
                 distance t target <= distance t n /\
                 (distance t n <= distance t target -> (j <= i)%nat)) /\
    runtimeNotes (checkHit lane0 t g)
    = replace_at j (pressedNote t target) (runtimeNotes g) /\
    (forall i, i <> j ->
               nth_error (runtimeNotes (checkHit lane0 t g)) i
               = nth_error (runtimeNotes g) i) /\
    stats (checkHit lane0 t g) = pressedStats lane0 t target (stats g).
Proof. exact (checkHit_nearest lane0 t g). Qed.

(** *** What no event changes *)

Lemma sameCompiled_refl (n : Note) : sameCompiled n n.
Proof. repeat split. Qed.

Lemma sameCompiled_trans (a b c : Note) :
  sameCompiled a b -> sameCompiled b c -> sameCompiled a c.
Proof. unfold sameCompiled. intuition congruence. Qed.

Lemma updateNote_sameCompiled (demo : bool) (t : Q) (s : Stats) (n : Note) :
  sameCompiled n (snd (updateNote demo t s n)).
Proof.
  unfold updateNote, triggerMiss.
  repeat match goal with
         | |- context [if ?b then _ else _] => destruct b
         | |- context [match type ?x with _ => _ end] => destruct (type x) eqn:?
         end; simpl; repeat split.
Qed.

Lemma updateNotes_sameCompiled (demo : bool) (t : Q) (l : list Note) :
  forall s, Forall2 sameCompiled l (snd (updateNotes demo t s l)).
Proof.
  induction l as [|n l IH]; intro s; simpl; [constructor|].
  pose proof (updateNote_sameCompiled demo t s n) as Hn.
  destruct (updateNote demo t s n) as [s1 n1].
  specialize (IH s1). destruct (updateNotes demo t s1 l) as [s2 rest].
  constructor; assumption.
Qed.

Lemma Forall2_refl_list {A : Type} (R : A -> A -> Prop) (l : list A) :
  (forall x, R x x) -> Forall2 R l l.
Proof. intro H. induction l; constructor; auto. Qed.

Lemma replace_at_Forall2 {A : Type} (R : A -> A -> Prop) (l : list A) :
  (forall x, R x x) ->
  forall j y x, nth_error l j = Some y -> R y x -> Forall2 R l (replace_at j x l).
Proof.
  intro Hrefl. induction l as [|z l IH]; intros [|j] y x H Hr; simpl in *; try discriminate.
  - inversion H; subst. constructor; [exact Hr|apply Forall2_refl_list; exact Hrefl].
  - constructor; [apply Hrefl|]. apply (IH j y x H Hr).
Qed.

Lemma step_sameCompiled (g : Game) (e : Event) :
  Forall2 sameCompiled (runtimeNotes g) (runtimeNotes (step g e)).
Proof.
  destruct e as [l t|l t|t]; simpl.
  - destruct (isPlaying g); simpl;
      [|apply Forall2_refl_list; exact sameCompiled_refl].
    destruct (checkHit_nearest l t g)
      as [[_ ->]|(j & target & Hj & _ & _ & -> & _)];
      [apply Forall2_refl_list; exact sameCompiled_refl|].
    apply (replace_at_Forall2 _ _ sameCompiled_refl j target); [exact Hj|].
    unfold pressedNote.
    destruct (classify ((t - time target) * 1000)); destruct (type target);
      repeat split.
  - unfold checkLNRelease.
    destruct (find (fun p => isHeld l (snd p)) (indexed (runtimeNotes g)))
      as [[j target]|] eqn:Ef; [|apply Forall2_refl_list; exact sameCompiled_refl].
    apply find_some in Ef. destruct Ef as [Hidx _]. apply In_indexed in Hidx.
    destruct (Qltb (t - (time target + duration target)) (-0.2)); simpl;
      apply (replace_at_Forall2 _ _ sameCompiled_refl j target); try exact Hidx;
      repeat split.
  - unfold update. destruct (isPlaying g); simpl;
      [|apply Forall2_refl_list; exact sameCompiled_refl].
    pose proof (updateNotes_sameCompiled (autoDemo g) t (runtimeNotes g) (stats g)) as H.
    destruct (updateNotes (autoDemo g) t (stats g) (runtimeNotes g)). exact H.
Qed.

Lemma Forall2_trans_list {A : Type} (R : A -> A -> Prop) :
  (forall a b c, R a b -> R b c -> R a c) ->
  forall l1 l2 l3, Forall2 R l1 l2 -> Forall2 R l2 l3 -> Forall2 R l1 l3.
Proof.
  intros Ht l1 l2 l3 H12. revert l3.
  induction H12 as [|a b l1 l2 Hab H12 IH]; intros l3 H23; inversion H23; subst.
  - constructor.
  - constructor; [eapply Ht; eassumption|]. apply IH. assumption.
Qed.

Lemma run_sameCompiled (es : list Event) (g : Game) :
  Forall2 sameCompiled (runtimeNotes g) (runtimeNotes (run g es)).
Proof.
  revert g. induction es as [|e es IH]; intro g; simpl.
  - apply Forall2_refl_list. exact sameCompiled_refl.
  - apply (Forall2_trans_list _ sameCompiled_trans _ (runtimeNotes (step g e)));
      [apply step_sameCompiled|apply IH].
Qed.

(** X3.  No sequence of presses, releases and ticks adds, removes or
    reorders runtime notes, or alters the time, lane, kind or duration
    of one: only the flags change. *)
Theorem X3_events_keep_compiled_fields (es : list Event) (g : Game) :
  Forall2 sameCompiled (runtimeNotes g) (runtimeNotes (run g es)).
Proof. exact (run_sameCompiled es g). Qed.

End Presses.

Section Sessions.
Import RhythmGame.

Lemma step_keeps_terminal (g : Game) (e : Event) (i : nat) (n : Note) :
  nth_error (runtimeNotes g) i = Some n ->
  hit n = true \/ missed n = true ->
  nth_error (runtimeNotes (step g e)) i = Some n.
Proof.
  intros Hi Hterm.
  assert (Hc : forall l t, isCandidate l t n = false)
    by (intros l t; apply judged_not_candidate; exact Hterm).
  destruct e as [l t|l t|t]; simpl.
  - destruct (isPlaying g); simpl; [|exact Hi].
    destruct (checkHit_nearest l t g) as [[_ ->]|(j & target & Hj & Hcand & _ & _ & Hother & _)];
      [exact Hi|].
    rewrite Hother; [exact Hi|].
    intros ->. rewrite Hi in Hj. inversion Hj; subst. rewrite Hc in Hcand. discriminate.
  - unfold checkLNRelease.
    destruct (find (fun p => isHeld l (snd p)) (indexed (runtimeNotes g)))
      as [[j target]|] eqn:Ef; [|exact Hi].
    apply find_some in Ef. destruct Ef as [Hidx Hheld]. apply In_indexed in Hidx.
    assert (Hne : j <> i).
    { intros ->. rewrite Hi in Hidx. inversion Hidx; subst.
      simpl in Hheld. unfold isHeld in Hheld.
      destruct Hterm as [H|H]; rewrite H in Hheld; simpl in Hheld;
        rewrite ?andb_false_r in Hheld; discriminate. }
    destruct (Qltb (t - (time target + duration target)) (-0.2)); simpl;
      rewrite nth_error_replace_at_ne; auto.
  - unfold update. destruct (isPlaying g); simpl; [|exact Hi].
    destruct (updateNotes_nth (autoDemo g) t (runtimeNotes g) (stats g) i n Hi)
      as [s' Hs'].
    rewrite (updateNote_terminal _ _ _ _ Hterm) in Hs'. simpl in Hs'.
    destruct (updateNotes (autoDemo g) t (stats g) (runtimeNotes g)). exact Hs'.
Qed.

(** X4.  A note that is hit or missed is terminal: whatever presses,
    releases and ticks follow, in any lane and at any time, the note
    keeps all its flags, and the sweep passes over it without touching
    the statistics. *)
Theorem X4_judged_notes_are_terminal (es : list Event) (g : Game) (i : nat) (n : Note) :
  nth_error (runtimeNotes g) i = Some n ->
  hit n = true \/ missed n = true ->
  nth_error (runtimeNotes (run g es)) i = Some n /\
  (forall demo t s, updateNote demo t s n = (s, n)) /\
  (forall l t, isCandidate l t n = false) /\
  (forall l, isHeld l n = false).
Proof.
  intros Hi Hterm. split; [|split; [|split]].
  - revert g Hi. induction es as [|e es IH]; intros g Hi; simpl; [exact Hi|].
    apply IH. apply step_keeps_terminal; assumption.
  - intros demo t s. apply updateNote_terminal. exact Hterm.
  - intros l t. apply judged_not_candidate. exact Hterm.
  - intro l. unfold isHeld. destruct Hterm as [H|H]; rewrite H; simpl;
      rewrite ?andb_false_r; reflexivity.
Qed.

Lemma X4_judged_notes_are_terminal_witness :
  let n := mkNote 1 0 tap 0 true false false None in
  let g := mkGame [n] initialStats true false in
  nth_error (runtimeNotes (run g [Press 0 1; Tick 5; Release 0 6])) 0 = Some n.
Proof.
  intros n g.
  exact (proj1 (X4_judged_notes_are_terminal [Press 0 1; Tick 5; Release 0 6] g 0 n
                  eq_refl (or_introl eq_refl))).
Defined.

(** *** Statistics along a session *)

(** Whatever holds of the statistics and is kept by [triggerHit] and by
    [triggerMiss] is kept by every event. *)
Lemma updateNote_stats_ind (P : Stats -> Prop) :
  (forall j l s, P s -> P (triggerHit j l s)) ->
  (forall s, P s -> P (triggerMissStats s)) ->
  forall demo t s n, P s -> P (fst (updateNote demo t s n)).
Proof.
  intros Hhit Hmiss demo t s n Hs. unfold updateNote, triggerMiss.
  repeat match goal with
         | |- context [if ?b then _ else _] => destruct b
         | |- context [match type ?x with _ => _ end] => destruct (type x) eqn:?
         end; simpl; auto.
Qed.

Lemma updateNotes_stats_ind (P : Stats -> Prop) :
  (forall j l s, P s -> P (triggerHit j l s)) ->
  (forall s, P s -> P (triggerMissStats s)) ->
  forall demo t l s, P s -> P (fst (updateNotes demo t s l)).
Proof.
  intros Hhit Hmiss demo t l. induction l as [|n l IH]; intros s Hs; simpl; [exact Hs|].
  pose proof (updateNote_stats_ind P Hhit Hmiss demo t s n Hs) as H1.
  destruct (updateNote demo t s n) as [s1 n1]. simpl in H1.
  specialize (IH s1 H1). destruct (updateNotes demo t s1 l) as [s2 rest]. exact IH.
Qed.

Lemma step_stats_ind (P : Stats -> Prop) :
  (forall j l s, P s -> P (triggerHit j l s)) ->
  (forall s, P s -> P (triggerMissStats s)) ->
  forall g e, P (stats g) -> P (stats (step g e)).
Proof.
  intros Hhit Hmiss g e Hs. destruct e as [l t|l t|t]; simpl.
  - destruct (isPlaying g); simpl; [|exact Hs].
    destruct (checkHit_nearest l t g) as [[_ ->]|(j & target & _ & _ & _ & _ & _ & ->)];
      [exact Hs|].
    unfold pressedStats. destruct (classify ((t - time target) * 1000)); auto.
  - unfold checkLNRelease.
    destruct (find (fun p => isHeld l (snd p)) (indexed (runtimeNotes g)))
      as [[j target]|]; [|exact Hs].
    destruct (Qltb (t - (time target + duration target)) (-0.2)); simpl; auto.
  - unfold update. destruct (isPlaying g); simpl; [|exact Hs].
    pose proof (updateNotes_stats_ind P Hhit Hmiss (autoDemo g) t (runtimeNotes g)
                                      (stats g) Hs) as H.
    destruct (updateNotes (autoDemo g) t (stats g) (runtimeNotes g)). exact H.
Qed.

Lemma run_stats_ind (P : Stats -> Prop) :
  (forall j l s, P s -> P (triggerHit j l s)) ->
  (forall s, P s -> P (triggerMissStats s)) ->
  forall es g, P (stats g) -> P (stats (run g es)).
Proof.
  intros Hhit Hmiss es. induction es as [|e es IH]; intros g Hs; simpl; [exact Hs|].
  apply IH. apply step_stats_ind; assumption.
Qed.

Lemma triggerHit_fields (j : Judge) (l : Z) (s : Stats) :
  let s' := triggerHit j l s in
  combo s' = match j with BAD => 0%Z | _ => (combo s + 1)%Z end /\
  maxCombo s' = match j with
                | BAD => maxCombo s
                | _ => if (maxCombo s <? combo s + 1)%Z then (combo s + 1)%Z else maxCombo s
                end /\
  cool s' = match j with COOL => (cool s + 1)%Z | _ => cool s end /\
  good s' = match j with GOOD => (good s + 1)%Z | _ => good s end /\
  bad s' = match j with BAD => (bad s + 1)%Z | _ => bad s end /\
  miss s' = miss s /\
  (0 <= comboBonus s -> 0 <= comboBonus s')%Z /\
  0 <= hp s' /\ hp s' <= 100 /\
  (0 < hp s' -> (0 <= score s')%Z).
Proof.
  cbv zeta. unfold triggerHit. cbv zeta.
  match goal with |- context [Qle_bool ?h 0] => destruct (Qle_bool h 0) eqn:Eh end;
    [|match goal with |- context [(?x <? 0)%Z] => destruct (Z.ltb_spec x 0) end];
    cbn [combo maxCombo cool good bad miss comboBonus hp score set_score];
    repeat split;
    try reflexivity;
    try (destruct j; reflexivity);
    try apply (proj1 (clampHp_range _));
    try apply (proj2 (clampHp_range _));
    try (intro Himp;
         first [ solve [ destruct j;
                         repeat match goal with
                                | |- context [if ?b then _ else _] => destruct b
                                end; lia ]
               | solve [ exfalso; apply Qle_bool_iff in Eh;
                         apply (Qlt_not_le _ _ Himp Eh) ]
               | lia ]).
Qed.

Lemma triggerMissStats_fields (s : Stats) :
  let s' := triggerMissStats s in
  combo s' = 0%Z /\ maxCombo s' = maxCombo s /\
  cool s' = cool s /\ good s' = good s /\ bad s' = bad s /\
  miss s' = (miss s + 1)%Z /\ comboBonus s' = 0%Z /\
  0 <= hp s' /\ hp s' <= 100 /\
  (0 < hp s' -> (0 <= score s')%Z).
Proof.
  cbv zeta. unfold triggerMissStats. cbv zeta.
  destruct (Qle_bool (clampHp (hp s - 4)) 0) eqn:Eh;
    [|destruct (Z.ltb_spec (score s - 20) 0)];
    cbn [combo maxCombo cool good bad miss comboBonus hp score set_score];
    repeat split;
    try reflexivity;
    try apply (proj1 (clampHp_range _));
    try apply (proj2 (clampHp_range _));
    try (intro Himp;
         first [ solve [ exfalso; apply Qle_bool_iff in Eh;
                         apply (Qlt_not_le _ _ Himp Eh) ]
               | lia ]).
Qed.

Lemma statsOk_triggerHit (j : Judge) (l : Z) (s : Stats) :
  statsOk s -> statsOk (triggerHit j l s).
Proof.
  intros (H0 & H1 & Hsc & Hc & Hb & Hco & Hgo & Hba & Hmi).
  destruct (triggerHit_fields j l s) as (Ec & Em & Eco & Ego & Eba & Emi & Hcb & Hh0 & Hh1 & Hs).
  unfold statsOk. rewrite Ec, Em, Eco, Ego, Eba, Emi.
  repeat split; try assumption; try (apply Hcb; exact Hb);
    destruct j; try lia;
    destruct (Z.ltb_spec (maxCombo s) (combo s + 1)); lia.
Qed.

Lemma statsOk_triggerMissStats (s : Stats) :
  statsOk s -> statsOk (triggerMissStats s).
Proof.
  intros (H0 & H1 & Hsc & Hc & Hb & Hco & Hgo & Hba & Hmi).
  destruct (triggerMissStats_fields s) as (Ec & Em & Eco & Ego & Eba & Emi & Ecb & Hh0 & Hh1 & Hs).
  unfold statsOk. rewrite Ec, Em, Eco, Ego, Eba, Emi, Ecb.
  repeat split; try assumption; lia.
Qed.

(** X5.  A session that starts within the bounds stays within them
    after any presses, releases and ticks: health in 0..100, score not
    negative while health is positive, 0 <= combo <= maxCombo,
    comboBonus and the four counters not negative. *)
Theorem X5_session_keeps_stat_bounds (es : list Event) (g : Game) :
  statsOk (stats g) -> statsOk (stats (run g es)).
Proof.
  apply (run_stats_ind statsOk).
  - intros j l s. apply statsOk_triggerHit.
  - intro s. apply statsOk_triggerMissStats.
Qed.

Lemma X5_session_keeps_stat_bounds_witness :
  statsOk (stats (run (start [BMSParser.mkNote 1 0 tap 0; BMSParser.mkNote 2 1 ln 1] false)
                      [Press 0 1; Press 1 2.1; Tick 2.5; Release 1 2.6; Tick 9])).
Proof.
  apply X5_session_keeps_stat_bounds.
  unfold statsOk. simpl. repeat split; try lia; try discriminate.
Defined.

Lemma countersGrow_refl (s : Stats) : countersGrow s s.
Proof. unfold countersGrow. repeat split; lia. Qed.

(** X6.  The counters cool, good, bad and miss and maxCombo never go
    down during a session. *)
Theorem X6_counters_never_decrease (es : list Event) (g : Game) :
  countersGrow (stats g) (stats (run g es)).
Proof.
  apply (run_stats_ind (countersGrow (stats g))).
  - intros j l s (Hc & Hg & Hb & Hm & Hx).
    destruct (triggerHit_fields j l s) as (_ & Em & Eco & Ego & Eba & Emi & _).
    unfold countersGrow. rewrite Em, Eco, Ego, Eba, Emi.
    repeat split; destruct j; try lia;
      destruct (Z.ltb_spec (maxCombo s) (combo s + 1)); lia.
  - intros s (Hc & Hg & Hb & Hm & Hx).
    destruct (triggerMissStats_fields s) as (_ & Em & Eco & Ego & Eba & Emi & _).
    unfold countersGrow. rewrite Em, Eco, Ego, Eba, Emi. repeat split; lia.
  - apply countersGrow_refl.
Qed.

End Sessions.

Section Releases.
Import RhythmGame.

(** *** Releases *)

Lemma find_indexed_first {A : Type} (f : nat * A -> bool) (l : list A) :
  forall k j x,
    find f (indexed_from k l) = Some (j, x) ->
    In (j, x) (indexed_from k l) /\ f (j, x) = true /\
    (forall i y, (i < j)%nat -> In (i, y) (indexed_from k l) -> f (i, y) = false).
Proof.
  induction l as [|a l IH]; intros k j x H; simpl in H; [discriminate|].
  destruct (f (k, a)) eqn:E.
  - inversion H; subst. split; [left; reflexivity|]. split; [exact E|].
    intros i y Hlt Hin. apply In_indexed_from in Hin. lia.
  - destruct (IH (S k) j x H) as (Hin & Hf & Hfirst).
    split; [right; exact Hin|]. split; [exact Hf|].
    intros i y Hlt [Heq|Hin']; [inversion Heq; subst; exact E|].
    apply (Hfirst i y Hlt Hin').
Qed.

(** X7.  A release in a lane without a held note (a hold note of that
    lane that is being held and is neither hit nor missed) changes
    nothing.  Otherwise it settles the first held note of the lane and
    nothing else: released more than 0.2 s before the note's end the
    note becomes missed and the miss penalty is charged; released later
    than that, however late, it becomes hit and the statistics stay as
    they are.  Either way the note is no longer held. *)
Theorem X7_release_settles_first_held_note (lane0 : Z) (t : Q) (g : Game) :
  ((forall n, In n (runtimeNotes g) -> isHeld lane0 n = false) /\
   checkLNRelease lane0 t g = g) \/
  exists j n,
    nth_error (runtimeNotes g) j = Some n /\ isHeld lane0 n = true /\
    (forall i n', (i < j)%nat -> nth_error (runtimeNotes g) i = Some n' ->
                  isHeld lane0 n' = false) /\
    (forall i, i <> j ->
               nth_error (runtimeNotes (checkLNRelease lane0 t g)) i
               = nth_error (runtimeNotes g) i) /\
    ((t + 0.2 < time n + duration n /\
      nth_error (runtimeNotes (checkLNRelease lane0 t g)) j
      = Some (set_isHolding false (set_missed true n)) /\
      stats (checkLNRelease lane0 t g) = triggerMissStats (stats g)) \/
     (time n + duration n <= t + 0.2 /\
      nth_error (runtimeNotes (checkLNRelease lane0 t g)) j
      = Some (set_isHolding false (set_hit true n)) /\
      stats (checkLNRelease lane0 t g) = stats g)).
Proof.
  unfold checkLNRelease.
  destruct (find (fun p => isHeld lane0 (snd p)) (indexed (runtimeNotes g)))
    as [[j n]|] eqn:Ef.
  - right. apply find_indexed_first in Ef. destruct Ef as (Hin & Hheld & Hfirst).
    apply In_indexed in Hin. simpl in Hheld.
    exists j, n. split; [exact Hin|]. split; [exact Hheld|]. split; [|split].
    + intros i n' Hlt Hi. apply (Hfirst i n' Hlt).
      apply (In_indexed_from_conv _ 0 i n' Hi).
    + intros i Hne.
      destruct (Qltb (t - (time n + duration n)) (-0.2)); simpl;
        apply nth_error_replace_at_ne; congruence.
    + destruct (Qltb (t - (time n + duration n)) (-0.2)) eqn:E.
      * left. apply Qltb_lt in E. split; [lra|]. simpl.
        split; [|reflexivity]. apply (nth_error_replace_at_eq _ _ _ n Hin).
      * right. apply Qltb_ge in E. split; [lra|]. simpl.
        split; [|reflexivity]. apply (nth_error_replace_at_eq _ _ _ n Hin).
  - left. split; [|reflexivity]. intros n Hn.
    apply In_nth_error in Hn. destruct Hn as [i Hi].
    apply (find_none _ _ Ef (i, n)). apply (In_indexed_from_conv _ 0 i n Hi).
Qed.

(** *** Held notes in the sweep *)

(** X8.  A hold note that is being held is shielded from the miss
    sweep: however late the tick, the sweep never marks it missed.  It
    leaves the note and the statistics alone while the clock is before
    the note's end, and from the end on it completes the note as hit
    with a COOL judgment for the tail. *)
Theorem X8_held_note_is_shielded (demo : bool) (t : Q) (s : Stats) (n : Note) :
  type n = ln -> isHolding n = true -> hit n = false -> missed n = false ->
  missed (snd (updateNote demo t s n)) = false /\
  (t < time n + duration n -> updateNote demo t s n = (s, n)) /\
  (time n + duration n <= t ->
   updateNote demo t s n
   = (triggerHit COOL (lane n) s, set_isHolding false (set_hit true n))).
Proof.
  intros Hty Hhold Hh Hm. unfold updateNote.
  destruct n as [tm la ty du h m ih ht].
  cbn [hit missed type isHolding time lane duration] in *. subst.
  destruct demo;
    cbn [hit missed type isHolding time lane duration andb negb NoteType_eqb orb];
    (destruct (Qle_bool (tm + du) t) eqn:E;
     [ apply Qle_bool_iff in E | apply Qle_bool_false in E ];
     (split; [reflexivity|]);
     split; intro H; try reflexivity; exfalso; lra).
Qed.

Lemma X8_held_note_is_shielded_witness :
  let n := mkNote 1 0 ln 2 false false true (Some 1) in
  missed (snd (updateNote false 2.5 initialStats n)) = false /\
  (2.5 < time n + duration n -> updateNote false 2.5 initialStats n = (initialStats, n)) /\
  (time n + duration n <= 2.5 ->
   updateNote false 2.5 initialStats n
   = (triggerHit COOL (lane n) initialStats, set_isHolding false (set_hit true n))).
Proof.
  intro n.
  apply (X8_held_note_is_shielded false 2.5 initialStats n); reflexivity.
Defined.

End Releases.

(** *** The auto demo *)

Section AutoDemo.
Import RhythmGame.

(** X25.  In the auto demo [update] plays a hold note that is not yet
    held by itself and never misses it: before the head time the note is
    left alone; from the head time on it is taken (held, with the clock
    reading as hit time) with one COOL; and when the end of the hold has
    passed as well, the same call completes it with a second COOL. *)
Theorem X25_auto_demo_plays_holds (t : Q) (s : Stats) (n : Note) :
  type n = ln -> hit n = false -> missed n = false -> isHolding n = false ->
  missed (snd (updateNote true t s n)) = false /\
  (t < time n -> updateNote true t s n = (s, n)) /\
  (time n <= t -> t < time n + duration n ->
   updateNote true t s n
   = (triggerHit COOL (lane n) s, set_hitTime t (set_isHolding true n))) /\
  (time n <= t -> time n + duration n <= t ->
   updateNote true t s n
   = (triggerHit COOL (lane n) (triggerHit COOL (lane n) s),
      set_isHolding false (set_hit true (set_hitTime t (set_isHolding true n))))).
Proof.
  intros Hty Hh Hm Hho. unfold updateNote. rewrite Hh, Hm, Hty, Hho.
  cbn [andb negb].
  destruct (Qle_bool (time n) t) eqn:Ehead.
  - apply Qle_bool_iff in Ehead.
    cbn [type isHolding hit missed time duration lane set_hitTime set_isHolding
         NoteType_eqb andb negb].
    rewrite Hty, Hh, Hm. cbn [NoteType_eqb andb negb].
    destruct (Qle_bool (time n + duration n) t) eqn:Eend.
    + apply Qle_bool_iff in Eend. cbn [snd missed set_isHolding set_hit set_hitTime].
      split; [exact Hm|]. split; [intro H; exfalso; lra|].
      split; [intros _ H; exfalso; lra|]. intros _ _. reflexivity.
    + apply Qle_bool_false in Eend. cbn [snd missed set_isHolding set_hit set_hitTime].
      split; [exact Hm|]. split; [intro H; exfalso; lra|].
      split; [intros _ _; reflexivity|]. intros _ H. exfalso. lra.
  - apply Qle_bool_false in Ehead. rewrite Hty, Hho, Hh, Hm.
    cbn [NoteType_eqb andb negb orb].
    assert (E : Qltb (time n - t) (-0.15) = false).
    { destruct (Qltb (time n - t) (-0.15)) eqn:E; [|reflexivity].
      apply Qltb_lt in E. exfalso. lra. }
    rewrite E. cbn [snd].
    split; [exact Hm|]. split; [intros _; reflexivity|].
    split; intros H; exfalso; lra.
Qed.

Lemma X25_auto_demo_plays_holds_witness :
  let n := mkNote 1 0 ln 2 false false false None in
  updateNote true 4 initialStats n
  = (triggerHit COOL 0 (triggerHit COOL 0 initialStats),
     set_isHolding false (set_hit true (set_hitTime 4 (set_isHolding true n)))).
Proof.
  intro n.
  refine (proj2 (proj2 (proj2
    (X25_auto_demo_plays_holds 4 initialStats n eq_refl eq_refl eq_refl eq_refl))) _ _);
    vm_compute; discriminate.
Defined.

(** X26.  In the auto demo [update] hits a tap with COOL only at a tick
    within 30 ms of the tap; a tap that no tick has reached within that
    window is missed like any other once a tick comes more than 150 ms
    after it, and is left alone by the ticks in between. *)
Theorem X26_auto_demo_needs_a_tick_near_the_tap (t : Q) (s : Stats) (n : Note) :
  type n = tap -> hit n = false -> missed n = false ->
  (Qabs (time n - t) <= 0.03 ->
   updateNote true t s n = (triggerHit COOL (lane n) s, set_hit true n)) /\
  (time n + 0.15 < t ->
   updateNote true t s n = (triggerMissStats s, set_missed true n)) /\
  (0.03 < Qabs (time n - t) -> t <= time n + 0.15 -> updateNote true t s n = (s, n)).
Proof.
  intros Hty Hh Hm. unfold updateNote. rewrite Hh, Hm, Hty. cbn [andb negb].
  destruct (Qle_bool (Qabs (time n - t)) 0.03) eqn:Enear.
  - apply Qle_bool_iff in Enear.
    assert (Hb : - (0.03) <= time n - t /\ time n - t <= 0.03)
      by (apply Qabs_Qle_condition; exact Enear).
    split; [intros _; reflexivity|]. split; intro H; [exfalso; lra|].
    exfalso. lra.
  - apply Qle_bool_false in Enear. rewrite Hty, Hh, Hm.
    cbn [NoteType_eqb andb negb orb].
    split; [intro H; exfalso; lra|]. split.
    + intro H. apply miss_condition in H. rewrite H. reflexivity.
    + intros _ H. destruct (Qltb (time n - t) (-0.15)) eqn:E; [|reflexivity].
      apply Qltb_lt in E. exfalso. lra.
Qed.

Lemma X26_auto_demo_needs_a_tick_near_the_tap_witness :
  let n := mkNote 1 0 tap 0 false false false None in
  updateNote true 2 initialStats n = (triggerMissStats initialStats, set_missed true n).
Proof.
  intro n.
  refine (proj1 (proj2
    (X26_auto_demo_needs_a_tick_near_the_tap 2 initialStats n eq_refl eq_refl eq_refl)) _).
  vm_compute. reflexivity.
Defined.

End AutoDemo.

(** ** The timeline compiler, continued *)

Section OutputOrder.
Import BMSParser.

(** *** Sorting *)

Lemma insert_by_key_sorted {A : Type} (key : A -> Q) (x : A) (l : list A) :
  StronglySorted (fun a b => key a <= key b) l ->
  StronglySorted (fun a b => key a <= key b)
                 (insert_by (fun a b => Qltb (key a) (key b)) x l).
Proof.
  induction l as [|y l IH]; intro Hs; simpl.
  - constructor; constructor.
  - inversion Hs as [|? ? Hs' Hy]; subst.
    destruct (Qltb (key y) (key x)) eqn:E.
    + apply Qltb_lt in E. constructor; [apply IH; exact Hs'|].
      apply Forall_forall. intros z Hz. apply In_insert_by in Hz.
      destruct Hz as [->|Hz]; [apply Qlt_le_weak; exact E|].
      rewrite Forall_forall in Hy. apply Hy. exact Hz.
    + apply Qltb_ge in E. constructor; [exact Hs|].
      constructor; [exact E|].
      rewrite Forall_forall in *. intros z Hz.
      apply Qle_trans with (key y); [exact E|apply Hy; exact Hz].
Qed.

Lemma sort_by_key_sorted {A : Type} (key : A -> Q) (l : list A) :
  StronglySorted (fun a b => key a <= key b)
                 (sort_by (fun a b => Qltb (key a) (key b)) l).
Proof.
  induction l as [|x l IH]; simpl; [constructor|].
  apply insert_by_key_sorted. exact IH.
Qed.

(** X10.  The notes and the background cues of the output are each in
    non-decreasing order of time, and the notes are the emitted notes
    rearranged: sorting adds and drops nothing. *)
Theorem X10_output_sorted_by_time
        (initialBPM0 : Q) (lnType : Z)
        (timeEvents : list TimeEvent) (channelEvents : list ChannelEvent)
        (out : Output) :
  compileEvents initialBPM0 lnType timeEvents channelEvents = Some out ->
  StronglySorted (fun a b => time a <= time b) (notes out) /\
  StronglySorted (fun a b => bgm_time a <= bgm_time b) (bgmEvents out) /\
  exists st,
    integrate initialBPM0 (sort_by byBeatTE timeEvents) (sort_by byBeat channelEvents)
    = Some st /\
    let m := materialise lnType (timeOf (beatToTime st)) (sort_by byBeat channelEvents) in
    Permutation (m_notes m) (notes out) /\ Permutation (m_bgm m) (bgmEvents out).
Proof.
  unfold compileEvents. intro H.
  destruct (integrate _ _ _) as [st|] eqn:Ei; [|discriminate].
  inversion H; subst; clear H. cbn [notes bgmEvents].
  split; [apply (sort_by_key_sorted time)|].
  split; [apply (sort_by_key_sorted bgm_time)|].
  exists st. split; [reflexivity|]. cbv zeta.
  split; apply sort_by_Permutation.
Qed.

Lemma X10_output_sorted_by_time_witness :
  let ces := [mkChannelEvent 4 ev_note 1 "02"; mkChannelEvent 0 ev_note 0 "01";
              mkChannelEvent 2 ev_bgm (-1) "0A"]%string in
  exists out,
    compileEvents 120 1 [] ces = Some out /\
    StronglySorted (fun a b => time a <= time b) (notes out).
Proof.
  intro ces. destruct (compileEvents 120 1 [] ces) as [out|] eqn:E.
  - exists out. split; [reflexivity|].
    exact (proj1 (X10_output_sorted_by_time 120 1 [] ces out E)).
  - vm_compute in E. discriminate E.
Defined.

(** *** Taps and background cues *)

Lemma materialiseEvent_taps (lnType : Z) (tm : Q -> Q)
      (st : Materialisation) (ev : ChannelEvent) :
  (forall l p, m_pending st l = Some p -> type p = ln) ->
  filter isTap (m_notes (materialiseEvent lnType tm st ev))
  = filter isTap (m_notes st) ++ (if isTapEvent ev then [tapOf tm ev] else []) /\
  m_bgm (materialiseEvent lnType tm st ev)
  = m_bgm st ++ (if isCueEvent ev then [cueOf tm ev] else []) /\
  (forall l p, m_pending (materialiseEvent lnType tm st ev) l = Some p -> type p = ln).
Proof.
  intro Hp.
  assert (Hset : forall v, (forall p, v = Some p -> type p = ln) ->
                 forall l p, setPending (m_pending st) (ce_lane ev) v l = Some p ->
                             type p = ln).
  { intros v Hv l p. unfold setPending. destruct (l =? ce_lane ev)%Z; [apply Hv|apply Hp]. }
  assert (Hopen : forall p, Some (mkNote (tm (beat ev)) (ce_lane ev) ln 0) = Some p ->
                            type p = ln)
    by (intros p Hv; inversion Hv; reflexivity).
  assert (Hnone : forall p : Note, None = Some p -> type p = ln) by discriminate.
  assert (Hclose : forall p, m_pending st (ce_lane ev) = Some p ->
            filter isTap (m_notes st ++ [close p (tm (beat ev))])
            = filter isTap (m_notes st) ++ []).
  { intros p Hpl. rewrite filter_app. f_equal. simpl. unfold isTap, close. simpl.
    rewrite (Hp _ _ Hpl). reflexivity. }
  unfold materialiseEvent, isTapEvent, isCueEvent.
  destruct (ce_type ev).
  - cbn [m_notes m_bgm m_pending]. rewrite filter_app, app_nil_r.
    split; [reflexivity|]. split; [reflexivity|exact Hp].
  - destruct (lnType =? 2)%Z; [destruct (String.eqb (valStr ev) "00")|];
      destruct (m_pending st (ce_lane ev)) as [startNote|] eqn:Hpl;
      cbn [m_notes m_bgm m_pending]; rewrite ?app_nil_r;
      (split; [try reflexivity; rewrite (Hclose _ eq_refl), app_nil_r; reflexivity|]);
      (split; [reflexivity|]);
      try exact Hp; apply Hset; assumption.
  - cbn [m_notes m_bgm m_pending]. rewrite app_nil_r.
    split; [reflexivity|]. split; [reflexivity|exact Hp].
Qed.

Lemma materialise_fold_taps (lnType : Z) (tm : Q -> Q) (evs : list ChannelEvent) :
  forall st,
    (forall l p, m_pending st l = Some p -> type p = ln) ->
    filter isTap (m_notes (fold_left (materialiseEvent lnType tm) evs st))
    = filter isTap (m_notes st) ++ map (tapOf tm) (filter isTapEvent evs) /\
    m_bgm (fold_left (materialiseEvent lnType tm) evs st)
    = m_bgm st ++ map (cueOf tm) (filter isCueEvent evs).
Proof.
  induction evs as [|ev evs IH]; intros st Hp; cbn [fold_left filter map].
  - rewrite !app_nil_r. auto.
  - destruct (materialiseEvent_taps lnType tm st ev Hp) as (Ht & Hb & Hp').
    destruct (IH _ Hp') as [IHt IHb]. rewrite IHt, IHb, Ht, Hb.
    destruct (isTapEvent ev); destruct (isCueEvent ev);
      cbn [map app]; rewrite <- ?app_assoc, ?app_nil_r; auto.
Qed.

Lemma materialise_taps (lnType : Z) (tm : Q -> Q) (evs : list ChannelEvent) :
  filter isTap (m_notes (materialise lnType tm evs))
  = map (tapOf tm) (filter isTapEvent evs) /\
  m_bgm (materialise lnType tm evs) = map (cueOf tm) (filter isCueEvent evs).
Proof.
  unfold materialise.
  destruct (materialise_fold_taps lnType tm evs (mkMaterialisation [] [] emptyPending))
    as [Ht Hb]; [intros l p H; discriminate|].
  split; [exact Ht|exact Hb].
Qed.

(** X11.  The materialisation turns the tap events into tap notes and
    the background events into cues one for one and in order: a tap event
    at beat [b] of lane [l] gives the note [{time(b), l, tap, 0}], no tap
    is dropped and none is made up, whatever the hold events in between
    and whichever long-note convention is in force. *)
Theorem X11_taps_and_cues_one_for_one (lnType : Z) (tm : Q -> Q)
        (evs : list ChannelEvent) :
  filter isTap (m_notes (materialise lnType tm evs))
  = map (tapOf tm) (filter isTapEvent evs) /\
  m_bgm (materialise lnType tm evs) = map (cueOf tm) (filter isCueEvent evs).
Proof. exact (materialise_taps lnType tm evs). Qed.

End OutputOrder.

(** *** The inner loop of the time integration *)

Section InnerLoop.
Import BMSParser.

Lemma Qeq_bool_pos (q : Q) : 0 < q -> Qeq_bool q 0 = false.
Proof.
  intro H. destruct (Qeq_bool q 0) eqn:E; [|reflexivity].
  apply Qeq_bool_iff in E. rewrite E in H. exfalso. apply (Qlt_irrefl 0 H).
Qed.

Lemma spb_pos (q : Q) : 0 < q -> 0 < 60.0 / q.
Proof.
  intro H. apply Qlt_shift_div_l; [exact H|]. rewrite Qmult_0_l. reflexivity.
Qed.

(** The inner loop on success: it consumes a prefix of the pending
    events, all of them near the beat, and stops in front of the first
    one that is not; each consumed tempo event adds one tempo point and
    each consumed stop one stop record. *)
Lemma processEvents_success (b tb : Q) (tes : list TimeEvent) :
  forall st st',
    processEvents b tb tes st = Some st' ->
    exists used,
      tes = used ++ pending st' /\
      (forall ev, In ev used -> near b ev = true) /\
      (forall h rest, pending st' = h :: rest -> near b h = false) /\
      beatToTime st' = beatToTime st /\ lastBeat st' = lastBeat st /\
      (exists added,
         i_bpms st' = i_bpms st ++ added /\
         map Some (map bp_bpm added) = map te_value (filter isBpmEvent used)) /\
      List.length (i_stops st')
      = (List.length (i_stops st) + List.length (filter isStopEvent used))%nat.
Proof.
  induction tes as [|ev tes IH]; intros st st' H; cbn [processEvents] in H.
  - inversion H; subst. exists []. cbn.
    split; [reflexivity|]. split; [intros ev []|]. split; [intros h rest Hp; discriminate|].
    split; [reflexivity|]. split; [reflexivity|].
    split; [exists []; rewrite app_nil_r; split; reflexivity|lia].
  - destruct (Qltb (Qabs (te_beat ev - b)) 1e-6) eqn:E.
    + assert (Hcase : exists st1,
                processEvents b tb tes st1 = Some st' /\
                beatToTime st1 = beatToTime st /\ lastBeat st1 = lastBeat st /\
                (exists added,
                   i_bpms st1 = i_bpms st ++ added /\
                   map Some (map bp_bpm added)
                   = map te_value (if isBpmEvent ev then [ev] else [])) /\
                List.length (i_stops st1)
                = (List.length (i_stops st) + (if isStopEvent ev then 1 else 0))%nat).
      { unfold isBpmEvent, isStopEvent.
        destruct (te_type ev); destruct (te_value ev) as [v|] eqn:Ev; try discriminate.
        - eexists. split; [exact H|]. cbn [beatToTime lastBeat i_bpms i_stops].
          split; [reflexivity|]. split; [reflexivity|].
          split; [|lia]. eexists. split; [reflexivity|]. cbn. rewrite Ev. reflexivity.
        - destruct (Qeq_bool (currentBPM st) 0); [discriminate|].
          eexists. split; [exact H|]. cbn [beatToTime lastBeat i_bpms i_stops].
          split; [reflexivity|]. split; [reflexivity|].
          split; [exists []; rewrite app_nil_r; split; reflexivity|].
          rewrite length_app. cbn. lia. }
      destruct Hcase as (st1 & Hrun & Hm & Hlb & (a1 & Hbp & Hv1) & Hsp).
      destruct (IH st1 st' Hrun)
        as (used & Hsplit & Hnear & Hhead & Hm' & Hlb' & (a2 & Hbp' & Hv2) & Hsp').
      exists (ev :: used). split; [rewrite Hsplit at 1; reflexivity|].
      split; [intros e [<-|He]; [exact E|apply Hnear; exact He]|].
      split; [exact Hhead|]. split; [congruence|]. split; [congruence|].
      split.
      * exists (a1 ++ a2). split; [rewrite Hbp', Hbp, app_assoc; reflexivity|].
        rewrite !map_app, Hv1, Hv2. cbn [filter].
        destruct (isBpmEvent ev); reflexivity.
      * cbn [filter]. rewrite Hsp', Hsp.
        destruct (isStopEvent ev); cbn [List.length]; lia.
    + inversion H; subst. exists []. cbn.
      split; [reflexivity|]. split; [intros e []|].
      split; [intros h rest Hp; inversion Hp; subst; exact E|].
      split; [reflexivity|]. split; [reflexivity|].
      split; [exists []; rewrite app_nil_r; split; reflexivity|lia].
Qed.

(** The inner loop with usable values never fails, keeps the tempo
    positive and never turns the clock back. *)
Lemma processEvents_valid (b tb : Q) (tes : list TimeEvent) :
  forall st,
    0 < currentBPM st -> Forall validTimeEvent tes ->
    exists st',
      processEvents b tb tes st = Some st' /\
      0 < currentBPM st' /\ lastTime st <= lastTime st'.
Proof.
  induction tes as [|ev tes IH]; intros st Hpos Hvalid; cbn [processEvents].
  - eexists. split; [reflexivity|]. cbn. split; [exact Hpos|apply Qle_refl].
  - inversion Hvalid as [|? ? (v & Hv & Hty) Hrest]; subst.
    destruct (Qltb (Qabs (te_beat ev - b)) 1e-6).
    + rewrite Hv. destruct (te_type ev).
      * destruct (IH (mkIntegration (lastBeat st) (lastTime st) v tes (beatToTime st)
                                    (i_bpms st ++ [mkBpmPoint (lastTime st) v]) (i_stops st)))
          as (st' & Hrun & Hp & Hle); [exact Hty|exact Hrest|].
        exists st'. split; [exact Hrun|]. split; [exact Hp|exact Hle].
      * rewrite (Qeq_bool_pos _ Hpos).
        destruct (IH (mkIntegration (lastBeat st)
                                    (lastTime st + v / 48.0 * (60.0 / currentBPM st))
                                    (currentBPM st) tes (beatToTime st) (i_bpms st)
                                    (i_stops st ++ [mkStopEvent tb
                                       (v / 48.0 * (60.0 / currentBPM st))])))
          as (st' & Hrun & Hp & Hle); [exact Hpos|exact Hrest|].
        exists st'. split; [exact Hrun|]. split; [exact Hp|].
        cbn [lastTime] in Hle.
        apply Qle_trans with (lastTime st + v / 48.0 * (60.0 / currentBPM st));
          [|exact Hle].
        assert (Hs : 0 <= v / 48.0 * (60.0 / currentBPM st)).
        { apply Qmult_le_0_compat.
          - apply Qle_shift_div_l; [reflexivity|]. rewrite Qmult_0_l. exact Hty.
          - apply Qlt_le_weak. apply spb_pos. exact Hpos. }
        lra.
    + eexists. split; [reflexivity|]. cbn. split; [exact Hpos|apply Qle_refl].
Qed.

End InnerLoop.

(** *** Timelines with positive tempi *)

Section Timeline.
Import BMSParser.

Lemma StronglySorted_snoc {A : Type} (R : A -> A -> Prop) (l : list A) (x : A) :
  StronglySorted R l -> Forall (fun y => R y x) l -> StronglySorted R (l ++ [x]).
Proof.
  induction 1 as [|a l Hs IH Ha]; intro Hall; cbn.
  - constructor; constructor.
  - inversion Hall; subst. constructor; [apply IH; assumption|].
    apply Forall_app. split; [exact Ha|]. constructor; [assumption|constructor].
Qed.

Lemma Forall_suffix {A : Type} (P : A -> Prop) (l1 l2 : list A) :
  Forall P (l1 ++ l2) -> Forall P l2.
Proof. intro H. apply Forall_app in H. tauto. Qed.

(** One iteration with positive tempi: it succeeds, time-stamps the beat
    later than everything recorded before, and keeps the invariant. *)
Lemma integrateBeat_valid (st : Integration) (b : Q) :
  timelineInv st -> beatToTime st = [] \/ lastBeat st < b ->
  exists st',
    integrateBeat st b = Some st' /\ timelineInv st' /\ lastBeat st' = b /\
    beatToTime st' <> [] /\ (lastBeat st <= b -> lastTime st <= lastTime st').
Proof.
  intros (Hpos & Hval & Hsorted & Hbound) Hnext.
  unfold integrateBeat. rewrite (Qeq_bool_pos _ Hpos). cbv zeta.
  set (t := lastTime st + (b - lastBeat st) * (60.0 / currentBPM st)).
  set (st0 := mkIntegration (lastBeat st) t (currentBPM st) (pending st)
                            (beatToTime st ++ [(b, t)]) (i_bpms st) (i_stops st)).
  destruct (processEvents_valid b t (pending st) st0 Hpos Hval)
    as (st1 & Hrun & Hpos1 & Hle1).
  rewrite Hrun.
  destruct (processEvents_success b t (pending st) st0 st1 Hrun)
    as (used & Hsplit & _ & _ & Hm & _ & _ & _).
  cbn [lastTime beatToTime st0] in Hle1, Hm.
  assert (Hspb := spb_pos _ Hpos).
  eexists. split; [reflexivity|]. split; [|split; [reflexivity|split]].
  - unfold timelineInv. cbn [currentBPM pending beatToTime lastBeat lastTime].
    split; [exact Hpos1|]. split.
    { rewrite Hsplit in Hval. exact (Forall_suffix _ _ _ Hval). }
    rewrite Hm. split.
    + apply StronglySorted_snoc; [exact Hsorted|].
      destruct Hnext as [Hnil|Hlt]; [rewrite Hnil; constructor|].
      rewrite Forall_forall in Hbound. apply Forall_forall. intros p Hp.
      destruct (Hbound p Hp) as [Hk Ht]. unfold entryBefore. cbn [fst snd].
      split; [apply Qle_lt_trans with (lastBeat st); assumption|].
      apply Qle_lt_trans with (lastTime st); [exact Ht|].
      assert (0 < (b - lastBeat st) * (60.0 / currentBPM st)).
      { apply Qmult_lt_0_compat; [lra|exact Hspb]. }
      unfold t. lra.
    + apply Forall_app. split.
      * destruct Hnext as [Hnil|Hlt]; [rewrite Hnil; constructor|].
        rewrite Forall_forall in Hbound. apply Forall_forall. intros p Hp.
        destruct (Hbound p Hp) as [Hk Ht]. split; [lra|].
        assert (0 < (b - lastBeat st) * (60.0 / currentBPM st)).
        { apply Qmult_lt_0_compat; [lra|exact Hspb]. }
        unfold t in Hle1. lra.
      * constructor; [|constructor]. cbn [fst snd]. split; [apply Qle_refl|exact Hle1].
  - cbn [beatToTime]. rewrite Hm. intro Habs. destruct (beatToTime st); discriminate.
  - cbn [lastTime]. intro Hle.
    assert (0 <= (b - lastBeat st) * (60.0 / currentBPM st)).
    { apply Qmult_le_0_compat; [lra|apply Qlt_le_weak; exact Hspb]. }
    unfold t in Hle1. lra.
Qed.

Lemma integrateBeats_valid (bs : list Q) :
  forall st,
    timelineInv st -> StronglySorted Qlt bs ->
    beatToTime st = [] \/ Forall (Qlt (lastBeat st)) bs ->
    exists st', integrateBeats st bs = Some st' /\ timelineInv st'.
Proof.
  induction bs as [|b bs IH]; intros st Hinv Hs Hnext; cbn [integrateBeats].
  - exists st. split; [reflexivity|exact Hinv].
  - inversion Hs as [|? ? Hs' Hb]; subst.
    destruct (integrateBeat_valid st b Hinv) as (st1 & Hstep & Hinv1 & Hlb & Hne & _).
    { destruct Hnext as [Hnil|Hall]; [left; exact Hnil|right].
      inversion Hall; assumption. }
    rewrite Hstep. apply IH; [exact Hinv1|exact Hs'|].
    right. rewrite Hlb. exact Hb.
Qed.

(** In a map whose beats and times grow together, the time of a later
    beat is later and equal beats have one time. *)
Lemma entries_ordered (m : list (Q * Q)) :
  StronglySorted entryBefore m ->
  forall k1 t1 k2 t2,
    In (k1, t1) m -> In (k2, t2) m ->
    (k1 < k2 -> t1 < t2) /\ (k1 == k2 -> t1 == t2).
Proof.
  induction 1 as [|p m Hs IH Hp]; intros k1 t1 k2 t2 H1 H2; [destruct H1|].
  rewrite Forall_forall in Hp.
  destruct H1 as [->|H1]; destruct H2 as [E2|H2].
  - inversion E2; subst. split; intro H; [exfalso; apply (Qlt_irrefl _ H)|reflexivity].
  - destruct (Hp _ H2) as [Hk Ht]. cbn [fst snd] in Hk, Ht.
    split; intro H; [exact Ht|]. exfalso. rewrite H in Hk. apply (Qlt_irrefl _ Hk).
  - subst p. destruct (Hp _ H1) as [Hk Ht]. cbn [fst snd] in Hk, Ht.
    split; intro H; exfalso; [|rewrite H in Hk; apply (Qlt_irrefl _ Hk)].
    apply (Qlt_irrefl k1). apply Qlt_trans with k2; assumption.
  - apply IH; assumption.
Qed.

Lemma initial_timelineInv (initialBPM0 : Q) (tes : list TimeEvent) :
  0 < initialBPM0 -> Forall validTimeEvent tes ->
  timelineInv (mkIntegration 0 0 initialBPM0 tes [] [mkBpmPoint 0 initialBPM0] []).
Proof.
  intros Hpos Hval. unfold timelineInv. cbn.
  split; [exact Hpos|]. split; [exact Hval|]. split; constructor.
Qed.

(** The integration with positive tempi and stops that are not negative:
    it succeeds, and the times it gives grow with the beats. *)
Lemma integrate_monotone (initialBPM0 : Q) (tes : list TimeEvent)
      (ces : list ChannelEvent) :
  0 < initialBPM0 -> Forall validTimeEvent tes ->
  exists st,
    integrate initialBPM0 tes ces = Some st /\
    forall e1 e2, In e1 ces -> In e2 ces ->
      (beat e1 < beat e2 ->
       timeOf (beatToTime st) (beat e1) < timeOf (beatToTime st) (beat e2)) /\
      (beat e1 == beat e2 ->
       timeOf (beatToTime st) (beat e1) == timeOf (beatToTime st) (beat e2)) /\
      timeOf (beatToTime st) (beat e1) <= lastTime st.
Proof.
  intros Hpos Hval. unfold integrate.
  destruct (criticalBeats_spec tes ces) as (Hd & _ & Hrep).
  destruct (integrateBeats_valid (sortedBeats tes ces) _
              (initial_timelineInv initialBPM0 tes Hpos Hval))
    as (st & Hrun & Hinv).
  { apply sort_by_sorted. exact Hd. }
  { left. reflexivity. }
  exists st. split; [exact Hrun|].
  destruct Hinv as (_ & _ & Hsorted & Hbound).
  assert (Hfind : forall e, In e ces ->
            exists k t, In (k, t) (beatToTime st) /\ k == beat e /\
                        timeOf (beatToTime st) (beat e) = t).
  { intros e He.
    destruct (lookup_found (beatToTime st) (beat e)) as (k & t & Hin & Hk & Hl).
    - rewrite (integrateBeats_keys _ _ _ Hrun). cbn [beatToTime app].
      destruct (Hrep (beat e)) as (k & Hk & Hke).
      { right. apply in_map. exact He. }
      exists k. split; [|exact Hke]. unfold sortedBeats. apply In_sort_by. exact Hk.
    - exists k, t. split; [exact Hin|]. split; [exact Hk|].
      unfold timeOf. rewrite Hl. reflexivity. }
  intros e1 e2 H1 H2.
  destruct (Hfind e1 H1) as (k1 & t1 & Hin1 & Hk1 & ->).
  destruct (Hfind e2 H2) as (k2 & t2 & Hin2 & Hk2 & ->).
  destruct (entries_ordered _ Hsorted k1 t1 k2 t2 Hin1 Hin2) as [Hlt Heq].
  split; [|split].
  - intro H. apply Hlt. rewrite Hk1, Hk2. exact H.
  - intro H. apply Heq. rewrite Hk1, Hk2. exact H.
  - rewrite Forall_forall in Hbound. exact (proj2 (Hbound _ Hin1)).
Qed.

(** X12.  When the initial tempo and every tempo change are positive
    and no stop is negative, the time integration succeeds and the times
    it gives grow with the beats: an event at a later beat gets a later
    time, events at equal beats get equal times, and no event lies past
    the accumulated seconds that become the chart duration. *)
Theorem X12_times_grow_with_beats (initialBPM0 : Q) (tes : list TimeEvent)
        (ces : list ChannelEvent) :
  0 < initialBPM0 -> Forall validTimeEvent tes ->
  exists st,
    integrate initialBPM0 tes ces = Some st /\
    forall e1 e2, In e1 ces -> In e2 ces ->
      (beat e1 < beat e2 ->
       timeOf (beatToTime st) (beat e1) < timeOf (beatToTime st) (beat e2)) /\
      (beat e1 == beat e2 ->
       timeOf (beatToTime st) (beat e1) == timeOf (beatToTime st) (beat e2)) /\
      timeOf (beatToTime st) (beat e1) <= lastTime st.
Proof. exact (integrate_monotone initialBPM0 tes ces). Qed.

Lemma X12_times_grow_with_beats_witness :
  let tes := [mkTimeEvent 4 bpm (Some 180); mkTimeEvent 8 stop (Some 48)] in
  let ces := [mkChannelEvent 0 ev_note 0 "01"; mkChannelEvent 8 ev_note 1 "01";
              mkChannelEvent 12 ev_note 0 "01"]%string in
  0 < 120 /\ Forall validTimeEvent tes /\
  exists st,
    integrate 120 tes ces = Some st /\
    forall e1 e2, In e1 ces -> In e2 ces ->
      (beat e1 < beat e2 ->
       timeOf (beatToTime st) (beat e1) < timeOf (beatToTime st) (beat e2)) /\
      (beat e1 == beat e2 ->
       timeOf (beatToTime st) (beat e1) == timeOf (beatToTime st) (beat e2)) /\
      timeOf (beatToTime st) (beat e1) <= lastTime st.
Proof.
  intros tes ces.
  assert (Hpos : 0 < 120) by reflexivity.
  assert (Hval : Forall validTimeEvent tes).
  { apply Forall_cons; [exists 180; split; reflexivity|].
    apply Forall_cons; [exists 48; split; [reflexivity|discriminate]|apply Forall_nil]. }
  split; [exact Hpos|]. split; [exact Hval|].
  exact (X12_times_grow_with_beats 120 tes ces Hpos Hval).
Defined.

End Timeline.

(** *** Where the notes come from *)

Section Origins.
Import BMSParser.

(** Where an emitted note comes from: a tap from a tap event, a hold
    from a matched pair. *)
Lemma note_origin (lnType : Z) (tm : Q -> Q) (evs : list ChannelEvent) (n : Note) :
  In n (m_notes (materialise lnType tm evs)) ->
  (exists e, In e evs /\ n = tapOf tm e) \/ (type n = ln /\ matched lnType tm evs n).
Proof.
  intro Hin. destruct (type n) eqn:Ety.
  - left. assert (Hf : In n (filter isTap (m_notes (materialise lnType tm evs)))).
    { apply filter_In. split; [exact Hin|]. unfold isTap. rewrite Ety. reflexivity. }
    rewrite (proj1 (materialise_taps lnType tm evs)) in Hf.
    apply in_map_iff in Hf. destruct Hf as (e & <- & He).
    apply filter_In in He. exists e. split; [tauto|reflexivity].
  - right. split; [reflexivity|].
    apply (materialise_paired lnType tm evs); assumption.
Qed.

Lemma StronglySorted_nth {A : Type} (R : A -> A -> Prop) (l : list A) :
  StronglySorted R l ->
  forall i j a b, (i < j)%nat -> nth_error l i = Some a -> nth_error l j = Some b -> R a b.
Proof.
  induction 1 as [|x l Hs IH Hx]; intros i j a b Hij Hi Hj.
  - destruct i; discriminate.
  - destruct j as [|j]; [lia|]. cbn in Hj. destruct i as [|i]; cbn in Hi.
    + inversion Hi; subst. rewrite Forall_forall in Hx. apply Hx.
      apply nth_error_In with j. exact Hj.
    + apply (IH i j); [lia|assumption|assumption].
Qed.

(** X13.  When the initial tempo and every tempo change are positive
    and no stop is negative, the compiler returns an output in which no
    note has a negative duration, a tap has duration 0, and every note,
    with its whole length, lies within the chart duration. *)
Theorem X13_positive_tempo_gives_sound_notes (initialBPM0 : Q) (lnType : Z)
      (timeEvents : list TimeEvent) (channelEvents : list ChannelEvent) :
  0 < initialBPM0 -> Forall validTimeEvent timeEvents ->
  exists out,
    compileEvents initialBPM0 lnType timeEvents channelEvents = Some out /\
    forall n, In n (notes out) ->
      0 <= duration n /\ time n + duration n <= out_duration out /\
      (type n = tap -> duration n = 0).
Proof.
  intros Hpos Hval. unfold compileEvents. cbv zeta.
  destruct (integrate_monotone initialBPM0 (sort_by byBeatTE timeEvents)
                               (sort_by byBeat channelEvents) Hpos)
    as (st & Hint & Hmono).
  { apply Forall_forall. intros ev Hev. apply In_sort_by in Hev.
    rewrite Forall_forall in Hval. apply Hval. exact Hev. }
  rewrite Hint. eexists. split; [reflexivity|].
  cbn [notes out_duration]. intros n Hn. apply In_sort_by in Hn.
  destruct (note_origin _ _ _ _ Hn) as [(e & He & ->)|[Hty Hm]].
  - unfold tapOf. cbn [duration time type].
    destruct (Hmono e e He He) as (_ & _ & Hle).
    split; [apply Qle_refl|]. split; [|reflexivity]. rewrite Qplus_0_r. exact Hle.
  - destruct Hm as (i & j & eo & ec & Hij & Hi & Hj & _ & _ & _ & _ & Ht & Hd).
    assert (Ho : In eo (sort_by byBeat channelEvents)) by (eapply nth_error_In; exact Hi).
    assert (Hc : In ec (sort_by byBeat channelEvents)) by (eapply nth_error_In; exact Hj).
    assert (Hb : beat eo <= beat ec).
    { apply (StronglySorted_nth (fun a b => beat a <= beat b) _
               (sort_by_key_sorted beat channelEvents) i j); assumption. }
    destruct (Hmono eo ec Ho Hc) as (Hlt & Heq & _).
    destruct (Hmono ec ec Hc Hc) as (_ & _ & Hle).
    rewrite Ht, Hd. split; [|split; [|intro Habs; rewrite Hty in Habs; discriminate]].
    + apply Qle_lteq in Hb. destruct Hb as [Hb|Hb].
      * apply Hlt in Hb. lra.
      * apply Heq in Hb. lra.
    + lra.
Qed.

Lemma X13_positive_tempo_gives_sound_notes_witness :
  let tes := [mkTimeEvent 4 bpm (Some 180); mkTimeEvent 8 stop (Some 48)] in
  let ces := [mkChannelEvent 0 ev_ln 0 "01"; mkChannelEvent 8 ev_ln 0 "01";
              mkChannelEvent 12 ev_note 1 "01"]%string in
  0 < 120 /\ Forall validTimeEvent tes /\
  exists out,
    compileEvents 120 1 tes ces = Some out /\
    forall n, In n (notes out) ->
      0 <= duration n /\ time n + duration n <= out_duration out /\
      (type n = tap -> duration n = 0).
Proof.
  intros tes ces.
  assert (Hpos : 0 < 120) by reflexivity.
  assert (Hval : Forall validTimeEvent tes).
  { apply Forall_cons; [exists 180; split; reflexivity|].
    apply Forall_cons; [exists 48; split; [reflexivity|discriminate]|apply Forall_nil]. }
  split; [exact Hpos|]. split; [exact Hval|].
  exact (X13_positive_tempo_gives_sound_notes 120 1 tes ces Hpos Hval).
Defined.

End Origins.

(** *** The use of the time events *)

Section Consumption.
Import BMSParser.

Lemma StronglySorted_suffix {A : Type} (R : A -> A -> Prop) (l1 l2 : list A) :
  StronglySorted R (l1 ++ l2) -> StronglySorted R l2.
Proof.
  induction l1 as [|x l1 IH]; cbn; intro H; [exact H|].
  inversion H; subst. apply IH. assumption.
Qed.

Lemma near_same_beat (b : Q) (ev : TimeEvent) : te_beat ev == b -> near b ev = true.
Proof.
  intro H. unfold near.
  rewrite (Qltb_compat (Qabs (te_beat ev - b)) 0 1e-6 (1 # 1000000)).
  - reflexivity.
  - assert (E : te_beat ev - b == 0) by lra. rewrite E. reflexivity.
  - apply eps_value.
Qed.

(** One iteration on success: what it consumes of the pending events. *)
Lemma integrateBeat_success (st st' : Integration) (b : Q) :
  integrateBeat st b = Some st' ->
  exists used,
    pending st = used ++ pending st' /\
    (forall h rest, pending st' = h :: rest -> near b h = false) /\
    (exists added,
       i_bpms st' = i_bpms st ++ added /\
       map Some (map bp_bpm added) = map te_value (filter isBpmEvent used)) /\
    List.length (i_stops st')
    = (List.length (i_stops st) + List.length (filter isStopEvent used))%nat.
Proof.
  unfold integrateBeat. destruct (Qeq_bool (currentBPM st) 0); [discriminate|].
  cbv zeta. destruct (processEvents _ _ _ _) as [st1|] eqn:E; [|discriminate].
  intro H. inversion H; subst; clear H.
  destruct (processEvents_success _ _ _ _ _ E)
    as (used & Hsplit & _ & Hhead & _ & _ & Hb & Hs).
  exists used. cbn [pending i_bpms i_stops] in *.
  split; [exact Hsplit|]. split; [exact Hhead|]. split; [exact Hb|exact Hs].
Qed.

(** The outer loop uses up the time events: each tempo event adds its
    tempo point and each stop its stop record, in the order of the
    events. *)
Lemma integrateBeats_consumes (bs : list Q) :
  forall st st',
    integrateBeats st bs = Some st' ->
    StronglySorted Qlt bs ->
    StronglySorted (fun a b => te_beat a <= te_beat b) (pending st) ->
    (forall ev, In ev (pending st) -> exists k, In k bs /\ k == te_beat ev) ->
    pending st' = [] /\
    (exists added,
       i_bpms st' = i_bpms st ++ added /\
       map Some (map bp_bpm added) = map te_value (filter isBpmEvent (pending st))) /\
    List.length (i_stops st')
    = (List.length (i_stops st) + List.length (filter isStopEvent (pending st)))%nat.
Proof.
  induction bs as [|b bs IH]; intros st st' Hrun Hbs Hsorted Hrep;
    cbn [integrateBeats] in Hrun.
  - inversion Hrun; subst; clear Hrun.
    assert (Hnil : pending st' = []).
    { destruct (pending st') as [|ev rest]; [reflexivity|].
      destruct (Hrep ev (or_introl eq_refl)) as (k & [] & _). }
    rewrite Hnil. split; [reflexivity|]. cbn.
    split; [exists []; rewrite app_nil_r; split; reflexivity|lia].
  - destruct (integrateBeat st b) as [st1|] eqn:Estep; [|discriminate].
    destruct (integrateBeat_success _ _ _ Estep)
      as (used & Hsplit & Hhead & (a1 & Hb1 & Hv1) & Hs1).
    inversion Hbs as [|? ? Hbs' Hlt]; subst.
    rewrite Hsplit in Hsorted.
    assert (Hsorted1 := StronglySorted_suffix _ _ _ Hsorted).
    destruct (IH st1 st' Hrun Hbs' Hsorted1) as (Hnil & (a2 & Hb2 & Hv2) & Hs2).
    { intros ev Hev.
      destruct (Hrep ev) as (k & [<-|Hk] & Hke);
        [rewrite Hsplit; apply in_or_app; right; exact Hev| |exists k; tauto].
      exfalso. destruct (pending st1) as [|h rest] eqn:Ep; [destruct Hev|].
      assert (Hn := Hhead h rest eq_refl).
      assert (Hle : te_beat h <= te_beat ev).
      { destruct Hev as [->|Hev]; [apply Qle_refl|].
        inversion Hsorted1 as [|? ? _ Hall]; subst.
        rewrite Forall_forall in Hall. apply Hall. exact Hev. }
      destruct (Hrep h) as (kh & [<-|Hkh] & Hkhe).
      - rewrite Hsplit. apply in_or_app. right. left. reflexivity.
      - rewrite near_same_beat in Hn; [discriminate|]. symmetry. exact Hkhe.
      - rewrite Forall_forall in Hlt. specialize (Hlt kh Hkh). lra. }
    split; [exact Hnil|]. rewrite Hsplit, !filter_app, map_app, length_app. split.
    + exists (a1 ++ a2). split; [rewrite Hb2, Hb1, app_assoc; reflexivity|].
      rewrite !map_app, Hv1, Hv2. reflexivity.
    + lia.
Qed.

Lemma filter_length_Permutation {A : Type} (f : A -> bool) (l l' : list A) :
  Permutation l l' -> List.length (filter f l) = List.length (filter f l').
Proof.
  induction 1 as [|x l l' _ IH|x y l|l1 l2 l3 _ IH1 _ IH2]; cbn.
  - reflexivity.
  - destruct (f x); cbn; congruence.
  - destruct (f x); destruct (f y); reflexivity.
  - congruence.
Qed.

(** X14.  Every time event is applied exactly once: the tempo markers
    of the output are the initial tempo at time 0 followed by one marker
    per tempo event, with the values of the events in beat order, and the
    output has one stop record per stop event. *)
Theorem X14_time_events_applied_once (initialBPM0 : Q) (lnType : Z)
      (timeEvents : list TimeEvent) (channelEvents : list ChannelEvent)
      (out : Output) :
  compileEvents initialBPM0 lnType timeEvents channelEvents = Some out ->
  (exists added,
     bpms out = mkBpmPoint 0 initialBPM0 :: added /\
     map Some (map bp_bpm added)
     = map te_value (filter isBpmEvent (sort_by byBeatTE timeEvents))) /\
  List.length (stops out) = List.length (filter isStopEvent timeEvents).
Proof.
  unfold compileEvents. cbv zeta.
  destruct (integrate _ _ _) as [st|] eqn:Ei; [|discriminate].
  intro H. inversion H; subst; clear H. cbn [bpms stops].
  unfold integrate in Ei.
  destruct (criticalBeats_spec (sort_by byBeatTE timeEvents)
                               (sort_by byBeat channelEvents)) as (Hd & _ & Hrep).
  destruct (integrateBeats_consumes _ _ _ Ei) as (_ & Hb & Hs).
  - apply sort_by_sorted. exact Hd.
  - cbn [pending]. apply (sort_by_key_sorted te_beat).
  - cbn [pending]. intros ev Hev.
    destruct (Hrep (te_beat ev)) as (k & Hk & Hke); [left; apply in_map; exact Hev|].
    exists k. split; [|exact Hke]. unfold sortedBeats. apply In_sort_by. exact Hk.
  - cbn [pending i_bpms i_stops] in Hb, Hs. split; [exact Hb|].
    rewrite Hs. cbn [List.length plus]. symmetry.
    apply filter_length_Permutation. apply sort_by_Permutation.
Qed.

Lemma X14_time_events_applied_once_witness :
  let tes := [mkTimeEvent 8 stop (Some 48); mkTimeEvent 4 bpm (Some 180);
              mkTimeEvent 4 bpm (Some 90)] in
  let ces := [mkChannelEvent 12 ev_note 1 "01"]%string in
  exists out,
    compileEvents 120 1 tes ces = Some out /\
    List.length (stops out) = List.length (filter isStopEvent tes).
Proof.
  intros tes ces. destruct (compileEvents 120 1 tes ces) as [out|] eqn:E.
  - exists out. split; [reflexivity|].
    exact (proj2 (X14_time_events_applied_once 120 1 tes ces out E)).
  - vm_compute in E. discriminate E.
Defined.

End Consumption.

(** *** One tempo throughout *)

Section ConstantTempo.
Import BMSParser.

Variable tempo : Q.
Hypothesis tempo_nonzero : ~ tempo == 0.

Lemma Qeq_bool_nonzero : Qeq_bool tempo 0 = false.
Proof.
  destruct (Qeq_bool tempo 0) eqn:E; [|reflexivity].
  apply Qeq_bool_iff in E. contradiction.
Qed.

Lemma last_shift {A : Type} (l : list A) :
  forall a d, last (a :: l) d = last l a.
Proof.
  induction l as [|x l IH]; intros a d; [reflexivity|].
  change (last (a :: x :: l) d) with (last (x :: l) d).
  rewrite (IH x d), (IH x a). reflexivity.
Qed.

Lemma zero_is_critical (tes : list TimeEvent) (ces : list ChannelEvent) :
  In 0 (criticalBeats tes ces).
Proof.
  unfold criticalBeats.
  assert (Hd0 : distinct (setAdd 0 [])) by (simpl; split; [intros y []|exact I]).
  destruct (fold_setAdd_spec (map te_beat tes ++ map beat ces) (setAdd 0 []) Hd0)
    as (_ & _ & Hkeep & _).
  apply Hkeep. left. reflexivity.
Qed.

Lemma integrateBeat_constant (st : Integration) (b : Q) :
  currentBPM st = tempo -> pending st = [] ->
  integrateBeat st b
  = Some (mkIntegration b (lastTime st + (b - lastBeat st) * (60.0 / tempo)) tempo []
                        (beatToTime st
                         ++ [(b, lastTime st + (b - lastBeat st) * (60.0 / tempo))])
                        (i_bpms st) (i_stops st)).
Proof.
  intros Hb Hp. unfold integrateBeat. rewrite Hb, Hp, Qeq_bool_nonzero.
  reflexivity.
Qed.

(** Without time events the loop keeps [lastTime = lastBeat * 60/tempo]
    and gives every beat that time. *)
Lemma integrateBeats_constant (bs : list Q) :
  forall st,
    currentBPM st = tempo -> pending st = [] ->
    lastTime st == lastBeat st * (60.0 / tempo) ->
    Forall (fun p => snd p == fst p * (60.0 / tempo)) (beatToTime st) ->
    exists st',
      integrateBeats st bs = Some st' /\
      i_bpms st' = i_bpms st /\ i_stops st' = i_stops st /\
      lastBeat st' = last bs (lastBeat st) /\
      lastTime st' == lastBeat st' * (60.0 / tempo) /\
      Forall (fun p => snd p == fst p * (60.0 / tempo)) (beatToTime st').
Proof.
  induction bs as [|b bs IH]; intros st Hb Hp Ht Hm; cbn [integrateBeats].
  - exists st. repeat split; auto.
  - rewrite (integrateBeat_constant st b Hb Hp).
    assert (Hnew : lastTime st + (b - lastBeat st) * (60.0 / tempo)
                   == b * (60.0 / tempo)).
    { rewrite Ht. ring. }
    destruct (IH (mkIntegration b (lastTime st + (b - lastBeat st) * (60.0 / tempo))
                                tempo []
                                (beatToTime st
                                 ++ [(b, lastTime st + (b - lastBeat st) * (60.0 / tempo))])
                                (i_bpms st) (i_stops st)))
      as (st' & Hrun & Hbp & Hsp & Hlast & Ht' & Hm'); cbn [currentBPM pending lastTime
                                                       lastBeat beatToTime]; auto.
    { apply Forall_app. split; [exact Hm|]. constructor; [exact Hnew|constructor]. }
    exists st'. split; [exact Hrun|]. split; [exact Hbp|]. split; [exact Hsp|].
    split; [|split; assumption].
    rewrite Hlast. cbn [lastBeat]. symmetry. apply last_shift.
Qed.

Lemma sorted_last_max (l : list Q) (d : Q) :
  StronglySorted Qlt l -> forall x, In x l -> x <= last l d.
Proof.
  induction 1 as [|a l Hs IH Ha]; intros x Hx; [destruct Hx|].
  destruct l as [|a' l']; [destruct Hx as [->|[]]; apply Qle_refl|].
  change (last (a :: a' :: l') d) with (last (a' :: l') d).
  destruct Hx as [->|Hx]; [|apply IH; exact Hx].
  apply Qle_trans with a'.
  - apply Qlt_le_weak. rewrite Forall_forall in Ha. apply Ha. left. reflexivity.
  - apply IH. left. reflexivity.
Qed.

Lemma last_In (l : list Q) (d : Q) : l <> [] -> In (last l d) l.
Proof.
  induction l as [|a l IH]; intro H; [contradiction|].
  destruct l as [|a' l']; [left; reflexivity|].
  right. apply IH. discriminate.
Qed.

(** A chart without tempo changes and stops: one tempo point, no stop,
    every note at [beat * 60 / tempo] seconds, and a duration that is the
    time of the last beat with an event. *)
Lemma compile_constant_tempo (lnType : Z) (channelEvents : list ChannelEvent) :
  exists out,
    compileEvents tempo lnType [] channelEvents = Some out /\
    bpms out = [mkBpmPoint 0 tempo] /\ stops out = [] /\
    (forall n, In n (notes out) ->
       exists e, In e channelEvents /\ lane n = ce_lane e /\
                 time n == beat e * (60.0 / tempo)) /\
    exists b,
      (b = 0 \/ In b (map beat channelEvents)) /\
      (forall e, In e channelEvents -> beat e <= b) /\ 0 <= b /\
      out_duration out == b * (60.0 / tempo).
Proof.
  unfold compileEvents. change (sort_by byBeatTE []) with (@nil TimeEvent).
  cbv zeta. unfold integrate. set (ces := sort_by byBeat channelEvents).
  destruct (integrateBeats_constant (sortedBeats [] ces)
              (mkIntegration 0 0 tempo [] [] [mkBpmPoint 0 tempo] []))
    as (st & Hrun & Hbp & Hsp & Hlast & Ht & Hm); cbn [currentBPM pending lastTime
                                                    lastBeat beatToTime]; auto.
  { ring. }
  rewrite Hrun. eexists. split; [reflexivity|].
  cbn [bpms stops notes out_duration lastBeat i_bpms i_stops] in *.
  split; [exact Hbp|]. split; [exact Hsp|].
  destruct (criticalBeats_spec [] ces) as (Hd & Hfrom & Hrep).
  assert (Htime : forall e, In e ces ->
            timeOf (beatToTime st) (beat e) == beat e * (60.0 / tempo)).
  { intros e He.
    destruct (lookup_found (beatToTime st) (beat e)) as (k & t & Hin & Hk & Hl).
    - rewrite (integrateBeats_keys _ _ _ Hrun). cbn [beatToTime app].
      destruct (Hrep (beat e)) as (k & Hk & Hke); [right; apply in_map; exact He|].
      exists k. split; [|exact Hke]. unfold sortedBeats. apply In_sort_by. exact Hk.
    - unfold timeOf. rewrite Hl. rewrite Forall_forall in Hm.
      specialize (Hm _ Hin). cbn [fst snd] in Hm. rewrite Hm, Hk. reflexivity. }
  split.
  - intros n Hn. apply In_sort_by in Hn.
    destruct (note_origin _ _ _ _ Hn) as [(e & He & ->)|[Hty Hmt]].
    + exists e. split; [apply In_sort_by in He; exact He|].
      split; [reflexivity|]. cbn [tapOf time]. apply Htime. exact He.
    + destruct Hmt as (i & j & eo & ec & _ & Hi & _ & [_ Hl] & _ & _ & _ & Htm & _).
      assert (Ho : In eo ces) by (eapply nth_error_In; exact Hi).
      exists eo. split; [apply In_sort_by in Ho; exact Ho|].
      split; [symmetry; exact Hl|]. rewrite Htm. apply Htime. exact Ho.
  - exists (lastBeat st). rewrite Hlast.
    assert (Hs : StronglySorted Qlt (sortedBeats [] ces))
      by (apply sort_by_sorted; exact Hd).
    assert (Hzero : In 0 (sortedBeats [] ces)).
    { unfold sortedBeats. apply In_sort_by. apply zero_is_critical. }
    assert (Hne : sortedBeats [] ces <> []).
    { intro Habs. rewrite Habs in Hzero. destruct Hzero. }
    split; [|split; [|split]].
    + assert (Hl := proj1 (In_sort_by _ _ _) (last_In _ 0 Hne)).
      destruct (Hfrom _ Hl) as [E|[E|E]]; [left; exact E|destruct E|right].
      apply in_map_iff in E. destruct E as (e & <- & He).
      apply in_map. apply In_sort_by in He. exact He.
    + intros e He. destruct (Hrep (beat e)) as (k & Hk & Hke).
      { right. apply in_map. apply In_sort_by. exact He. }
      rewrite <- Hke. apply sorted_last_max; [exact Hs|].
      unfold sortedBeats. apply In_sort_by. exact Hk.
    + apply sorted_last_max; [exact Hs|exact Hzero].
    + rewrite <- Hlast. exact Ht.
Qed.

End ConstantTempo.

Section ConstantTempoTimeline.
Import BMSParser.

(** X15.  A chart without tempo changes and stops, at a tempo that is
    not 0: the compiler returns the single tempo point [{0, tempo}] and
    no stop; every note lies at [beat * 60 / tempo] seconds for the beat
    of an event of its lane; and the chart duration is
    [b * 60 / tempo] for the last beat [b] that carries an event (0
    without events), not the end of the last measure. *)
Theorem X15_constant_tempo_timeline (tempo : Q) (lnType : Z)
        (channelEvents : list ChannelEvent) :
  ~ tempo == 0 ->
  exists out,
    compileEvents tempo lnType [] channelEvents = Some out /\
    bpms out = [mkBpmPoint 0 tempo] /\ stops out = [] /\
    (forall n, In n (notes out) ->
       exists e, In e channelEvents /\ lane n = ce_lane e /\
                 time n == beat e * (60.0 / tempo)) /\
    exists b,
      (b = 0 \/ In b (map beat channelEvents)) /\
      (forall e, In e channelEvents -> beat e <= b) /\ 0 <= b /\
      out_duration out == b * (60.0 / tempo).
Proof. intro H. exact (compile_constant_tempo tempo H lnType channelEvents). Qed.

Lemma X15_constant_tempo_timeline_witness :
  let ces := [mkChannelEvent 4 ev_note 1 "02"; mkChannelEvent 0 ev_note 0 "01"]%string in
  ~ 150 == 0 /\
  exists out,
    compileEvents 150 1 [] ces = Some out /\
    bpms out = [mkBpmPoint 0 150] /\ stops out = [].
Proof.
  intro ces.
  assert (Hne : ~ 150 == 0) by (intro H; vm_compute in H; discriminate H).
  split; [exact Hne|].
  destruct (X15_constant_tempo_timeline 150 1 ces Hne) as (out & Hout & Hb & Hs & _).
  exists out. split; [exact Hout|]. split; [exact Hb|exact Hs].
Defined.

End ConstantTempoTimeline.

(** *** Measures and steps *)

Section MeasureTable.
Import BMSParser.


(** With every scale 1 the table loop succeeds and entry [k] is
    [total + 4 k]. *)
Lemma startBeatsFrom_plain (c : Chart) (n : nat) :
  (forall i, measureScale c i = Some 1) ->
  forall i total,
    exists l,
      startBeatsFrom c i n total = Some l /\
      forall k, (k <= n)%nat -> nth k l 0 == total + 4 * inject_Z (Z.of_nat k).
Proof.
  intro Hone. induction n as [|n IH]; intros i total; cbn [startBeatsFrom].
  - eexists. split; [reflexivity|]. intros k Hk. assert (k = 0%nat) as -> by lia.
    cbn [nth]. change (inject_Z (Z.of_nat 0)) with 0. ring.
  - rewrite Hone. destruct (IH (S i) (total + 4.0 * 1)) as (l & Hl & Hk).
    rewrite Hl. eexists. split; [reflexivity|]. intros [|k] Hle.
    + cbn [nth]. change (inject_Z (Z.of_nat 0)) with 0. ring.
    + cbn [nth]. rewrite Hk by lia.
      rewrite Nat2Z.inj_succ, <- Z.add_1_r, inject_Z_plus.
      change (inject_Z 1) with 1. assert (E4 : 4.0 == 4) by reflexivity.
      rewrite E4. ring.
Qed.

Lemma getBeat_span (msb : list Q) (m : nat) (step totalSteps : Q) :
  0 <= step -> step < totalSteps -> nth m msb 0 <= nth (S m) msb 0 ->
  inMeasure msb m (getBeat msb m step totalSteps).
Proof.
  intros H0 H1 Hlen. unfold inMeasure, getBeat. cbv zeta.
  set (a := nth m msb 0) in *. set (z := nth (S m) msb 0) in *.
  assert (Hpos : 0 < totalSteps) by lra.
  assert (Hr0 : 0 <= step / totalSteps).
  { apply Qle_shift_div_l; [exact Hpos|]. rewrite Qmult_0_l. exact H0. }
  assert (Hr1 : step / totalSteps < 1).
  { apply Qlt_shift_div_r; [exact Hpos|]. rewrite Qmult_1_l. exact H1. }
  set (r := step / totalSteps) in *.
  assert (Ha : 0 <= r * (z - a)) by (apply Qmult_le_0_compat; lra).
  assert (Hb : 0 <= (1 - r) * (z - a)) by (apply Qmult_le_0_compat; lra).
  assert (E : (1 - r) * (z - a) == (z - a) - r * (z - a)) by ring.
  rewrite E in Hb. split; [lra|]. split; [lra|].
  intro Hlt. assert (Hc : 0 < (1 - r) * (z - a)) by (apply Qmult_lt_0_compat; lra).
  rewrite E in Hc. lra.
Qed.

Lemma concatEvents_fst_Forall (P : TimeEvent -> Prop)
      (l : list (list TimeEvent * list ChannelEvent)) :
  Forall (fun p => Forall P (fst p)) l -> Forall P (fst (concatEvents l)).
Proof.
  induction 1 as [|x l Hx Hl IH]; simpl; [constructor|].
  apply Forall_app. split; assumption.
Qed.

(** A step pushes at most one event, at the beat of the step and with
    the symbol of the step. *)
Lemma scanStep_shape (c : Chart) (ch val : string) (b : Q) :
  let r := scanStep c ch val b in
  (List.length (fst r) + List.length (snd r) <= 1)%nat /\
  Forall (fun te => te_beat te = b) (fst r) /\
  Forall (fun e => beat e = b /\ valStr e = val) (snd r).
Proof.
  unfold scanStep.
  repeat match goal with
         | |- context [if ?x then _ else _] => destruct x
         | |- context [match lookup ?e ?k ?l with _ => _ end] => destruct (lookup e k l)
         end;
    cbn; repeat split; try lia; repeat constructor.
Qed.

Lemma div2_steps (len i : nat) :
  (i < Nat.div2 (S len))%nat ->
  0 <= inject_Z (Z.of_nat i) /\ inject_Z (Z.of_nat i) < inject_Z (Z.of_nat len) / 2.
Proof.
  intro H. split.
  - change 0 with (inject_Z 0). rewrite <- Zle_Qle. lia.
  - apply Qlt_shift_div_l; [reflexivity|].
    change 2 with (inject_Z 2). rewrite <- inject_Z_mult, <- Zlt_Qlt.
    assert (H2 : (2 * Nat.div2 (S len) <= S len)%nat).
    { destruct (Nat.even (S len)) eqn:E.
      - rewrite (Nat.div2_odd (S len)) at 2. lia.
      - rewrite (Nat.div2_odd (S len)) at 2. lia. }
    lia.
Qed.

(** The events of a measure lie within the measure. *)
Lemma scanMeasure_span (c : Chart) (msb : list Q) (m : nat) :
  nth m msb 0 <= nth (S m) msb 0 ->
  Forall (fun te => inMeasure msb m (te_beat te)) (fst (scanMeasure c msb m)) /\
  Forall (fun e => inMeasure msb m (beat e)) (snd (scanMeasure c msb m)).
Proof.
  intro Hlen. unfold scanMeasure.
  destruct (lookup Nat.eqb m (measures c)) as [channels|]; [|split; constructor].
  split.
  - apply concatEvents_fst_Forall, Forall_map, Forall_forall.
    intros [ch data] _. unfold scanChannel. cbv zeta. cbn [fst snd].
    apply concatEvents_fst_Forall, Forall_map, Forall_forall.
    intros i Hi. apply in_seq in Hi.
    destruct (div2_steps (String.length data) i) as [H0 H1]; [lia|].
    destruct (scanStep_shape c ch (substring (i * 2) 2 data)
                (getBeat msb m (inject_Z (Z.of_nat i))
                         (inject_Z (Z.of_nat (String.length data)) / 2)))
      as (_ & Hte & _).
    eapply Forall_impl; [|exact Hte]. cbv beta. intros te ->.
    apply getBeat_span; assumption.
  - apply concatEvents_snd_Forall, Forall_map, Forall_forall.
    intros [ch data] _. unfold scanChannel. cbv zeta. cbn [fst snd].
    apply concatEvents_snd_Forall, Forall_map, Forall_forall.
    intros i Hi. apply in_seq in Hi.
    destruct (div2_steps (String.length data) i) as [H0 H1]; [lia|].
    destruct (scanStep_shape c ch (substring (i * 2) 2 data)
                (getBeat msb m (inject_Z (Z.of_nat i))
                         (inject_Z (Z.of_nat (String.length data)) / 2)))
      as (_ & _ & Hce).
    eapply Forall_impl; [|exact Hce]. cbv beta. intros e [-> _].
    apply getBeat_span; assumption.
Qed.



(** X17.  The events of a measure lie within the measure: when the
    measure does not have a negative length, every time event and every
    channel event that the grid scan makes of it has a beat from the
    start of the measure up to its end, and before the end when the
    measure is not empty. *)
Theorem X17_events_stay_in_their_measure (c : Chart) (msb : list Q) (m : nat) :
  nth m msb 0 <= nth (S m) msb 0 ->
  Forall (fun te => inMeasure msb m (te_beat te)) (fst (scanMeasure c msb m)) /\
  Forall (fun e => inMeasure msb m (beat e)) (snd (scanMeasure c msb m)).
Proof. exact (scanMeasure_span c msb m). Qed.

Lemma X17_events_stay_in_their_measure_witness :
  let msb := [0; 4; 8; 12] in
  nth 1 msb 0 <= nth 2 msb 0 /\
  Forall (fun e => inMeasure msb 1 (beat e)) (snd (scanMeasure stopChart msb 1)).
Proof.
  intro msb.
  assert (H : nth 1 msb 0 <= nth 2 msb 0) by (vm_compute; discriminate).
  split; [exact H|].
  exact (proj2 (X17_events_stay_in_their_measure stopChart msb 1 H)).
Defined.

(** X18.  One step of the grid pushes at most one event, and what it
    pushes carries the beat of the step and, for a channel event, the
    symbol of the step. *)
Theorem X18_step_pushes_at_most_one_event (c : Chart) (ch val : string) (b : Q) :
  let r := scanStep c ch val b in
  (List.length (fst r) + List.length (snd r) <= 1)%nat /\
  Forall (fun te => te_beat te = b) (fst r) /\
  Forall (fun e => beat e = b /\ valStr e = val) (snd r).
Proof. exact (scanStep_shape c ch val b). Qed.

End MeasureTable.

(** *** The symbols of channel 03 *)

Section Symbols.
Import BMSParser.






End Symbols.

(** *** Plain charts, end to end *)

Section PlainCharts.
Import BMSParser.

Lemma lookup_absent (k : string) (l : list (string * string)) :
  (forall d, ~ In (k, d) l) -> lookup String.eqb k l = None.
Proof.
  induction l as [|[k' v] l IH]; intro H; cbn [lookup]; [reflexivity|].
  destruct (String.eqb_spec k k') as [->|Hne].
  - exfalso. apply (H v). left. reflexivity.
  - apply IH. intros d Hd. apply (H d). right. exact Hd.
Qed.

Lemma measureScale_plain (c : Chart) :
  plainChart c -> forall i, measureScale c i = Some 1.
Proof.
  intros Hp i. unfold measureScale.
  destruct (lookup Nat.eqb i (measures c)) as [chs|] eqn:E; [|reflexivity].
  rewrite lookup_absent; [reflexivity|].
  intros d Hd. destruct (Hp i chs _ d E Hd) as [H _]. apply H. reflexivity.
Qed.

Lemma scanStep_no_time (c : Chart) (ch val : string) (b : Q) :
  ch <> "03"%string -> ch <> "08"%string -> ch <> "09"%string ->
  fst (scanStep c ch val b) = [].
Proof.
  intros H3 H8 H9. unfold scanStep.
  apply String.eqb_neq in H3, H8, H9. rewrite H3, H8, H9.
  repeat match goal with
         | |- context [if ?x then _ else _] => destruct x
         end; reflexivity.
Qed.

Lemma concatEvents_fst_nil (l : list (list TimeEvent * list ChannelEvent)) :
  Forall (fun p => fst p = []) l -> fst (concatEvents l) = [].
Proof.
  induction 1 as [|x l Hx Hl IH]; [reflexivity|].
  cbn [concatEvents fold_right appendEvents fst].
  change (fold_right appendEvents ([], []) l) with (concatEvents l).
  rewrite Hx, IH. reflexivity.
Qed.

Lemma concatEvents_snd_In (l : list (list TimeEvent * list ChannelEvent))
      (e : ChannelEvent) :
  In e (snd (concatEvents l)) -> exists x, In x l /\ In e (snd x).
Proof.
  induction l as [|x l IH]; cbn; [intros []|].
  intro H. apply in_app_or in H. destruct H as [H|H].
  - exists x. split; [left; reflexivity|exact H].
  - destruct (IH H) as (y & Hy & He). exists y. split; [right; exact Hy|exact He].
Qed.

Lemma scanChart_no_time (c : Chart) (msb : list Q) :
  plainChart c -> fst (scanChart c msb) = [].
Proof.
  intro Hp. unfold scanChart. apply concatEvents_fst_nil, Forall_map, Forall_forall.
  intros m _. unfold scanMeasure.
  destruct (lookup Nat.eqb m (measures c)) as [chs|] eqn:E; [|reflexivity].
  apply concatEvents_fst_nil, Forall_map, Forall_forall.
  intros [ch data] Hin. cbn [fst snd]. unfold scanChannel. cbv zeta.
  apply concatEvents_fst_nil, Forall_map, Forall_forall. intros i _.
  destruct (Hp m chs ch data E Hin) as (_ & H3 & H8 & H9).
  apply scanStep_no_time; assumption.
Qed.

Lemma insert_by_nat_sorted (x : nat) (l : list nat) :
  StronglySorted le l -> StronglySorted le (insert_by Nat.ltb x l).
Proof.
  induction l as [|y l IH]; intro Hs; cbn [insert_by].
  - constructor; constructor.
  - inversion Hs as [|? ? Hs' Hy]; subst.
    destruct (Nat.ltb_spec y x) as [Hlt|Hge].
    + constructor; [apply IH; exact Hs'|].
      apply Forall_forall. intros z Hz. apply In_insert_by in Hz.
      destruct Hz as [->|Hz]; [lia|]. rewrite Forall_forall in Hy. apply Hy. exact Hz.
    + constructor; [exact Hs|]. constructor; [exact Hge|].
      rewrite Forall_forall in *. intros z Hz. specialize (Hy z Hz). lia.
Qed.

Lemma sort_by_nat_sorted (l : list nat) : StronglySorted le (sort_by Nat.ltb l).
Proof.
  induction l as [|x l IH]; cbn [sort_by]; [constructor|].
  apply insert_by_nat_sorted. exact IH.
Qed.

Lemma nat_sorted_last_max (l : list nat) (d : nat) :
  StronglySorted le l -> forall x, In x l -> (x <= last l d)%nat.
Proof.
  induction 1 as [|a l Hs IH Ha]; intros x Hx; [destruct Hx|].
  destruct l as [|a' l']; [destruct Hx as [->|[]]; apply Nat.le_refl|].
  change (last (a :: a' :: l') d) with (last (a' :: l') d).
  destruct Hx as [->|Hx]; [|apply IH; exact Hx].
  apply Nat.le_trans with a'.
  - rewrite Forall_forall in Ha. apply Ha. left. reflexivity.
  - apply IH. left. reflexivity.
Qed.

Lemma sortedMeasureKeys_max (c : Chart) (m : nat) :
  In m (map fst (measures c)) -> (m <= maxMeasure c)%nat.
Proof.
  unfold maxMeasure, sortedMeasureKeys. intro H.
  apply (In_sort_by Nat.ltb) in H.
  assert (Hs := sort_by_nat_sorted (map fst (measures c))).
  apply nat_sorted_last_max; assumption.
Qed.

(** X20.  A chart in plain 4/4 at one tempo that is not 0 compiles: the
    output has the one tempo point and no stop, and every note lies at
    [b * 60 / tempo] seconds for a beat [b] of some measure [m] of the
    chart, from [4 m] up to, and not including, [4 m + 4]. *)
Theorem X20_plain_chart_end_to_end (c : Chart) :
  plainChart c -> ~ chartInitialBPM c == 0 ->
  exists out,
    parse c = Some out /\
    bpms out = [mkBpmPoint 0 (chartInitialBPM c)] /\ stops out = [] /\
    forall n, In n (notes out) ->
      exists m b,
        In m (map fst (measures c)) /\
        4 * inject_Z (Z.of_nat m) <= b /\ b < 4 * inject_Z (Z.of_nat m) + 4 /\
        time n == b * (60.0 / chartInitialBPM c).
Proof.
  intros Hp Hne. unfold parse, measureStartBeats.
  destruct (startBeatsFrom_plain c (S (maxMeasure c)) (measureScale_plain c Hp) 0%nat 0)
    as (msb & Hmsb & Hk).
  rewrite Hmsb.
  pose proof (scanChart_no_time c msb Hp) as Hte.
  destruct (scanChart c msb) as [tes ces] eqn:Es. cbn [fst] in Hte. subst tes.
  destruct (compile_constant_tempo (chartInitialBPM c) Hne (chartLnType c) ces)
    as (out & Hout & Hb & Hs & Hnotes & _).
  exists out. split; [exact Hout|]. split; [exact Hb|]. split; [exact Hs|].
  intros n Hn. destruct (Hnotes n Hn) as (e & He & _ & Ht).
  assert (Hscan : In e (snd (scanChart c msb))) by (rewrite Es; exact He).
  unfold scanChart in Hscan. apply concatEvents_snd_In in Hscan.
  destruct Hscan as (x & Hx & Hex). apply in_map_iff in Hx.
  destruct Hx as (m & <- & Hm). unfold sortedMeasureKeys in Hm. apply In_sort_by in Hm.
  pose proof (sortedMeasureKeys_max c m Hm) as Hmax.
  assert (H1 := Hk m ltac:(lia)). assert (H2 := Hk (S m) ltac:(lia)).
  rewrite Nat2Z.inj_succ, <- Z.add_1_r, inject_Z_plus in H2.
  change (inject_Z 1) with 1 in H2.
  destruct (scanMeasure_span c msb m) as [_ Hspan]; [lra|].
  rewrite Forall_forall in Hspan. destruct (Hspan e Hex) as (Ha & Hz & Hlt).
  exists m, (beat e). split; [exact Hm|]. split; [lra|]. split; [|exact Ht].
  assert (Hstrict : beat e < nth (S m) msb 0) by (apply Hlt; lra). lra.
Qed.

Lemma X20_plain_chart_end_to_end_witness :
  plainChart noStopChart /\ ~ chartInitialBPM noStopChart == 0 /\
  exists out,
    parse noStopChart = Some out /\
    bpms out = [mkBpmPoint 0 (chartInitialBPM noStopChart)] /\ stops out = [].
Proof.
  assert (Hp : plainChart noStopChart).
  { intros m chs ch data Hl Hin.
    destruct m as [|[|[|m]]]; cbn in Hl; inversion Hl; subst;
      destruct Hin as [E|[]]; inversion E; subst; repeat split; discriminate. }
  assert (Hne : ~ chartInitialBPM noStopChart == 0)
    by (intro H; vm_compute in H; discriminate H).
  split; [exact Hp|]. split; [exact Hne|].
  destruct (X20_plain_chart_end_to_end noStopChart Hp Hne) as (out & Ho & Hb & Hs & _).
  exists out. split; [exact Ho|]. split; [exact Hb|exact Hs].
Defined.

End PlainCharts.

(** ** The line patterns *)

Section Tokenizer.
Import BMSParser Lines.

Lemma isDigit_digitVal (c : ascii) :
  isDigit c = true -> exists d, digitVal 10 c = Some d /\ (0 <= d <= 9)%Z.
Proof.
  unfold isDigit, digitVal, code. intro H. apply andb_prop in H. destruct H as [Ha Hb].
  apply Nat.leb_le in Ha, Hb.
  assert (E1 : (48 <=? Z.of_nat (nat_of_ascii c))%Z = true) by (apply Z.leb_le; lia).
  assert (E2 : (Z.of_nat (nat_of_ascii c) <=? 57)%Z = true) by (apply Z.leb_le; lia).
  rewrite E1, E2. cbn [andb].
  assert (E3 : (Z.of_nat (nat_of_ascii c) - 48 <? 10)%Z = true) by (apply Z.ltb_lt; lia).
  rewrite E3. eexists. split; [reflexivity|lia].
Qed.

Lemma takeWhile_prefix (p : ascii -> bool) (key : string) (c : ascii) (rest : string) :
  allChars p key = true -> p c = false ->
  takeWhile p (key ++ String c rest) = key /\
  dropWhile p (key ++ String c rest) = String c rest.
Proof.
  intros Hk Hc. induction key as [|x key IH]; cbn [append takeWhile dropWhile].
  - rewrite Hc. split; reflexivity.
  - cbn [allChars] in Hk. apply andb_prop in Hk. destruct Hk as [Hx Hk].
    rewrite Hx. destruct (IH Hk) as [-> ->]. split; reflexivity.
Qed.

Lemma member_spec (c : ascii) (cs : list ascii) :
  existsb (Ascii.eqb c) cs = true <-> In c cs.
Proof.
  rewrite existsb_exists. split.
  - intros (x & Hin & E). apply Ascii.eqb_eq in E. subst. exact Hin.
  - intro H. exists c. split; [exact H|apply Ascii.eqb_refl].
Qed.

Lemma isDigit_set (c : ascii) : isDigit c = existsb (Ascii.eqb c) decimalDigits.
Proof. destruct c as [[] [] [] [] [] [] [] []]; reflexivity. Qed.

Lemma isAlnum_set (c : ascii) : isAlnum c = existsb (Ascii.eqb c) lettersAndDigits.
Proof. destruct c as [[] [] [] [] [] [] [] []]; reflexivity. Qed.

Lemma allChars_madeOf (p : ascii -> bool) (cs : list ascii) :
  (forall c, p c = existsb (Ascii.eqb c) cs) ->
  forall s, allChars p s = true <-> madeOf cs s.
Proof.
  intros Hp s. unfold madeOf. induction s as [|c s IH]; cbn [allChars list_ascii_of_string].
  - split; [constructor|reflexivity].
  - rewrite andb_true_iff, IH, Hp, member_spec. split.
    + intros [Hc Hs]. constructor; assumption.
    + intro H. inversion H; subst. split; assumption.
Qed.

(** X23.  The measure pattern accepts exactly the lines made of [#],
    three decimal digits of measure index, two decimal digits of channel,
    a colon and a data part that is not empty and holds letters and
    digits only; the measure index of an accepted line is read as a
    number from 0 to 999. *)
Theorem X23_measure_line_shape (line m ch data : string) :
  (matchMeasure line = Some (m, ch, data) <->
   line = ("#" ++ m ++ ch ++ ":" ++ data)%string /\
   String.length m = 3%nat /\ String.length ch = 2%nat /\
   madeOf decimalDigits m /\ madeOf decimalDigits ch /\
   data <> EmptyString /\ madeOf lettersAndDigits data) /\
  (matchMeasure line = Some (m, ch, data) ->
   exists n, parseInt m = Some n /\ (0 <= n <= 999)%Z).
Proof.
  assert (Hto : matchMeasure line = Some (m, ch, data) ->
            exists a b c d e,
              line = String "#" (String a (String b (String c (String d (String e
                       (String ":" data)))))) /\
              m = String a (String b (String c EmptyString)) /\
              ch = String d (String e EmptyString) /\
              isDigit a = true /\ isDigit b = true /\ isDigit c = true /\
              isDigit d = true /\ isDigit e = true /\
              data <> EmptyString /\ allChars isAlnum data = true).
  { unfold matchMeasure.
    destruct line as [|c0 [|a [|b [|c [|d [|e [|c6 rest]]]]]]]; try discriminate;
      try (destruct c0 as [[] [] [] [] [] [] [] []]; discriminate).
    destruct (Ascii.eqb_spec c0 "#") as [->|Hne];
      [|destruct c0 as [[] [] [] [] [] [] [] []]; try discriminate; contradiction].
    destruct (Ascii.eqb_spec c6 ":") as [->|Hne];
      [|destruct c6 as [[] [] [] [] [] [] [] []]; try discriminate; contradiction].
    destruct (isDigit a) eqn:Ea; [|discriminate].
    destruct (isDigit b) eqn:Eb; [|discriminate].
    destruct (isDigit c) eqn:Ec; [|discriminate].
    destruct (isDigit d) eqn:Ed; [|discriminate].
    destruct (isDigit e) eqn:Ee; [|discriminate].
    destruct (String.eqb_spec rest EmptyString) as [->|Hrest]; [discriminate|].
    destruct (allChars isAlnum rest) eqn:Er; [|discriminate].
    cbn [andb negb]. intro H. inversion H; subst; clear H.
    exists a, b, c, d, e. repeat split; assumption. }
  assert (Hd := allChars_madeOf isDigit decimalDigits isDigit_set).
  assert (Ha := allChars_madeOf isAlnum lettersAndDigits isAlnum_set).
  split; [split|].
  - intro H. destruct (Hto H) as (a & b & c & d & e & -> & -> & -> & Ea & Eb & Ec & Ed & Ee
                                  & Hne & Hal).
    split; [reflexivity|]. split; [reflexivity|]. split; [reflexivity|].
    split; [apply Hd; cbn [allChars]; rewrite Ea, Eb, Ec; reflexivity|].
    split; [apply Hd; cbn [allChars]; rewrite Ed, Ee; reflexivity|].
    split; [exact Hne|apply Ha; exact Hal].
  - intros (-> & Hm & Hch & Hdm & Hdch & Hne & Hal).
    destruct m as [|a [|b [|c [|x m]]]]; try discriminate Hm.
    destruct ch as [|d [|e [|x ch]]]; try discriminate Hch.
    apply Hd in Hdm, Hdch. apply Ha in Hal. cbn [allChars] in Hdm, Hdch.
    apply andb_prop in Hdm. destruct Hdm as [Ea Hdm].
    apply andb_prop in Hdm. destruct Hdm as [Eb Hdm].
    apply andb_prop in Hdm. destruct Hdm as [Ec _].
    apply andb_prop in Hdch. destruct Hdch as [Ed Hdch].
    apply andb_prop in Hdch. destruct Hdch as [Ee _].
    cbn [append]. unfold matchMeasure. rewrite Ea, Eb, Ec, Ed, Ee, Hal.
    destruct (String.eqb_spec data EmptyString) as [E|_]; [contradiction|]. reflexivity.
  - intro H. destruct (Hto H) as (a & b & c & d & e & _ & -> & _ & Ea & Eb & Ec & _).
    destruct (isDigit_digitVal a Ea) as (da & Hda & Hra).
    destruct (isDigit_digitVal b Eb) as (db & Hdb & Hrb).
    destruct (isDigit_digitVal c Ec) as (dc & Hdc & Hrc).
    unfold parseInt. cbn [parsePrefix]. rewrite Hda, Hdb, Hdc.
    eexists. split; [reflexivity|lia].
Qed.

Lemma X23_measure_line_shape_witness :
  matchMeasure "#00211:01000000" = Some ("002", "11", "01000000")%string /\
  madeOf decimalDigits "002" /\ madeOf decimalDigits "11" /\
  exists n, parseInt "002" = Some n /\ (0 <= n <= 999)%Z.
Proof.
  assert (H : matchMeasure "#00211:01000000" = Some ("002", "11", "01000000")%string)
    by reflexivity.
  destruct (X23_measure_line_shape "#00211:01000000" "002" "11" "01000000") as [Hiff Hn].
  destruct (proj1 Hiff H) as (_ & _ & _ & Hm & Hc & _).
  split; [exact H|]. split; [exact Hm|]. split; [exact Hc|exact (Hn H)].
Defined.

(** X24.  A measure line whose data part holds a character that is
    neither a letter nor a digit, such as the decimal point of a measure
    length [0.75], is read by neither pattern of the tokenizer, so the
    line has no effect. *)
Theorem X24_line_with_other_character_is_dropped (a b c d e : ascii) (data : string) :
  allChars isAlnum data = false ->
  let line := String "#" (String a (String b (String c (String d (String e
                (String ":" data)))))) in
  matchMeasure line = None /\
  (isAlnum a = true -> isAlnum b = true -> isAlnum c = true ->
   isAlnum d = true -> isAlnum e = true -> matchHeader line = None).
Proof.
  intro Hd. cbv zeta. split.
  - unfold matchMeasure. rewrite Hd, !andb_false_r. reflexivity.
  - intros Ha Hb Hc Hd' He. unfold matchHeader.
    destruct (takeWhile_prefix isAlnum
                (String a (String b (String c (String d (String e EmptyString)))))
                ":" data) as [Ht Hdrop].
    + cbn [allChars]. rewrite Ha, Hb, Hc, Hd', He. reflexivity.
    + reflexivity.
    + cbn [append] in Ht, Hdrop. cbv zeta. rewrite Ht, Hdrop. reflexivity.
Qed.

Lemma X24_line_with_other_character_is_dropped_witness :
  allChars isAlnum "0.75" = false /\
  matchMeasure "#00102:0.75" = None /\ matchHeader "#00102:0.75" = None.
Proof.
  assert (H : allChars isAlnum "0.75" = false) by reflexivity.
  split; [exact H|].
  destruct (X24_line_with_other_character_is_dropped "0" "0" "1" "0" "2" "0.75" H)
    as [Hm Hh].
  split; [exact Hm|]. apply Hh; reflexivity.
Defined.

End Tokenizer.

(** ** From the compiler to the engine, continued *)

Section SessionOrder.
Import RhythmGame.

Lemma StronglySorted_map {A B : Type} (R : A -> A -> Prop) (S : B -> B -> Prop)
      (f : A -> B) (l : list A) :
  (forall a b, R a b -> S (f a) (f b)) ->
  StronglySorted R l -> StronglySorted S (map f l).
Proof.
  intros Hf. induction 1 as [|x l Hs IH Hx]; cbn [map]; constructor; [exact IH|].
  apply Forall_forall. intros y Hy. apply in_map_iff in Hy.
  destruct Hy as (a & <- & Ha). apply Hf. rewrite Forall_forall in Hx. apply Hx. exact Ha.
Qed.

Lemma sameCompiled_sorted (l l' : list Note) :
  Forall2 sameCompiled l l' ->
  StronglySorted (fun a b => time a <= time b) l ->
  StronglySorted (fun a b => time a <= time b) l'.
Proof.
  induction 1 as [|x x' l l' Hx Hl IH]; intro Hs; [constructor|].
  inversion Hs as [|? ? Hs' Hall]; subst. constructor; [apply IH; exact Hs'|].
  destruct Hx as (Hxt & _).
  clear IH Hs Hs'. induction Hl as [|y y' l l' Hy Hl IH]; [constructor|].
  inversion Hall; subst. constructor; [|apply IH; assumption].
  destruct Hy as (Hyt & _). rewrite Hxt, Hyt. assumption.
Qed.

(** The notes that [start] prepares from a list in time order are in
    time order, and every event keeps them so. *)
Lemma session_sorted (compiled : list BMSParser.Note) (demo : bool) (es : list Event) :
  StronglySorted (fun a b => BMSParser.time a <= BMSParser.time b) compiled ->
  StronglySorted (fun a b => time a <= time b)
                 (runtimeNotes (run (start compiled demo) es)).
Proof.
  intro Hs. apply (sameCompiled_sorted _ _ (run_sameCompiled es (start compiled demo))).
  cbn [start runtimeNotes]. unfold prepareNotes. apply filter_StronglySorted.
  apply (StronglySorted_map (fun a b => BMSParser.time a <= BMSParser.time b));
    [|exact Hs].
  intros a b H. exact H.
Qed.

(** X22.  A hold whose head was not pressed, outside the auto demo:
    [update] leaves it alone up to 150 ms after its head, and after that
    it counts one miss and marks the whole note as missed, whatever its
    length. *)
Theorem X22_unpressed_hold_ages_out (t : Q) (s : Stats) (n : Note) :
  type n = ln -> isHolding n = false -> hit n = false -> missed n = false ->
  (t <= time n + 0.15 -> updateNote false t s n = (s, n)) /\
  (time n + 0.15 < t -> updateNote false t s n = (triggerMissStats s, set_missed true n)).
Proof.
  intros Hty Hho Hh Hm. unfold updateNote. cbn [andb].
  rewrite Hty, Hho, Hh, Hm. cbn [NoteType_eqb andb negb orb].
  split; intro H.
  - destruct (Qltb (time n - t) (-0.15)) eqn:E; [|reflexivity].
    apply Qltb_lt in E. exfalso. lra.
  - apply miss_condition in H. rewrite H. reflexivity.
Qed.

Lemma X22_unpressed_hold_ages_out_witness :
  let n := mkNote 1 0 ln 5 false false false None in
  (2 <= time n + 0.15 -> updateNote false 2 initialStats n = (initialStats, n)) /\
  (time n + 0.15 < 2 ->
   updateNote false 2 initialStats n = (triggerMissStats initialStats, set_missed true n)).
Proof.
  intro n.
  exact (X22_unpressed_hold_ages_out 2 initialStats n eq_refl eq_refl eq_refl eq_refl).
Defined.

(** X21.  The runtime notes of a session started from a compiler output
    are in non-decreasing order of time, and stay so whatever presses,
    releases and ticks follow. *)
Theorem X21_session_keeps_time_order
        (initialBPM0 : Q) (lnType : Z)
        (timeEvents : list BMSParser.TimeEvent)
        (channelEvents : list BMSParser.ChannelEvent) (out : BMSParser.Output)
        (demo : bool) (es : list Event) :
  BMSParser.compileEvents initialBPM0 lnType timeEvents channelEvents = Some out ->
  StronglySorted (fun a b => time a <= time b)
                 (runtimeNotes (run (start (BMSParser.notes out) demo) es)).
Proof.
  unfold BMSParser.compileEvents. intro H.
  destruct (BMSParser.integrate _ _ _) as [st|]; [|discriminate].
  inversion H; subst; clear H. cbn [BMSParser.notes].
  apply session_sorted. apply (sort_by_key_sorted BMSParser.time).
Qed.

Lemma X21_session_keeps_time_order_witness :
  let ces := [BMSParser.mkChannelEvent 4 BMSParser.ev_note 1 "02";
              BMSParser.mkChannelEvent 0 BMSParser.ev_note 0 "01"]%string in
  exists out,
    BMSParser.compileEvents 120 1 [] ces = Some out /\
    StronglySorted (fun a b => time a <= time b)
                   (runtimeNotes (run (start (BMSParser.notes out) false)
                                      [Press 0 0; Tick 1; Release 0 1])).
Proof.
  intro ces. destruct (BMSParser.compileEvents 120 1 [] ces) as [out|] eqn:E.
  - exists out. split; [reflexivity|].
    exact (X21_session_keeps_time_order 120 1 [] ces out false _ E).
  - vm_compute in E. discriminate E.
Defined.

End SessionOrder.
